(** * GunGamewithDots: a shallow embedding of the simulation core

    The development follows [src/GunGamewithDots.py]: the tile map and its
    generation, the camera transform, axis-separated movement, the player's
    weapon / reload / dash / damage operations, the projectile-versus-enemy
    resolution of a tick and the wave director.

    Conventions.
    - Python floats (positions, velocities, [dt]) are exact rationals [Q];
      [int()] is truncation toward zero.  Equality of rationals is [==].
      Where a property depends on rounding (the camera round trip), the
      operations are read in binary64 as well: each result is the exact
      one rounded to the nearest double ([round64]).
    - A float stored into a [pygame.Rect] attribute is rounded to the
      nearest integer, halves away from zero.
    - [pygame.Rect] is a record of four integers with pygame's edge
      arithmetic; [colliderect] is pygame's strict overlap test.
    - The global [random] module is an explicit generator state threaded
      through every function that draws from it.
    - [math.cos], [math.sin] and the square root behind [Vector2.length] are
      operations of an interface ([MathLib]); the properties below hold for
      every implementation of it.
    - A [pygame.sprite.Group] is the list of its members in insertion
      order; [kill()] drops the member from the list. *)

From Stdlib Require Import ZArith QArith Qround Qabs List Bool Lia Lqa.
Import ListNotations.
Open Scope Z_scope.

(* ------------------------------------------------------------------ *)
(** ** Numbers *)

(** [int(q)]: truncation toward zero. *)
Definition py_int (q : Q) : Z := Z.quot (Qnum q) (Zpos (Qden q)).

(** The integer pygame stores when a float is assigned to a coordinate of
    a [Rect]: the nearest one, halves away from zero (100.5 gives 101,
    -39.25 gives -39, -0.5 gives -1). *)
Definition round_half_away (q : Q) : Z :=
  Z.sgn (Qnum q) * ((2 * Z.abs (Qnum q) + Zpos (Qden q)) / (2 * Zpos (Qden q))).

Definition Qltb (a b : Q) : bool := negb (Qle_bool b a).

(** [clamp(v, a, b)] *)
Definition clamp (v a b : Z) : Z := Z.max a (Z.min b v).

(** [range(a, b)] *)
Definition range (a b : Z) : list Z :=
  map (fun i => a + Z.of_nat i) (seq 0 (Z.to_nat (b - a))).

(** [for a in l: s = body a s] *)
Definition for_each {A S : Type} (l : list A) (body : A -> S -> S) (s : S) : S :=
  fold_left (fun s a => body a s) l s.

(** Python indexing [l[i]]: negative indexes count from the end, anything
    outside raises [IndexError] ([None]). *)
Definition py_nth {A : Type} (l : list A) (i : Z) : option A :=
  let n := Z.of_nat (length l) in
  if i <? 0
  then (if i + n <? 0 then None else nth_error l (Z.to_nat (i + n)))
  else nth_error l (Z.to_nat i).

(** In-place store [l[i] = v] for an index in [0 <= i < len(l)]; beyond
    the end the list is returned as it is. *)
Fixpoint list_set {A : Type} (l : list A) (i : nat) (v : A) : list A :=
  match l, i with
  | [], _ => []
  | _ :: t, O => v :: t
  | a :: t, S j => a :: list_set t j v
  end.

(* ------------------------------------------------------------------ *)
(** ** Config *)

Definition SCREEN_W : Z := 1280.
Definition SCREEN_H : Z := 720.
Definition FPS : Z := 60.
Definition TILE : Z := 48.
Definition MAP_W : Z := 48.
Definition MAP_H : Z := 30.

(** Colour tags used by particles (the keys of [COLORS] that the
    simulation passes around). *)
Inductive Color := ColWall | ColShot | ColDanger | ColBullet | ColEnemy1.

(* ------------------------------------------------------------------ *)
(** ** pygame.Vector2 *)

Record Vector2 := mkVec { vx : Q; vy : Q }.

Definition vadd (a b : Vector2) : Vector2 := mkVec (vx a + vx b)%Q (vy a + vy b)%Q.
Definition vsub (a b : Vector2) : Vector2 := mkVec (vx a - vx b)%Q (vy a - vy b)%Q.
Definition vscale (a : Vector2) (k : Q) : Vector2 := mkVec (vx a * k)%Q (vy a * k)%Q.
Definition length_squared (a : Vector2) : Q := (vx a * vx a + vy a * vy a)%Q.

(** Component-wise equality of vectors up to the value of the rationals. *)
Definition veq (a b : Vector2) : Prop := (vx a == vx b)%Q /\ (vy a == vy b)%Q.

(** The floating-point library behind [math] and [Vector2.length]. *)
Class MathLib := {
  fsqrt : Q -> Q;
  fcos : Q -> Q;
  fsin : Q -> Q
}.

Section Vector2Length.
Context {M : MathLib}.

Definition vlength (a : Vector2) : Q := fsqrt (length_squared a).

(** [v.normalize()], called only on vectors of nonzero length. *)
Definition normalize (a : Vector2) : Vector2 :=
  mkVec (vx a / vlength a)%Q (vy a / vlength a)%Q.
End Vector2Length.

(* ------------------------------------------------------------------ *)
(** ** pygame.Rect *)

Record Rect := mkRect { rx : Z; ry : Z; rw : Z; rh : Z }.

Definition left (r : Rect) : Z := rx r.
Definition top (r : Rect) : Z := ry r.
Definition right (r : Rect) : Z := rx r + rw r.
Definition bottom (r : Rect) : Z := ry r + rh r.
Definition centerx (r : Rect) : Z := rx r + Z.quot (rw r) 2.
Definition centery (r : Rect) : Z := ry r + Z.quot (rh r) 2.

Definition set_left (r : Rect) (v : Z) : Rect := mkRect v (ry r) (rw r) (rh r).
Definition set_right (r : Rect) (v : Z) : Rect := mkRect (v - rw r) (ry r) (rw r) (rh r).
Definition set_top (r : Rect) (v : Z) : Rect := mkRect (rx r) v (rw r) (rh r).
Definition set_bottom (r : Rect) (v : Z) : Rect := mkRect (rx r) (v - rh r) (rw r) (rh r).
Definition set_centerx (r : Rect) (v : Z) : Rect :=
  mkRect (v - Z.quot (rw r) 2) (ry r) (rw r) (rh r).
Definition set_centery (r : Rect) (v : Z) : Rect :=
  mkRect (rx r) (v - Z.quot (rh r) 2) (rw r) (rh r).

(** [rect.center = (x, y)] with float coordinates: pygame rounds each
    coordinate to the nearest integer. *)
Definition set_center (r : Rect) (p : Vector2) : Rect :=
  set_centery (set_centerx r (round_half_away (vx p))) (round_half_away (vy p)).

(** [surface.get_rect(center=p)] for a [w] x [h] surface. *)
Definition rect_centered (w h : Z) (p : Vector2) : Rect :=
  set_center (mkRect 0 0 w h) p.

(** [a.colliderect(b)]: strict overlap; rectangles of zero width or height
    collide with nothing. *)
Definition colliderect (a b : Rect) : bool :=
  if (rw a =? 0) || (rh a =? 0) || (rw b =? 0) || (rh b =? 0) then false
  else
    (Z.min (rx a) (rx a + rw a) <? Z.max (rx b) (rx b + rw b)) &&
    (Z.min (ry a) (ry a + rh a) <? Z.max (ry b) (ry b + rh b)) &&
    (Z.max (rx a) (rx a + rw a) >? Z.min (rx b) (rx b + rw b)) &&
    (Z.max (ry a) (ry a + rh a) >? Z.min (ry b) (ry b + rh b)).

(* ------------------------------------------------------------------ *)
(** ** The random module *)

Class RandomSource (R : Type) := {
  (** [random.random()]: the next draw of [[0, 1)] and the new state *)
  random : R -> Q * R;
  (** [random.randint(a, b)]: the next integer of [[a, b]] *)
  randint : Z -> Z -> R -> Z * R
}.

(** What the [random] module promises about the range of its draws. *)
Class RandomRange (R : Type) {RS : RandomSource R} : Prop := {
  random_range : forall r : R, (0 <= fst (random r))%Q /\ (fst (random r) < 1)%Q;
  randint_range : forall (a b : Z) (r : R), a <= b ->
    a <= fst (randint a b r) /\ fst (randint a b r) <= b
}.

Section RandomHelpers.
Context {R : Type} {RS : RandomSource R}.

(** [random.uniform(a, b)] is [a + (b - a) * random()]. *)
Definition uniform (a b : Q) (r : R) : Q * R :=
  let '(u, r') := random r in ((a + (b - a) * u)%Q, r').

(** The generator after [n] calls of [random()]. *)
Fixpoint skip (n : nat) (r : R) : R :=
  match n with
  | O => r
  | S k => skip k (snd (random r))
  end.

(** [[gen() for _ in range(n)]], threading the generator. *)
Fixpoint repeat_gen {A : Type} (n : nat) (gen : R -> A * R) (r : R) : list A * R :=
  match n with
  | O => ([], r)
  | S k =>
      let '(a, r1) := gen r in
      let '(l, r2) := repeat_gen k gen r1 in
      (a :: l, r2)
  end.
End RandomHelpers.

(* ------------------------------------------------------------------ *)
(** ** Tile map *)

Record TileMap := mkTileMap {
  tm_w : Z;
  tm_h : Z;
  tm_tile : Z;
  grid : list (list Z);
  wall_rects : list Rect
}.

(** [grid[y][x]] *)
Definition grid_get (g : list (list Z)) (x y : Z) : option Z :=
  match py_nth g y with
  | Some row => py_nth row x
  | None => None
  end.

(** [grid[y][x] = v] for a cell of the grid.  [generate] stores only at
    cells inside the grid: the first pass ranges over [range(h)] and
    [range(w)] of an [h] x [w] grid and the carving is guarded by
    [0 < x < w - 1 and 0 < y < h - 1]; outside the grid nothing is
    stored here. *)
Definition grid_set (g : list (list Z)) (x y : Z) (v : Z) : list (list Z) :=
  match nth_error g (Z.to_nat y) with
  | Some row => list_set g (Z.to_nat y) (list_set row (Z.to_nat x) v)
  | None => g
  end.

(** The runs of cells equal to 1 in one row, as [(start, stop)] pairs:
    the inner [while] loops of [rebuild_wall_rects], with [x] the column of
    the head of [cells] and [start] the column where the run being
    extended began. *)
Fixpoint row_runs (cells : list Z) (x : Z) (start : option Z) : list (Z * Z) :=
  match cells with
  | [] =>
      match start with
      | Some s => [(s, x)]
      | None => []
      end
  | c :: rest =>
      if c =? 1
      then row_runs rest (x + 1) (Some (match start with Some s => s | None => x end))
      else
        match start with
        | Some s => (s, x) :: row_runs rest (x + 1) None
        | None => row_runs rest (x + 1) None
        end
  end.

Definition row_rects (y : Z) (cells : list Z) : list Rect :=
  map (fun '(s, e) => mkRect (s * TILE) (y * TILE) ((e - s) * TILE) TILE)
      (row_runs cells 0 None).

Fixpoint rows_rects (y : Z) (rows : list (list Z)) : list Rect :=
  match rows with
  | [] => []
  | row :: rest => row_rects y row ++ rows_rects (y + 1) rest
  end.

(** [rebuild_wall_rects()]: one rectangle for every run, row by row; the
    grid has [h] rows of [w] cells, which the scan visits in order. *)
Definition rebuild_wall_rects (tm : TileMap) : TileMap :=
  mkTileMap (tm_w tm) (tm_h tm) (tm_tile tm) (grid tm) (rows_rects 0 (grid tm)).

Section Generate.
Context {R : Type} {RS : RandomSource R}.

(** Body of the first pair of loops of [generate] at cell [(x, y)]. *)
Definition fill_cell (w h : Z) (y x : Z) (st : list (list Z) * R)
  : list (list Z) * R :=
  let '(g, r) := st in
  if (x =? 0) || (x =? w - 1) || (y =? 0) || (y =? h - 1)
  then (grid_set g x y 1, r)
  else
    let '(u, r') := random r in
    (grid_set g x y (if Qltb u (6 # 100) then 1 else 0), r').

Definition fill_row (w h : Z) (y : Z) (st : list (list Z) * R) : list (list Z) * R :=
  for_each (range 0 w) (fill_cell w h y) st.

Definition fill (w h : Z) (st : list (list Z) * R) : list (list Z) * R :=
  for_each (range 0 h) (fill_row w h) st.

(** Body of the carving loops. *)
Definition carve_cell (w h : Z) (y x : Z) (g : list (list Z)) : list (list Z) :=
  if (0 <? x) && (x <? w - 1) && (0 <? y) && (y <? h - 1)
  then grid_set g x y 0
  else g.

Definition carve (w h : Z) (g : list (list Z)) : list (list Z) :=
  let cx := w / 2 in
  let cy := h / 2 in
  for_each (range (cy - 5) (cy + 6))
    (fun y => for_each (range (cx - 7) (cx + 8)) (carve_cell w h y)) g.

Definition generate (tm : TileMap) (r : R) : TileMap * R :=
  let '(g1, r1) := fill (tm_w tm) (tm_h tm) (grid tm, r) in
  let g2 := carve (tm_w tm) (tm_h tm) g1 in
  (rebuild_wall_rects
     (mkTileMap (tm_w tm) (tm_h tm) (tm_tile tm) g2 (wall_rects tm)), r1).

(** [TileMap(w, h, tile)] *)
Definition TileMap_init (w h tile : Z) (r : R) : TileMap * R :=
  generate
    (mkTileMap w h tile
       (repeat (repeat 0 (Z.to_nat w)) (Z.to_nat h)) []) r.
End Generate.

(** The outer ring of a [w] x [h] grid. *)
Definition on_border (w h x y : Z) : Prop :=
  x = 0 \/ x = w - 1 \/ y = 0 \/ y = h - 1.

(** The cells that the carving loops of [generate] write: columns
    [cx - 7 .. cx + 7] and rows [cy - 5 .. cy + 5] around the centre cell,
    as far as they are interior cells. *)
Definition in_plaza (w h x y : Z) : Prop :=
  (w / 2 - 7 <= x < w / 2 + 8) /\ (h / 2 - 5 <= y < h / 2 + 6) /\
  (0 < x < w - 1) /\ (0 < y < h - 1).

Definition in_plazab (w h x y : Z) : bool :=
  (w / 2 - 7 <=? x) && (x <? w / 2 + 8) && (h / 2 - 5 <=? y) && (y <? h / 2 + 6) &&
  (0 <? x) && (x <? w - 1) && (0 <? y) && (y <? h - 1).

(** How many draws the first pass of [generate] has made when it reaches
    the interior cell [(x, y)]: one for every interior cell before it in
    row-major order. *)
Definition draw_index (w x y : Z) : nat :=
  Z.to_nat ((y - 1) * (w - 2) + (x - 1)).

(** The shape of a [w] x [h] grid. *)
Definition grid_dims (g : list (list Z)) (w h : Z) : Prop :=
  length g = Z.to_nat h /\ Forall (fun row => length row = Z.to_nat w) g.

(** Has the carving written cell [(x, y)] when it is about to visit
    column [j] of row [i]? *)
Definition carved_before (w h i j x y : Z) : bool :=
  in_plazab w h x y && ((y <? i) || ((y =? i) && (x <? j))).

(** Loop invariant of the carving, started on grid [g0]. *)
Definition carve_inv (w h : Z) (g0 : list (list Z)) (i j : Z) (g : list (list Z)) : Prop :=
  grid_dims g w h /\
  forall x y, 0 <= x < w -> 0 <= y < h ->
    grid_get g x y = if carved_before w h i j x y then Some 0 else grid_get g0 x y.

(** Draws made by the first pass of [generate] before row [i] starts, and
    within row [y] before column [j]. *)
Definition draws_before_row (w h i : Z) : Z :=
  Z.max 0 (w - 2) * Z.max 0 (Z.min (i - 1) (h - 2)).

Definition draws_in_row (w h y j : Z) : Z :=
  if (0 <? y) && (y <? h - 1) then Z.max 0 (Z.min (j - 1) (w - 2)) else 0.

Section FillValue.
Context {R : Type} {RS : RandomSource R}.

(** What the first pass of [generate], started with generator [r0], writes
    into cell [(x, y)]. *)
Definition fill_value (w h : Z) (r0 : R) (x y : Z) : Z :=
  if (x =? 0) || (x =? w - 1) || (y =? 0) || (y =? h - 1) then 1
  else if Qltb (fst (random (skip (draw_index w x y) r0))) (6 # 100) then 1 else 0.

(** Loop invariants of the first pass: before row [i], and within row [y]
    before column [j]. *)
Definition fill_inv (w h : Z) (r0 : R) (i : Z) (st : list (list Z) * R) : Prop :=
  grid_dims (fst st) w h /\
  snd st = skip (Z.to_nat (draws_before_row w h i)) r0 /\
  forall x y, 0 <= x < w -> 0 <= y < i ->
    grid_get (fst st) x y = Some (fill_value w h r0 x y).

Definition fill_row_inv (w h : Z) (r0 : R) (y j : Z) (st : list (list Z) * R) : Prop :=
  grid_dims (fst st) w h /\
  snd st = skip (Z.to_nat (draws_before_row w h y + draws_in_row w h y j)) r0 /\
  (forall x y', 0 <= x < w -> 0 <= y' < y ->
     grid_get (fst st) x y' = Some (fill_value w h r0 x y')) /\
  (forall x, 0 <= x < j -> grid_get (fst st) x y = Some (fill_value w h r0 x y)).
End FillValue.

(** [tilemap.rect_collide(rect)] *)
Definition rect_collide (tm : TileMap) (r : Rect) : list Rect :=
  filter (fun w => colliderect r w) (wall_rects tm).

(* ------------------------------------------------------------------ *)
(** ** Camera *)

Record Camera := mkCamera {
  offset : Vector2;
  shake_frames : Z;
  shake_mag : Z
}.

Definition Camera_init : Camera := mkCamera (mkVec 0 0) 0 0.

Definition Camera_update (c : Camera) (target_pos : Vector2) : Camera :=
  let desired :=
    vsub target_pos (mkVec (inject_Z SCREEN_W / 2) (inject_Z SCREEN_H / 2)) in
  let off := vadd (offset c) (vscale (vsub desired (offset c)) (15 # 100)) in
  mkCamera off
    (if 0 <? shake_frames c then shake_frames c - 1 else shake_frames c)
    (shake_mag c).

(** [camera.shake(frames, mag)] *)
Definition Camera_shake (c : Camera) (frames mag : Z) : Camera :=
  mkCamera (offset c) frames mag.

(** The world-to-screen transform for a given jitter vector. *)
Definition apply_jitter (c : Camera) (pos jitter : Vector2) : Vector2 :=
  vadd (vsub pos (offset c)) jitter.

Section CameraApply.
Context {R : Type} {RS : RandomSource R}.

(** The jitter [Camera.apply] adds: zero unless a shake is armed. *)
Definition Camera_jitter (c : Camera) (r : R) : Vector2 * R :=
  if 0 <? shake_frames c
  then
    let m := inject_Z (shake_mag c) in
    let '(jx, r1) := uniform (- m) m r in
    let '(jy, r2) := uniform (- m) m r1 in
    (mkVec jx jy, r2)
  else (mkVec 0 0, r).

(** [camera.apply(pos)] *)
Definition Camera_apply (c : Camera) (pos : Vector2) (r : R) : Vector2 * R :=
  let '(jitter, r') := Camera_jitter c r in
  (apply_jitter c pos jitter, r').
End CameraApply.

(** [Game.screen_to_world(screen_pos)], which reads the camera offset only. *)
Definition screen_to_world (c : Camera) (screen_pos : Vector2) : Vector2 :=
  vadd screen_pos (offset c).

(** *** The transform in binary64

    [pygame.Vector2] holds doubles: every [+] and [-] returns the exact
    result rounded to the nearest double, ties to the even significand.
    [round64] is that rounding for magnitudes below the largest double
    (53-bit significands, subnormals spaced [2^-1074]). *)

(** The nearest integer, ties to even. *)
Definition rne (q : Q) : Z :=
  let f := Qfloor q in
  match (q - inject_Z f ?= 1 # 2)%Q with
  | Lt => f
  | Gt => f + 1
  | Eq => if Z.even f then f else f + 1
  end.

Definition pow2 (e : Z) : Q := Qpower 2 e.

(** [floor (log2 |q|)] for [q <> 0]. *)
Definition binade (q : Q) : Z :=
  let e0 := Z.log2 (Z.abs (Qnum q)) - Z.log2 (Zpos (Qden q)) in
  if Qle_bool (pow2 e0) (Qabs q) then e0 else e0 - 1.

Definition round64 (q : Q) : Q :=
  let q0 := Qred q in
  if Qeq_bool q0 0 then 0%Q
  else
    let u := Z.max (binade q0 - 52) (-1074) in
    Qred (inject_Z (rne (q0 / pow2 u)) * pow2 u).

(** The rationals that are doubles. *)
Definition is_double (q : Q) : Prop := (round64 q == q)%Q.

Definition add64 (a b : Q) : Q := round64 (a + b).
Definition sub64 (a b : Q) : Q := round64 (a - b).

Definition vadd64 (a b : Vector2) : Vector2 :=
  mkVec (add64 (vx a) (vx b)) (add64 (vy a) (vy b)).
Definition vsub64 (a b : Vector2) : Vector2 :=
  mkVec (sub64 (vx a) (vx b)) (sub64 (vy a) (vy b)).

(** [pos - self.offset + jitter] *)
Definition apply_jitter64 (c : Camera) (pos jitter : Vector2) : Vector2 :=
  vadd64 (vsub64 pos (offset c)) jitter.

(** [camera.apply(pos)] *)
Definition Camera_apply64 {R : Type} {RS : RandomSource R}
  (c : Camera) (pos : Vector2) (r : R) : Vector2 * R :=
  let '(jitter, r') := Camera_jitter c r in
  (apply_jitter64 c pos jitter, r').

(** [Vector2(screen_pos) + self.camera.offset] *)
Definition screen_to_world64 (c : Camera) (screen_pos : Vector2) : Vector2 :=
  vadd64 screen_pos (offset c).

(* ------------------------------------------------------------------ *)
(** ** Entities *)

Record Entity := mkEntity {
  pos : Vector2;
  vel : Vector2;
  radius : Z;
  rect : Rect
}.

Definition Entity_init (p : Vector2) (rad : Z) : Entity :=
  mkEntity p (mkVec 0 0) rad (rect_centered (rad * 2) (rad * 2) p).

(** One pass of [for w in tilemap.rect_collide(self.rect)] on the X axis:
    the state is the rectangle and [pos.x]. *)
Definition clamp_x (velx : Q) (st : Rect * Q) (w : Rect) : Rect * Q :=
  let r := fst st in
  let r' :=
    if Qltb 0 velx then set_right r (left w)
    else if Qltb velx 0 then set_left r (right w)
    else r in
  (r', inject_Z (centerx r')).

Definition clamp_y (vely : Q) (st : Rect * Q) (w : Rect) : Rect * Q :=
  let r := fst st in
  let r' :=
    if Qltb 0 vely then set_bottom r (top w)
    else if Qltb vely 0 then set_top r (bottom w)
    else r in
  (r', inject_Z (centery r')).

(** [Entity.collide_move(dt, tilemap, speed)] ([speed] is not read). *)
Definition collide_move (dt : Q) (tm : TileMap) (e : Entity) : Entity :=
  (* X axis *)
  let px := (vx (pos e) + vx (vel e) * dt)%Q in
  let r1 := set_centerx (rect e) (py_int px) in
  let '(r2, px2) := fold_left (clamp_x (vx (vel e))) (rect_collide tm r1) (r1, px) in
  (* Y axis *)
  let py := (vy (pos e) + vy (vel e) * dt)%Q in
  let r3 := set_centery r2 (py_int py) in
  let '(r4, py4) := fold_left (clamp_y (vy (vel e))) (rect_collide tm r3) (r3, py) in
  mkEntity (mkVec px2 py4) (vel e) (radius e) r4.

(** The two halves of a move, each on one axis only; [collide_move] is
    shown below to be the X half followed by the Y half. *)
Definition resolve_x (dt : Q) (tm : TileMap) (e : Entity) : Entity :=
  let px := (vx (pos e) + vx (vel e) * dt)%Q in
  let r1 := set_centerx (rect e) (py_int px) in
  let '(r2, px2) := fold_left (clamp_x (vx (vel e))) (rect_collide tm r1) (r1, px) in
  mkEntity (mkVec px2 (vy (pos e))) (vel e) (radius e) r2.

Definition resolve_y (dt : Q) (tm : TileMap) (e : Entity) : Entity :=
  let py := (vy (pos e) + vy (vel e) * dt)%Q in
  let r3 := set_centery (rect e) (py_int py) in
  let '(r4, py4) := fold_left (clamp_y (vy (vel e))) (rect_collide tm r3) (r3, py) in
  mkEntity (mkVec (vx (pos e)) py4) (vel e) (radius e) r4.

(** The overlap query of each axis, as [collide_move] issues it. *)
Definition x_overlaps (dt : Q) (tm : TileMap) (e : Entity) : list Rect :=
  rect_collide tm
    (set_centerx (rect e) (py_int (vx (pos e) + vx (vel e) * dt)%Q)).

Definition y_overlaps (dt : Q) (tm : TileMap) (e : Entity) : list Rect :=
  let ex := resolve_x dt tm e in
  rect_collide tm
    (set_centery (rect ex) (py_int (vy (pos ex) + vy (vel ex) * dt)%Q)).

(** The edge of a rectangle that leads a motion of velocity [v] along an
    axis, and the edge of a wall that faces such a motion. *)
Definition leading_x (v : Q) (r : Rect) : Z := if Qltb 0 v then right r else left r.
Definition facing_x (v : Q) (w : Rect) : Z := if Qltb 0 v then left w else right w.
Definition leading_y (v : Q) (r : Rect) : Z := if Qltb 0 v then bottom r else top r.
Definition facing_y (v : Q) (w : Rect) : Z := if Qltb 0 v then top w else bottom w.

(* ------------------------------------------------------------------ *)
(** ** Particles and bullets *)

Record Particle := mkParticle {
  pt_pos : Vector2;
  pt_vel : Vector2;
  pt_life : Z;
  pt_color : Color;
  pt_rect : Rect
}.

Definition Particle_init (p v : Vector2) (life : Z) (c : Color) : Particle :=
  mkParticle p v life c (rect_centered 6 6 p).

(** [Particle.update()]; the boolean tells whether the particle stays in
    its group. *)
Definition Particle_update (p : Particle) : Particle * bool :=
  let p1 := vadd (pt_pos p) (pt_vel p) in
  let v1 := vscale (pt_vel p) (88 # 100) in
  let life := pt_life p - 1 in
  let rc := set_center (pt_rect p) (mkVec (inject_Z (py_int (vx p1))) (inject_Z (py_int (vy p1)))) in
  (mkParticle p1 v1 life (pt_color p) rc, negb (life <=? 0)).

Record Bullet := mkBullet {
  b_pos : Vector2;
  b_vel : Vector2;
  b_life : Z;
  b_rect : Rect
}.

Definition Bullet_init (p v : Vector2) (life : Z) : Bullet :=
  mkBullet p v life (rect_centered 10 10 p).

(** [Bullet.update(dt, tilemap)] with [dt] in milliseconds. *)
Definition Bullet_update (dt : Z) (tm : TileMap) (b : Bullet) : Bullet * bool :=
  let p1 := vadd (b_pos b) (vscale (b_vel b) (inject_Z dt / 1000)) in
  let rc := set_center (b_rect b) (mkVec (inject_Z (py_int (vx p1))) (inject_Z (py_int (vy p1)))) in
  let life0 := match rect_collide tm rc with [] => b_life b | _ :: _ => 0 end in
  let life := life0 - 1 in
  (mkBullet p1 (b_vel b) life rc, negb (life <=? 0)).

Section Particles.
Context {R : Type} {RS : RandomSource R}.

(** [Particle(p, Vector2(uniform(-m, m), uniform(-m, m)), life, c)] *)
Definition gen_particle (p : Vector2) (m : Q) (life : Z) (c : Color) (r : R)
  : Particle * R :=
  let '(x, r1) := uniform (- m) m r in
  let '(y, r2) := uniform (- m) m r1 in
  (Particle_init p (mkVec x y) life c, r2).

(** [for _ in range(n): particles.add(Particle(...))] *)
Definition burst (n : nat) (p : Vector2) (m : Q) (life : Z) (c : Color)
  (particles : list Particle) (r : R) : list Particle * R :=
  let '(l, r') := repeat_gen n (gen_particle p m life c) r in
  (particles ++ l, r').
End Particles.

(* ------------------------------------------------------------------ *)
(** ** Player *)

Inductive Weapon := Rifle | Shotgun.

(** The dictionaries keyed by ["rifle"] and ["shotgun"]. *)
Record PerWeapon := mkPerWeapon { of_rifle : Z; of_shotgun : Z }.

Definition pw_get (d : PerWeapon) (w : Weapon) : Z :=
  match w with Rifle => of_rifle d | Shotgun => of_shotgun d end.

Definition pw_set (d : PerWeapon) (w : Weapon) (v : Z) : PerWeapon :=
  match w with
  | Rifle => mkPerWeapon v (of_shotgun d)
  | Shotgun => mkPerWeapon (of_rifle d) v
  end.

Definition other_weapon (w : Weapon) : Weapon :=
  match w with Rifle => Shotgun | Shotgun => Rifle end.

Record Player := mkPlayer {
  p_ent : Entity;
  p_speed : Z;
  hp : Z;
  max_hp : Z;
  invuln : Z;
  dash_cd : Z;
  reload_time : Z;
  weapon : Weapon;
  ammo : PerWeapon;
  mag : PerWeapon;
  fire_cd : Z;
  rpm : PerWeapon
}.

Definition Player_init (p : Vector2) : Player :=
  mkPlayer (Entity_init p 22) 320 150 150 0 0 0 Rifle
    (mkPerWeapon 30 8) (mkPerWeapon 30 8) 0 (mkPerWeapon 480 90).

Definition with_ent (p : Player) (e : Entity) : Player :=
  mkPlayer e (p_speed p) (hp p) (max_hp p) (invuln p) (dash_cd p)
    (reload_time p) (weapon p) (ammo p) (mag p) (fire_cd p) (rpm p).

(** [Player.update_cooldowns()] *)
Definition update_cooldowns (p : Player) : Player :=
  let invuln1 := if 0 <? invuln p then invuln p - 1 else invuln p in
  let dash1 := if 0 <? dash_cd p then dash_cd p - 1 else dash_cd p in
  let '(reload1, ammo1) :=
    if 0 <? reload_time p
    then
      let t := reload_time p - 1 in
      (t, if t <=? 0 then pw_set (ammo p) (weapon p) (pw_get (mag p) (weapon p))
          else ammo p)
    else (reload_time p, ammo p) in
  let fire1 := if 0 <? fire_cd p then fire_cd p - 1 else fire_cd p in
  mkPlayer (p_ent p) (p_speed p) (hp p) (max_hp p) invuln1 dash1 reload1
    (weapon p) ammo1 (mag p) fire1 (rpm p).

(** [Player.damage(amt)] *)
Definition damage (p : Player) (amt : Z) : Player :=
  if 0 <? invuln p then p
  else
    mkPlayer (p_ent p) (p_speed p) (hp p - amt) (max_hp p) 25 (dash_cd p)
      (reload_time p) (weapon p) (ammo p) (mag p) (fire_cd p) (rpm p).

(** [Player.reload()] *)
Definition reload (p : Player) : Player :=
  if (reload_time p <=? 0) && (pw_get (ammo p) (weapon p) <? pw_get (mag p) (weapon p))
  then
    let t :=
      py_int (inject_Z FPS * (match weapon p with Rifle => 8 # 10 | Shotgun => 12 # 10 end))%Q in
    mkPlayer (p_ent p) (p_speed p) (hp p) (max_hp p) (invuln p) (dash_cd p)
      t (weapon p) (ammo p) (mag p) (fire_cd p) (rpm p)
  else p.

(** [Player.switch_weapon()] *)
Definition switch_weapon (p : Player) : Player :=
  mkPlayer (p_ent p) (p_speed p) (hp p) (max_hp p) (invuln p) (dash_cd p)
    (reload_time p) (match weapon p with Rifle => Shotgun | Shotgun => Rifle end)
    (ammo p) (mag p) (fire_cd p) (rpm p).

Section PlayerMoves.
Context {M : MathLib} {R : Type} {RS : RandomSource R}.

(** [Player.input(keys)] for the four movement keys. *)
Definition Player_input (p : Player) (k_d k_a k_s k_w : bool) : Player :=
  let b2q (b : bool) : Q := (if b then 1 else 0)%Q in
  let d := mkVec (b2q k_d - b2q k_a) (b2q k_s - b2q k_w) in
  let d1 := if Qeq_bool (length_squared d) 0 then d else normalize d in
  with_ent p
    (mkEntity (pos (p_ent p)) (vscale d1 (inject_Z (p_speed p)))
       (radius (p_ent p)) (rect (p_ent p))).

(** [Player.aim_dir(world_mouse)] *)
Definition aim_dir (p : Player) (world_mouse : Vector2) : Vector2 :=
  let v := vsub world_mouse (pos (p_ent p)) in
  if Qeq_bool (length_squared v) 0 then v else normalize v.

(** [Player.try_dash(camera, particles)] *)
Definition try_dash (p : Player) (c : Camera) (particles : list Particle) (r : R)
  : Player * Camera * list Particle * R :=
  if (dash_cd p <=? 0) && Qltb 0 (length_squared (vel (p_ent p)))
  then
    let e := p_ent p in
    let p1 := vadd (pos e) (vscale (normalize (vel e)) 140) in
    let e1 := mkEntity p1 (vel e) (radius e) (set_center (rect e) p1) in
    let pl :=
      mkPlayer e1 (p_speed p) (hp p) (max_hp p) (invuln p) 50
        (reload_time p) (weapon p) (ammo p) (mag p) (fire_cd p) (rpm p) in
    let '(parts, r') := burst 16 p1 4 18 ColWall particles r in
    (pl, Camera_shake c 6 5, parts, r')
  else (p, c, particles, r).
End PlayerMoves.

(* ------------------------------------------------------------------ *)
(** ** Enemy *)

Record Enemy := mkEnemy {
  e_ent : Entity;
  e_speed : Z;
  e_hp : Z;
  tier : Z
}.

Definition Enemy_init (p : Vector2) (t : Z) : Enemy :=
  mkEnemy (Entity_init p (20 + 3 * (t - 1))) (170 + 20 * (t - 1)) (40 + 20 * (t - 1)) t.

Section EnemyAI.
Context {M : MathLib}.

(** One probe of the wall avoidance: [avoid -= f * 200] when the probe
    box ahead in direction [f] touches a wall. *)
Definition probe (tm : TileMap) (p : Vector2) (avoid f : Vector2) : Vector2 :=
  let ahead := vadd p (vscale f 24) in
  let box := mkRect (py_int (vx ahead - 10)) (py_int (vy ahead - 10)) 20 20 in
  match rect_collide tm box with
  | [] => avoid
  | _ :: _ => vsub avoid (vscale f 200)
  end.

(** [Enemy.ai(player, tilemap)], which reads the player's position. *)
Definition ai (e : Enemy) (player_pos : Vector2) (tm : TileMap) : Enemy :=
  let en := e_ent e in
  let desired := vsub player_pos (pos en) in
  let d := if Qeq_bool (vlength desired) 0 then (1 # 10000)%Q else vlength desired in
  let desired1 := vscale desired (/ d) in
  let steer := vscale desired1 (inject_Z (e_speed e)) in
  let feel := [mkVec 1 0; mkVec (-1) 0; mkVec 0 1; mkVec 0 (-1)] in
  let avoid := fold_left (probe tm (pos en)) feel (mkVec 0 0) in
  let v := vadd steer avoid in
  let v1 :=
    if Qltb (inject_Z (e_speed e)) (vlength v)
    then vscale v (inject_Z (e_speed e) / vlength v)
    else v in
  mkEnemy (mkEntity (pos en) v1 (radius en) (rect en)) (e_speed e) (e_hp e) (tier e).
End EnemyAI.

(* ------------------------------------------------------------------ *)
(** ** Game *)

(** How a call ends: with a value, with a Python exception, or (for the
    unbounded [while True] of [spawn_wave]) with the iteration budget of
    the model used up. *)
Inductive outcome (A : Type) : Type :=
| Done (a : A)
| Raised
| OutOfFuel.
Arguments Done {A} a.
Arguments Raised {A}.
Arguments OutOfFuel {A}.

Record Game (R : Type) := mkGame {
  the_map : TileMap;
  player : Player;
  camera : Camera;
  enemies : list Enemy;
  bullets : list Bullet;
  particles : list Particle;
  wave : Z;
  score : Z;
  paused : bool;
  game_over : bool;
  rng : R
}.
Arguments mkGame {R}.
Arguments the_map {R}.
Arguments player {R}.
Arguments camera {R}.
Arguments enemies {R}.
Arguments bullets {R}.
Arguments particles {R}.
Arguments wave {R}.
Arguments score {R}.
Arguments paused {R}.
Arguments game_over {R}.
Arguments rng {R}.

Section GameOps.
Context {M : MathLib} {R : Type} {RS : RandomSource R}.

Definition with_player (g : Game R) (p : Player) : Game R :=
  mkGame (the_map g) p (camera g) (enemies g) (bullets g) (particles g)
    (wave g) (score g) (paused g) (game_over g) (rng g).

(** *** Wave director *)

(** The tier of one spawn: [1 if wave < 3 else (2 if random() < 0.6 else 3)]. *)
Definition pick_tier (wv : Z) (r : R) : Z * R :=
  if wv <? 3 then (1, r)
  else
    let '(u, r') := random r in
    (if Qltb u (6 # 10) then 2 else 3, r').

(** The cell centre of grid cell [(x, y)] in world units. *)
Definition cell_centre (x y : Z) : Vector2 :=
  mkVec (inject_Z (x * TILE + TILE / 2)) (inject_Z (y * TILE + TILE / 2)).

(** The [while True] loop of [spawn_wave], at most [fuel] iterations.
    [randint(a, b)] raises [ValueError] on an empty range. *)
Fixpoint sample_pos (fuel : nat) (tm : TileMap) (ppos : Vector2) (r : R)
  : outcome (Vector2 * R) :=
  match fuel with
  | O => OutOfFuel
  | S k =>
      if tm_w tm - 2 <? 1 then Raised else
      let '(x, r1) := randint 1 (tm_w tm - 2) r in
      if tm_h tm - 2 <? 1 then Raised else
      let '(y, r2) := randint 1 (tm_h tm - 2) r1 in
      match grid_get (grid tm) x y with
      | None => Raised
      | Some c =>
          if c =? 0
          then
            let p := cell_centre x y in
            if Qltb 380 (vlength (vsub p ppos))
            then Done (p, r2)
            else sample_pos k tm ppos r2
          else sample_pos k tm ppos r2
      end
  end.

(** The [for _ in range(n)] loop of [spawn_wave]. *)
Fixpoint spawn_loop (fuel n : nat) (wv : Z) (tm : TileMap) (ppos : Vector2)
  (es : list Enemy) (r : R) : outcome (list Enemy * R) :=
  match n with
  | O => Done (es, r)
  | S k =>
      let '(t, r1) := pick_tier wv r in
      match sample_pos fuel tm ppos r1 with
      | Done (p, r2) => spawn_loop fuel k wv tm ppos (es ++ [Enemy_init p t]) r2
      | Raised => Raised
      | OutOfFuel => OutOfFuel
      end
  end.

(** [Game.spawn_wave()] *)
Definition spawn_wave (fuel : nat) (g : Game R) : outcome (Game R) :=
  let wave1 := wave g + 1 in
  let n := 6 + wave1 * 2 in
  match spawn_loop fuel (Z.to_nat n) wave1 (the_map g)
          (pos (p_ent (player g))) (enemies g) (rng g) with
  | Done (es, r) =>
      Done (mkGame (the_map g) (player g) (camera g) es (bullets g)
              (particles g) wave1 (score g) (paused g) (game_over g) r)
  | Raised => Raised
  | OutOfFuel => OutOfFuel
  end.

(** The check at the end of a tick:
    [if len(self.enemies) == 0: self.spawn_wave()]. *)
Definition next_wave (fuel : nat) (g : Game R) : outcome (Game R) :=
  if (Z.of_nat (length (enemies g)) =? 0) then spawn_wave fuel g else Done g.

(** *** The draws behind a wave

    The placement loop in terms of the generator alone: which cell each
    pass draws, which passes are turned down, and which generator state
    every spawn starts from. *)

(** The cell one pass of the placement loop draws: [x] first, then [y]. *)
Definition draw_cell (tm : TileMap) (r : R) : Z * Z * R :=
  let '(x, r1) := randint 1 (tm_w tm - 2) r in
  let '(y, r2) := randint 1 (tm_h tm - 2) r1 in
  (x, y, r2).

(** The world position of the middle of cell [(x, y)], tiles being 48
    units wide. *)
Definition middle (x y : Z) : Vector2 :=
  mkVec (inject_Z (x * 48 + 24)) (inject_Z (y * 48 + 24)).

(** Cell [(x, y)] is open and its middle is more than 380 units from
    [ppos]. *)
Definition acceptable (tm : TileMap) (ppos : Vector2) (x y : Z) : Prop :=
  grid_get (grid tm) x y = Some 0 /\
  (380 < vlength (vsub (middle x y) ppos))%Q.

(** Cell [(x, y)] is a cell of the grid that is solid, or too close. *)
Definition turned_down (tm : TileMap) (ppos : Vector2) (x y : Z) : Prop :=
  exists c, grid_get (grid tm) x y = Some c /\
            (c <> 0 \/ (vlength (vsub (middle x y) ppos) <= 380)%Q).

(** [placed tm ppos k r x y r']: starting from generator [r], the first
    [k] passes draw cells that are turned down, pass [k] draws the
    acceptable cell [(x, y)], and the generator is then [r']. *)
Inductive placed (tm : TileMap) (ppos : Vector2)
  : nat -> R -> Z -> Z -> R -> Prop :=
| placed_now (r : R) (x y : Z) (r' : R) :
    draw_cell tm r = (x, y, r') -> acceptable tm ppos x y ->
    placed tm ppos 0 r x y r'
| placed_retry (k : nat) (r : R) (x0 y0 : Z) (r0 : R) (x y : Z) (r' : R) :
    draw_cell tm r = (x0, y0, r0) -> turned_down tm ppos x0 y0 ->
    placed tm ppos k r0 x y r' ->
    placed tm ppos (S k) r x y r'.

(** The tier of a spawn of wave [wv] that starts from generator [r], and
    the generator after deciding it: tier 1 without a draw below wave 3;
    from wave 3 on one [random()] draw, tier 2 if it is below 0.6 and
    tier 3 otherwise. *)
Definition tier_drawn (wv : Z) (r : R) (t : Z) (r' : R) : Prop :=
  (wv < 3 /\ t = 1 /\ r' = r) \/
  (3 <= wv /\ r' = snd (random r) /\
   (((fst (random r) < 6 # 10)%Q /\ t = 2) \/
    ((6 # 10 <= fst (random r))%Q /\ t = 3))).

(** [spawned wv tm ppos budget n r new r']: [n] spawns one after the
    other, the first starting from generator [r] and each next one from
    the generator the previous one left; every spawn decides its tier
    first and is then placed within [budget] passes of the placement loop;
    [new] lists the enemies in order and [r'] is the generator at the
    end. *)
Inductive spawned (wv : Z) (tm : TileMap) (ppos : Vector2) (budget : nat)
  : nat -> R -> list Enemy -> R -> Prop :=
| spawned_none (r : R) : spawned wv tm ppos budget 0 r [] r
| spawned_next (n : nat) (r : R) (t : Z) (ra : R) (k : nat) (x y : Z) (rb : R)
    (new : list Enemy) (r' : R) :
    tier_drawn wv r t ra ->
    (k < budget)%nat -> placed tm ppos k ra x y rb ->
    spawned wv tm ppos budget n rb new r' ->
    spawned wv tm ppos budget (S n) r (Enemy_init (middle x y) t :: new) r'.

(** What [spawn_wave] guarantees about one spawned enemy. *)
Definition well_spawned (g : Game R) (wv : Z) (e : Enemy) : Prop :=
  (exists rr, tier e = fst (pick_tier wv rr)) /\
  exists x y,
    1 <= x <= tm_w (the_map g) - 2 /\ 1 <= y <= tm_h (the_map g) - 2 /\
    grid_get (grid (the_map g)) x y = Some 0 /\
    pos (e_ent e) = cell_centre x y /\
    (380 < vlength (vsub (pos (e_ent e)) (pos (p_ent (player g)))))%Q.

(** *** Shooting *)

(** The aim direction rotated by [spread] radians. *)
Definition rotate (dir : Vector2) (spread : Q) : Vector2 :=
  mkVec (fcos spread * vx dir - fsin spread * vy dir)
        (fsin spread * vx dir + fcos spread * vy dir).

(** One shotgun pellet. *)
Definition pellet (muzzle dir : Vector2) (speed : Q) (r : R) : Bullet * R :=
  let '(spread, r') := uniform (- (22 # 100)) (22 # 100) r in
  (Bullet_init muzzle (vscale (vscale (rotate dir spread) speed) (9 # 10)) 50, r').

(** [max(1, int(60 / (rpm[w] / 60)))]: 7 for the rifle and 40 for the
    shotgun.  [rpm] is written by [Player.__init__] only (480 and 90), so
    the division is never by zero. *)
Definition fire_interval (p : Player) (w : Weapon) : Z :=
  Z.max 1 (py_int (60 / (inject_Z (pw_get (rpm p) w) / 60))).

(** [Game.shoot(world_mouse)] *)
Definition shoot (g : Game R) (world_mouse : Vector2) : Game R :=
  let p := player g in
  if (0 <? reload_time p) || (0 <? fire_cd p) then g
  else
    let w := weapon p in
    if pw_get (ammo p) w <=? 0 then g
    else
      let dir := aim_dir p world_mouse in
      let muzzle := vadd (pos (p_ent p)) (vscale dir 30) in
      let speed : Q := (match w with Rifle => 900 | Shotgun => 750 end)%Q in
      let '(new_bullets, r1) :=
        match w with
        | Rifle =>
            let '(spread, r') := uniform (- (4 # 100)) (4 # 100) (rng g) in
            ([Bullet_init muzzle (vscale (rotate dir spread) speed) 70], r')
        | Shotgun => repeat_gen 6 (pellet muzzle dir speed) (rng g)
        end in
      let p' :=
        mkPlayer (p_ent p) (p_speed p) (hp p) (max_hp p) (invuln p) (dash_cd p)
          (reload_time p) (weapon p)
          (pw_set (ammo p) w (pw_get (ammo p) w - 1)) (mag p)
          (fire_interval p w) (rpm p) in
      (* muzzle flash *)
      let '(parts, r2) :=
        burst (match w with Rifle => 8 | Shotgun => 16 end) muzzle 3 14 ColShot
          (particles g) r1 in
      let cam :=
        Camera_shake (camera g)
          (match w with Rifle => 5 | Shotgun => 8 end)
          (match w with Rifle => 6 | Shotgun => 9 end) in
      mkGame (the_map g) p' cam (enemies g) (bullets g ++ new_bullets) parts
        (wave g) (score g) (paused g) (game_over g) r2.

(** *** Bullet versus enemy *)

(** What the inner loop [for b in list(self.bullets)] leaves behind for
    one enemy [e]. *)
Record HitResult := mkHit {
  h_enemy : Enemy;              (* [e], with its hit points updated *)
  h_killed : bool;              (* [e.kill()] was called *)
  h_bullets : list Bullet;      (* the bullets still in the group *)
  h_particles : list Particle;
  h_score : Z;
  h_rng : R
}.

(** [for b in bs: if e.rect.colliderect(b.rect): ...] for the snapshot
    [bs] of the bullet group. *)
Fixpoint enemy_vs_bullets (bs : list Bullet) (e : Enemy) (killed : bool)
  (parts : list Particle) (sc : Z) (r : R) : HitResult :=
  match bs with
  | [] => mkHit e killed [] parts sc r
  | b :: rest =>
      if colliderect (rect (e_ent e)) (b_rect b)
      then
        let e1 := mkEnemy (e_ent e) (e_speed e) (e_hp e - 20) (tier e) in
        (* b.kill(): [b] is not kept *)
        let '(parts1, r1) := burst 10 (pos (e_ent e)) 4 16 ColBullet parts r in
        if e_hp e1 <=? 0
        then
          let sc1 := sc + 10 * tier e1 in
          let '(parts2, r2) := burst 18 (pos (e_ent e)) 5 20 ColEnemy1 parts1 r1 in
          (* e.kill() *)
          enemy_vs_bullets rest e1 true parts2 sc1 r2
        else enemy_vs_bullets rest e1 killed parts1 sc r1
      else
        let h := enemy_vs_bullets rest e killed parts sc r in
        mkHit (h_enemy h) (h_killed h) (b :: h_bullets h) (h_particles h)
          (h_score h) (h_rng h)
  end.

(** What the whole [for e in list(self.enemies)] loop leaves behind:
    every enemy of the snapshot with its final hit points and whether it
    was killed, and the rest of the state. *)
Record PhaseResult := mkPhase {
  ph_enemies : list (Enemy * bool);
  ph_bullets : list Bullet;
  ph_particles : list Particle;
  ph_score : Z;
  ph_rng : R
}.

Fixpoint enemies_vs_bullets (es : list Enemy) (bs : list Bullet)
  (parts : list Particle) (sc : Z) (r : R) : PhaseResult :=
  match es with
  | [] => mkPhase [] bs parts sc r
  | e :: rest =>
      (* the inner loop runs over [list(self.bullets)] as it is now *)
      let h := enemy_vs_bullets bs e false parts sc r in
      let ph := enemies_vs_bullets rest (h_bullets h) (h_particles h) (h_score h) (h_rng h) in
      mkPhase ((h_enemy h, h_killed h) :: ph_enemies ph) (ph_bullets ph)
        (ph_particles ph) (ph_score ph) (ph_rng ph)
  end.

(** The members left in the enemy group after the phase. *)
Definition survivors (l : list (Enemy * bool)) : list Enemy :=
  map fst (filter (fun eb => negb (snd eb)) l).

(** The [# bullet vs enemy] block of [Game.run]. *)
Definition bullet_vs_enemy (g : Game R) : Game R :=
  let ph := enemies_vs_bullets (enemies g) (bullets g) (particles g) (score g) (rng g) in
  mkGame (the_map g) (player g) (camera g) (survivors (ph_enemies ph))
    (ph_bullets ph) (ph_particles ph) (wave g) (ph_score ph)
    (paused g) (game_over g) (ph_rng ph).
End GameOps.

(* ------------------------------------------------------------------ *)
(** ** Which enemy a bullet meets *)

(** [e.rect.colliderect(b.rect)] *)
Definition overlaps (e : Enemy) (b : Bullet) : bool :=
  colliderect (rect (e_ent e)) (b_rect b).

(** The position in [es] of the first enemy that bullet [b] overlaps. *)
Fixpoint first_hit (es : list Enemy) (b : Bullet) : option nat :=
  match es with
  | [] => None
  | e :: rest => if overlaps e b then Some O else option_map S (first_hit rest b)
  end.

(** Is the [i]-th enemy of [es] the first one that [b] overlaps? *)
Definition is_target (es : list Enemy) (i : nat) (b : Bullet) : bool :=
  match first_hit es b with
  | Some j => Nat.eqb i j
  | None => false
  end.

(** How many bullets of [bs] have the [i]-th enemy of [es] as their target. *)
Definition hits_on (es : list Enemy) (bs : list Bullet) (i : nat) : Z :=
  Z.of_nat (length (filter (is_target es i) bs)).

(* ------------------------------------------------------------------ *)
(** ** One iteration of [Game.run] *)

Inductive Key := K_ESCAPE | K_SPACE | K_r | K_q | K_F11 | K_other.

(** The events the loop reacts to ([QUIT] ends the process and F11 only
    changes the display mode). *)
Inductive Event := KeyDown (k : Key) | MouseButtonDown (button : Z) | OtherEvent.

(** What the platform reports for one frame. *)
Record Input := mkInput {
  events : list Event;
  key_d : bool;
  key_a : bool;
  key_s : bool;
  key_w : bool;
  mouse_held : bool;     (* [pygame.mouse.get_pressed()[0]] *)
  mouse_pos : Vector2;   (* [pygame.mouse.get_pos()] *)
  dt : Z                 (* [self.clock.tick(FPS)], milliseconds *)
}.

Section Tick.
Context {M : MathLib} {R : Type} {RS : RandomSource R}.

Definition handle_event (mouse : Vector2) (g : Game R) (ev : Event) : Game R :=
  let active := negb (paused g) && negb (game_over g) in
  match ev with
  | KeyDown K_ESCAPE =>
      mkGame (the_map g) (player g) (camera g) (enemies g) (bullets g)
        (particles g) (wave g) (score g) (negb (paused g)) (game_over g) (rng g)
  | KeyDown K_SPACE =>
      if active
      then
        let '(p, c, parts, r) := try_dash (player g) (camera g) (particles g) (rng g) in
        mkGame (the_map g) p c (enemies g) (bullets g) parts
          (wave g) (score g) (paused g) (game_over g) r
      else g
  | KeyDown K_r => if active then with_player g (reload (player g)) else g
  | KeyDown K_q => if active then with_player g (switch_weapon (player g)) else g
  | KeyDown _ => g
  | MouseButtonDown b =>
      if (b =? 1) && active then shoot g (screen_to_world (camera g) mouse) else g
  | OtherEvent => g
  end.

(** The body of [for e in list(self.enemies)] in the [# enemies] block;
    the moved enemy is appended to [done]. *)
Definition enemy_step (dt_ms : Z) (tm : TileMap)
  (st : Player * Camera * list Particle * R * list Enemy) (e : Enemy)
  : Player * Camera * list Particle * R * list Enemy :=
  let '(p, c, parts, r, done) := st in
  let e1 := ai e (pos (p_ent p)) tm in
  let e2 :=
    mkEnemy (collide_move (inject_Z dt_ms / 1000) tm (e_ent e1))
      (e_speed e1) (e_hp e1) (tier e1) in
  if colliderect (rect (e_ent e2)) (rect (p_ent p))
  then
    let '(parts1, r1) := burst 12 (pos (p_ent p)) 3 18 ColDanger parts r in
    (damage p 12, Camera_shake c 8 7, parts1, r1, done ++ [e2])
  else (p, c, parts, r, done ++ [e2]).

(** Updated members that stay in their group. *)
Definition keep_alive {A : Type} (l : list (A * bool)) : list A :=
  map fst (filter snd l).

(** The block under [if not self.paused and not self.game_over], up to
    and including the particle update. *)
Definition simulate (inp : Input) (g : Game R) : Game R :=
  let p1 :=
    update_cooldowns
      (Player_input (player g) (key_d inp) (key_a inp) (key_s inp) (key_w inp)) in
  let g1 := with_player g p1 in
  (* continuous fire *)
  let g2 :=
    if mouse_held inp
    then shoot g1 (screen_to_world (camera g1) (mouse_pos inp))
    else g1 in
  (* move *)
  let tm := the_map g2 in
  let p2 :=
    with_ent (player g2)
      (collide_move (inject_Z (dt inp) / 1000) tm (p_ent (player g2))) in
  (* bullets *)
  let bs := keep_alive (map (Bullet_update (dt inp) tm) (bullets g2)) in
  (* enemies *)
  let '(p3, c3, parts3, r3, es3) :=
    fold_left (enemy_step (dt inp) tm) (enemies g2)
      (p2, camera g2, particles g2, rng g2, []) in
  (* bullet vs enemy *)
  let g4 :=
    bullet_vs_enemy
      (mkGame tm p3 c3 es3 bs parts3 (wave g2) (score g2)
         (paused g2) (game_over g2) r3) in
  (* particles *)
  let parts5 := keep_alive (map Particle_update (particles g4)) in
  mkGame tm (player g4) (camera g4) (enemies g4) (bullets g4) parts5
    (wave g4) (score g4) (paused g4) (game_over g4) (rng g4).

(** The rest of the block: next wave, death, camera. *)
Definition update (fuel : nat) (inp : Input) (g : Game R) : outcome (Game R) :=
  match next_wave fuel (simulate inp g) with
  | Done g6 =>
      Done
        (mkGame (the_map g6) (player g6)
           (Camera_update (camera g6) (pos (p_ent (player g6))))
           (enemies g6) (bullets g6) (particles g6) (wave g6) (score g6)
           (paused g6)
           (if hp (player g6) <=? 0 then true else game_over g6)
           (rng g6))
  | Raised => Raised
  | OutOfFuel => OutOfFuel
  end.

(** One iteration of the [while True] loop, drawing apart. *)
Definition frame (fuel : nat) (inp : Input) (g : Game R) : outcome (Game R) :=
  let g1 := fold_left (handle_event (mouse_pos inp)) (events inp) g in
  if negb (paused g1) && negb (game_over g1)
  then update fuel inp g1
  else Done g1.
End Tick.

Section GameInit.
Context {M : MathLib} {R : Type} {RS : RandomSource R}.

(** [Game()] without the window, the clock and the font. *)
Definition Game_init (fuel : nat) (r : R) : outcome (Game R) :=
  let '(tm, r1) := TileMap_init MAP_W MAP_H TILE r in
  let p :=
    Player_init
      (mkVec (inject_Z (tm_w tm * TILE / 2)) (inject_Z (tm_h tm * TILE / 2))) in
  spawn_wave fuel (mkGame tm p Camera_init [] [] [] 0 0 false false r1).
End GameInit.

(* ------------------------------------------------------------------ *)
(** ** Concrete libraries, for running the model *)

(** A linear congruential generator as the random source. *)
Definition lcg_next (s : Z) : Z := (s * 1103515245 + 12345) mod 2147483648.

#[export] Instance lcg : RandomSource Z := {
  random s := (Qmake (s mod 1000) 1000, lcg_next s);
  randint a b s := (a + s mod (b - a + 1), lcg_next s)
}.

(** A source whose every draw is the lowest one. *)
#[export] Instance lowest : RandomSource unit := {
  random s := (0%Q, s);
  randint a b s := (a, s)
}.

(** A coarse arithmetic library: square roots through the integer square
    root at a resolution of 1/1024, the trigonometric functions through
    their first Taylor terms. *)
#[export] Instance coarse_math : MathLib := {
  fsqrt q := Qmake (Z.sqrt (Qnum q * 1048576 / Zpos (Qden q))) 1024;
  fcos x := (1 - x * x / 2)%Q;
  fsin x := x
}.

(** Is the [bw] x [bh] block of cells with top-left cell [(x0, y0)] open? *)
Definition block_open (g : list (list Z)) (x0 y0 bw bh : Z) : bool :=
  forallb
    (fun y => forallb
       (fun x => match grid_get g x y with Some 0 => true | _ => false end)
       (range x0 (x0 + bw)))
    (range y0 (y0 + bh)).

(** Does a [w] x [h] grid hold a fully open [bw] x [bh] block anywhere? *)
Definition has_open_block (g : list (list Z)) (w h bw bh : Z) : bool :=
  existsb
    (fun y0 => existsb (fun x0 => block_open g x0 y0 bw bh) (range 0 (w - bw + 1)))
    (range 0 (h - bh + 1)).


(* ------------------------------------------------------------------ *)
(** ** Auxiliary notions for the properties of the rest of the code *)

(** The offset [Camera.update] steers to: the target centred on screen. *)
Definition desired_offset (target_pos : Vector2) : Vector2 :=
  vsub target_pos (mkVec (inject_Z SCREEN_W / 2) (inject_Z SCREEN_H / 2)).

Fixpoint qpow (q : Q) (n : nat) : Q :=
  match n with
  | O => 1%Q
  | S k => (q * qpow q k)%Q
  end.

(** A timer that [update_cooldowns] counts down while it is positive,
    [k] ticks after it stood at [x]. *)
Definition run_down (x : Z) (k : nat) : Z := Z.min x (Z.max 0 (x - Z.of_nat k)).

(** The player after an accepted [shoot]. *)
Definition fired (p : Player) : Player :=
  mkPlayer (p_ent p) (p_speed p) (hp p) (max_hp p) (invuln p) (dash_cd p)
    (reload_time p) (weapon p)
    (pw_set (ammo p) (weapon p) (pw_get (ammo p) (weapon p) - 1)) (mag p)
    (Z.max 1 (py_int (60 / (inject_Z (pw_get (rpm p) (weapon p)) / 60))))
    (rpm p).

(** Is column [c] inside one of the runs? *)
Definition covered (runs : list (Z * Z)) (c : Z) : bool :=
  existsb (fun se => (fst se <=? c) && (c <? snd se)) runs.

(** The wall rectangle of the run [se = (start, stop)] in row [y], as
    [rebuild_wall_rects] builds it. *)
Definition run_rect (y : Z) (se : Z * Z) : Rect :=
  mkRect (fst se * TILE) (y * TILE) ((snd se - fst se) * TILE) TILE.

(** A rectangle of positive size that lies within the tile of cell
    [(x, y)]. *)
Definition inside_cell (r : Rect) (x y : Z) : Prop :=
  0 < rw r /\ 0 < rh r /\
  x * TILE <= rx r /\ rx r + rw r <= x * TILE + TILE /\
  y * TILE <= ry r /\ ry r + rh r <= y * TILE + TILE.

(** The tile of cell [(x, y)]. *)
Definition cell_rect (x y : Z) : Rect := mkRect (x * TILE) (y * TILE) TILE TILE.

(** The solid cells of a row as its runs see them. *)
Definition solid_at (cells : list Z) (x c : Z) : bool :=
  (x <=? c) &&
  match nth_error cells (Z.to_nat (c - x)) with
  | Some v => v =? 1
  | None => false
  end.


(** The player's bookkeeping is sound: every magazine holds between 0
    rounds and its capacity, and no timer is negative. *)
Definition player_ok (p : Player) : Prop :=
  (forall w, 0 <= pw_get (ammo p) w <= pw_get (mag p) w) /\
  0 <= invuln p /\ 0 <= dash_cd p /\ 0 <= reload_time p /\ 0 <= fire_cd p.

(** The same game with the pause flag set to [b]. *)
Definition set_paused {R : Type} (g : Game R) (b : bool) : Game R :=
  mkGame (the_map g) (player g) (camera g) (enemies g) (bullets g)
    (particles g) (wave g) (score g) b (game_over g) (rng g).

(** [p'] is as sound as [p] was and has the same magazine capacities. *)
Definition kept (p p' : Player) : Prop :=
  (player_ok p -> player_ok p') /\ mag p' = mag p.

(** [n] successive calls of [Bullet.update] on a bullet, as long as it
    stays in its group; [None] once it has been removed. *)
Fixpoint Bullet_updates (n : nat) (dt : Z) (tm : TileMap) (b : Bullet) : option Bullet :=
  match n with
  | O => Some b
  | S k =>
      let '(b', alive) := Bullet_update dt tm b in
      if alive then Bullet_updates k dt tm b' else None
  end.
(* ------------------------------------------------------------------ *)
(** ** Sample states *)

(** A game at rest: a fresh player in an empty arena, nothing moving. *)
Definition empty_map : TileMap := mkTileMap 0 0 TILE [] [].

Definition idle_game (p : Player) (seed : Z) : Game Z :=
  mkGame empty_map p Camera_init [] [] [] 1 0 false false seed.

(** A fresh player whose rifle magazine is empty and who is reloading. *)
Definition reloading_player : Player :=
  mkPlayer (Entity_init (mkVec 100 100) 22) 320 150 150 0 0 48 Rifle
    (mkPerWeapon 0 8) (mkPerWeapon 30 8) 0 (mkPerWeapon 480 90).

Definition shotgun_player : Player :=
  switch_weapon (Player_init (mkVec 100 100)).


(** A camera in the middle of the arena, at rest and shaking. *)
Definition still_camera : Camera := mkCamera (mkVec (1024 # 3) (-77 # 2)) 0 6.
Definition shaking_camera : Camera := mkCamera (mkVec (1024 # 3) (-77 # 2)) 5 6.

(** A player with ten rifle rounds left. *)
Definition low_rifle_player : Player :=
  mkPlayer (Entity_init (mkVec 100 100) 22) 320 150 150 0 0 0 Rifle
    (mkPerWeapon 10 3) (mkPerWeapon 30 8) 0 (mkPerWeapon 480 90).

(** The arena a generator of lowest draws produces: every interior cell
    outside the plaza is a wall. *)
Definition walled_arena : TileMap := fst (TileMap_init MAP_W MAP_H TILE tt).

(** A player-sized entity at [p] with velocity [v]. *)
Definition mover (p v : Vector2) : Entity :=
  mkEntity p v 22 (rect_centered 44 44 p).

(** A small arena whose walls form a step: the wall of row 1 starts one
    tile to the left of the wall of row 2. *)
Definition staircase_map : TileMap :=
  rebuild_wall_rects
    (mkTileMap 6 5 TILE
       [ [1; 1; 1; 1; 1; 1];
         [1; 0; 0; 1; 0; 1];
         [1; 0; 0; 0; 1; 1];
         [1; 0; 0; 0; 0; 1];
         [1; 1; 1; 1; 1; 1] ] []).

(** Two fresh tier-1 enemies standing on the same spot and one bullet
    inside both. *)
Definition twin_enemies : list Enemy :=
  [Enemy_init (mkVec 1000 1000) 1; Enemy_init (mkVec 1010 1000) 1].

Definition lone_bullet : Bullet := Bullet_init (mkVec 1005 1000) (mkVec 900 0) 70.

(** A fresh tier-1 enemy (40 hit points) with three bullets inside it, as
    after a shotgun blast at close range. *)
Definition overkill_game : Game Z :=
  mkGame empty_map (Player_init (mkVec 100 100)) Camera_init
    [Enemy_init (mkVec 1000 1000) 1]
    [Bullet_init (mkVec 1000 1000) (mkVec 675 0) 50;
     Bullet_init (mkVec 1002 1001) (mkVec 675 10) 50;
     Bullet_init (mkVec 1001 998) (mkVec 675 (-10)) 50]
    [] 1 0 false false 7.

(** An arena from the linear congruential generator, and a session about
    to spawn its first wave in it. *)
Definition lcg_arena : TileMap := fst (TileMap_init MAP_W MAP_H TILE (1 : Z)).

Definition opening_game : Game Z :=
  mkGame lcg_arena (Player_init (mkVec 1152 720)) Camera_init [] [] []
    0 0 false false 2024.

(** The session after [spawn_wave], run with 200 iterations for each
    position. *)
Definition first_wave_game : Game Z :=
  match spawn_wave 200 opening_game with
  | Done g => g
  | _ => opening_game
  end.

(** A session about to spawn its third wave, whose draws turn some
    cells down, and the session after that wave, run with three passes
    for each position. *)
Definition third_wave_game : Game Z :=
  mkGame lcg_arena (Player_init (mkVec 1152 720)) Camera_init [] [] []
    2 0 false false 2026.

Definition third_wave_spawned : Game Z :=
  match spawn_wave 3 third_wave_game with
  | Done g => g
  | _ => third_wave_game
  end.

(** A frame with no key held and no event. *)
Definition quiet_input : Input :=
  mkInput [] false false false false false (mkVec 640 360) 16.

(** A player running to the right from (-39.5, -39.25). *)
Definition running_player : Player :=
  with_ent (Player_init (mkVec 100 100))
    (mkEntity (mkVec (-79 # 2) (-157 # 4)) (mkVec 320 0) 22
       (rect_centered 44 44 (mkVec (-79 # 2) (-157 # 4)))).

(** A frame in which the fire button is held and three keys are pressed. *)
Definition busy_input : Input :=
  mkInput [KeyDown K_q; MouseButtonDown 1; KeyDown K_r]
    true false false false true (mkVec 700 300) 16.

(** A paused session and a finished one. *)
Definition paused_game : Game Z := set_paused first_wave_game true.

Definition finished_game : Game Z :=
  mkGame lcg_arena (Player_init (mkVec 1152 720)) Camera_init
    (enemies first_wave_game) [] [] 1 0 false true 99.

(** The session [Game()] builds from seed 1. *)
Definition started_game : Game Z :=
  match Game_init 200 (1 : Z) with
  | Done g => g
  | _ => opening_game
  end.

(** A camera whose offset has few binary digits, a camera at offset
    (1, 0), and the double nearest to 0.1. *)
Definition dyadic_camera : Camera := mkCamera (mkVec (513 # 4) (-40)) 0 0.

Definition unit_camera : Camera := mkCamera (mkVec 1 0) 0 0.

Definition tenth : Q := round64 (1 # 10).
(* ================================================================== *)
(** * Properties *)

(* ------------------------------------------------------------------ *)
(** ** Arithmetic and list facts *)

Lemma Qltb_lt (a b : Q) : Qltb a b = true <-> (a < b)%Q.
Proof.
  unfold Qltb. rewrite negb_true_iff. split; intro H.
  - apply Qnot_le_lt. intro Hle. apply Qle_bool_iff in Hle. congruence.
  - destruct (Qle_bool b a) eqn:E; [|reflexivity].
    apply Qle_bool_iff in E. exfalso. exact (Qlt_not_le _ _ H E).
Qed.

Lemma Qltb_irrefl_eq (a b : Q) : (a == b)%Q -> Qltb b a = false.
Proof.
  intro H. unfold Qltb. apply negb_false_iff. apply Qle_bool_iff.
  rewrite H. apply Qle_refl.
Qed.

Lemma length_squared_zero (v : Vector2) :
  veq v (mkVec 0 0) -> (length_squared v == 0)%Q.
Proof.
  intros [Hx Hy]. unfold length_squared. simpl in Hx, Hy.
  rewrite Hx, Hy. reflexivity.
Qed.

Lemma pw_get_set_same (d : PerWeapon) (w : Weapon) (v : Z) :
  pw_get (pw_set d w v) w = v.
Proof. destruct w; reflexivity. Qed.

Lemma pw_get_set_other (d : PerWeapon) (w : Weapon) (v : Z) :
  pw_get (pw_set d w v) (other_weapon w) = pw_get d (other_weapon w).
Proof. destruct w; reflexivity. Qed.

Section GeneratorFacts.
Context {R : Type} {RS : RandomSource R}.

Lemma repeat_gen_length {A : Type} (n : nat) (gen : R -> A * R) (r : R) :
  length (fst (repeat_gen n gen r)) = n.
Proof.
  revert r. induction n as [|n IH]; intro r; simpl.
  - reflexivity.
  - destruct (gen r) as [a r1]. specialize (IH r1).
    destruct (repeat_gen n gen r1) as [l r2]. simpl in *. now rewrite IH.
Qed.

Lemma skip_succ (n : nat) (r : R) : skip (S n) r = snd (random (skip n r)).
Proof.
  revert r. induction n as [|n IH]; intro r.
  - reflexivity.
  - change (skip (S (S n)) r) with (skip (S n) (snd (random r))).
    rewrite IH. reflexivity.
Qed.
End GeneratorFacts.

(* ------------------------------------------------------------------ *)
(** ** Player: damage *)

(** C7.  [Player.damage(amt)]: while the invulnerability timer is positive
    the player is returned unchanged, every field included; when the timer
    is 0 the hit points drop by exactly [amt], the timer becomes 25 and
    every other field keeps its value. *)
Theorem damage_invulnerability_frame (p : Player) (amt : Z) :
  (0 < invuln p -> damage p amt = p) /\
  (invuln p = 0 ->
     damage p amt =
       mkPlayer (p_ent p) (p_speed p) (hp p - amt) (max_hp p) 25 (dash_cd p)
         (reload_time p) (weapon p) (ammo p) (mag p) (fire_cd p) (rpm p)).
Proof.
  unfold damage. split; intro H.
  - apply Z.ltb_lt in H. now rewrite H.
  - rewrite H. reflexivity.
Qed.

Lemma damage_invulnerability_frame_witness :
  let hurt := damage (Player_init (mkVec 100 100)) 12 in
  hp hurt = 138 /\ invuln hurt = 25 /\ damage hurt 12 = hurt.
Proof.
  split; [|split].
  - rewrite (proj2 (damage_invulnerability_frame (Player_init (mkVec 100 100)) 12));
      reflexivity.
  - rewrite (proj2 (damage_invulnerability_frame (Player_init (mkVec 100 100)) 12));
      reflexivity.
  - apply (proj1 (damage_invulnerability_frame
                    (damage (Player_init (mkVec 100 100)) 12) 12)).
    reflexivity.
Defined.

(* ------------------------------------------------------------------ *)
(** ** Rejected actions *)

Section Rejections.
Context {M : MathLib} {R : Type} {RS : RandomSource R}.

Lemma shoot_rejected (g : Game R) (world_mouse : Vector2) :
  pw_get (ammo (player g)) (weapon (player g)) = 0 \/
  0 < reload_time (player g) \/ 0 < fire_cd (player g) ->
  shoot g world_mouse = g.
Proof.
  intros H. unfold shoot.
  destruct (0 <? reload_time (player g)) eqn:Er; [reflexivity|].
  destruct (0 <? fire_cd (player g)) eqn:Ef; [reflexivity|].
  simpl. apply Z.ltb_ge in Er. apply Z.ltb_ge in Ef.
  destruct H as [H | [H | H]]; try lia.
  rewrite H. reflexivity.
Qed.

Lemma reload_rejected (p : Player) :
  pw_get (ammo p) (weapon p) = pw_get (mag p) (weapon p) \/ 0 < reload_time p ->
  reload p = p.
Proof.
  intros H. unfold reload.
  destruct (reload_time p <=? 0) eqn:Er; [|reflexivity].
  apply Z.leb_le in Er.
  destruct H as [H | H]; [|lia].
  rewrite H, Z.ltb_irrefl. reflexivity.
Qed.

Lemma try_dash_rejected (p : Player) (c : Camera) (parts : list Particle) (r : R) :
  veq (vel (p_ent p)) (mkVec 0 0) \/ 0 < dash_cd p ->
  try_dash p c parts r = (p, c, parts, r).
Proof.
  intros H. unfold try_dash.
  destruct (dash_cd p <=? 0) eqn:Ed; [|reflexivity].
  apply Z.leb_le in Ed.
  destruct H as [H | H]; [|lia].
  rewrite (Qltb_irrefl_eq _ _ (length_squared_zero _ H)). reflexivity.
Qed.

(** C6.  A rejected request leaves the whole game state as it was, the
    generator included: firing with an empty magazine, or while the reload
    timer or the fire cooldown is running; reloading with a full magazine
    or while a reload is running; dashing with zero velocity or while the
    dash cooldown is running.  Stated for the operations and for the
    events that request them. *)
Theorem rejected_actions_are_noops (g : Game R) (mouse : Vector2) :
  (pw_get (ammo (player g)) (weapon (player g)) = 0 \/
   0 < reload_time (player g) \/ 0 < fire_cd (player g) ->
     shoot g (screen_to_world (camera g) mouse) = g /\
     handle_event mouse g (MouseButtonDown 1) = g) /\
  (pw_get (ammo (player g)) (weapon (player g))
     = pw_get (mag (player g)) (weapon (player g)) \/
   0 < reload_time (player g) ->
     reload (player g) = player g /\
     handle_event mouse g (KeyDown K_r) = g) /\
  (veq (vel (p_ent (player g))) (mkVec 0 0) \/ 0 < dash_cd (player g) ->
     try_dash (player g) (camera g) (particles g) (rng g)
       = (player g, camera g, particles g, rng g) /\
     handle_event mouse g (KeyDown K_SPACE) = g).
Proof.
  split; [|split]; intro H.
  - pose proof (shoot_rejected g (screen_to_world (camera g) mouse) H) as E.
    split; [exact E|]. simpl. rewrite E.
    destruct (negb (paused g) && negb (game_over g)); reflexivity.
  - pose proof (reload_rejected (player g) H) as E.
    split; [exact E|]. simpl. rewrite E.
    destruct (negb (paused g) && negb (game_over g)); [|reflexivity].
    destruct g; reflexivity.
  - pose proof (try_dash_rejected (player g) (camera g) (particles g) (rng g) H) as E.
    split; [exact E|]. simpl. rewrite E.
    destruct (negb (paused g) && negb (game_over g)); [|reflexivity].
    destruct g; reflexivity.
Qed.
End Rejections.

Lemma rejected_actions_are_noops_witness :
  let g := idle_game reloading_player 7 in
  let g' := idle_game (Player_init (mkVec 100 100)) 7 in
  handle_event (mkVec 640 360) g (MouseButtonDown 1) = g /\
  handle_event (mkVec 640 360) g (KeyDown K_r) = g /\
  handle_event (mkVec 640 360) g' (KeyDown K_r) = g' /\
  handle_event (mkVec 640 360) g' (KeyDown K_SPACE) = g'.
Proof.
  pose proof (rejected_actions_are_noops (idle_game reloading_player 7) (mkVec 640 360))
    as [Hs [Hr Hd]].
  pose proof (rejected_actions_are_noops
                (idle_game (Player_init (mkVec 100 100)) 7) (mkVec 640 360))
    as [_ [Hr' Hd']].
  split; [|split; [|split]].
  - apply Hs. left. reflexivity.
  - apply Hr. right. reflexivity.
  - apply Hr'. left. reflexivity.
  - apply Hd'. left. split; reflexivity.
Defined.

(* ------------------------------------------------------------------ *)
(** ** Firing *)

Section Firing.
Context {M : MathLib} {R : Type} {RS : RandomSource R}.

Lemma fire_interval_pos (p : Player) (w : Weapon) : 0 < fire_interval p w.
Proof. unfold fire_interval. lia. Qed.

(** C3.  A fire call with ammunition in the active magazine and both
    timers at 0 appends exactly one bullet with the rifle and exactly six
    with the shotgun; the active magazine loses exactly one round, the
    other magazine none, and the fire cooldown is positive afterwards. *)
Theorem shoot_accepted (g : Game R) (world_mouse : Vector2) :
  0 < pw_get (ammo (player g)) (weapon (player g)) ->
  fire_cd (player g) = 0 ->
  reload_time (player g) = 0 ->
  let g' := shoot g world_mouse in
  let w := weapon (player g) in
  (exists new,
      bullets g' = bullets g ++ new /\
      length new = match w with Rifle => 1%nat | Shotgun => 6%nat end) /\
  pw_get (ammo (player g')) w = pw_get (ammo (player g)) w - 1 /\
  pw_get (ammo (player g')) (other_weapon w)
    = pw_get (ammo (player g)) (other_weapon w) /\
  weapon (player g') = w /\
  0 < fire_cd (player g').
Proof.
  intros Hammo Hcd Hrel. unfold shoot. rewrite Hcd, Hrel.
  cbn -[repeat_gen burst uniform pellet fire_interval aim_dir pw_get pw_set].
  destruct (pw_get (ammo (player g)) (weapon (player g)) <=? 0) eqn:E.
  { apply Z.leb_le in E. lia. }
  destruct (weapon (player g)) eqn:Ew.
  - destruct (uniform _ _ (rng g)) as [spread r1].
    destruct (burst 8 _ _ _ _ _ r1) as [parts r2].
    cbn -[fire_interval].
    repeat split.
    + eexists. split; reflexivity.
    + apply fire_interval_pos.
  - pose proof (repeat_gen_length 6
      (pellet (vadd (pos (p_ent (player g))) (vscale (aim_dir (player g) world_mouse) 30))
              (aim_dir (player g) world_mouse) 750) (rng g)) as Hlen.
    destruct (repeat_gen 6 _ (rng g)) as [pellets r1].
    destruct (burst 16 _ _ _ _ _ r1) as [parts r2].
    cbn -[fire_interval] in *.
    repeat split.
    + eexists. split; [reflexivity|exact Hlen].
    + apply fire_interval_pos.
Qed.
End Firing.

Lemma shoot_accepted_witness :
  Z.of_nat (length (bullets (shoot (idle_game (Player_init (mkVec 100 100)) 7) (mkVec 300 100)))) = 1 /\
  Z.of_nat (length (bullets (shoot (idle_game shotgun_player 7) (mkVec 300 100)))) = 6 /\
  pw_get (ammo (player (shoot (idle_game shotgun_player 7) (mkVec 300 100)))) Shotgun = 7.
Proof.
  assert (Hr := shoot_accepted (idle_game (Player_init (mkVec 100 100)) 7) (mkVec 300 100)).
  assert (Hs := shoot_accepted (idle_game shotgun_player 7) (mkVec 300 100)).
  destruct Hr as [[n1 [E1 L1]] _]; [reflexivity|reflexivity|reflexivity|].
  destruct Hs as [[n2 [E2 L2]] [A2 _]]; [reflexivity|reflexivity|reflexivity|].
  split; [|split].
  - rewrite E1, length_app, L1. reflexivity.
  - rewrite E2, length_app, L2. reflexivity.
  - exact A2.
Defined.

(* ------------------------------------------------------------------ *)
(** ** Camera *)

Lemma round64_eq (a b : Q) : (a == b)%Q -> round64 a = round64 b.
Proof.
  intro H. unfold round64. rewrite (Qred_complete a b H). reflexivity.
Qed.

Lemma add64_exact (a b s : Q) : (a + b == s)%Q -> is_double s -> (add64 a b == s)%Q.
Proof.
  intros H Hs. unfold add64. rewrite (round64_eq _ _ H). exact Hs.
Qed.

Lemma sub64_exact (a b : Q) : is_double (a - b) -> (sub64 a b == a - b)%Q.
Proof. intro H. exact H. Qed.

Lemma round_trip64 (p o : Q) :
  is_double p -> is_double (p - o) ->
  (add64 (add64 (sub64 p o) 0) o == p)%Q.
Proof.
  intros Hp Hd.
  assert (H1 : (add64 (sub64 p o) 0 == p - o)%Q).
  { apply add64_exact; [|exact Hd]. rewrite (sub64_exact _ _ Hd). ring. }
  apply add64_exact; [|exact Hp]. rewrite H1. ring.
Qed.

Section CameraFacts.
Context {R : Type} {RS : RandomSource R}.

Lemma Camera_jitter_still (c : Camera) (r : R) :
  shake_frames c = 0 -> Camera_jitter c r = (mkVec 0 0, r).
Proof. intro H. unfold Camera_jitter. rewrite H. reflexivity. Qed.

End CameraFacts.



(* ------------------------------------------------------------------ *)
(** ** The reload timer *)

Lemma update_cooldowns_pending (p : Player) :
  1 < reload_time p ->
  reload_time (update_cooldowns p) = reload_time p - 1 /\
  ammo (update_cooldowns p) = ammo p /\
  weapon (update_cooldowns p) = weapon p /\
  mag (update_cooldowns p) = mag p.
Proof.
  intro H. unfold update_cooldowns.
  destruct (0 <? reload_time p) eqn:E1; [|apply Z.ltb_ge in E1; lia].
  destruct (reload_time p - 1 <=? 0) eqn:E2; [apply Z.leb_le in E2; lia|].
  simpl. auto.
Qed.

Lemma update_cooldowns_refill (p : Player) :
  reload_time p = 1 ->
  reload_time (update_cooldowns p) = 0 /\
  ammo (update_cooldowns p) = pw_set (ammo p) (weapon p) (pw_get (mag p) (weapon p)) /\
  weapon (update_cooldowns p) = weapon p /\
  mag (update_cooldowns p) = mag p.
Proof.
  intro H. unfold update_cooldowns. rewrite H. simpl. auto.
Qed.

(** [k] ticks into a reload that needs more than [k] ticks. *)
Lemma reload_in_progress (k : nat) (p : Player) :
  Z.of_nat k < reload_time p ->
  let p' := Nat.iter k update_cooldowns p in
  reload_time p' = reload_time p - Z.of_nat k /\
  ammo p' = ammo p /\ weapon p' = weapon p /\ mag p' = mag p.
Proof.
  induction k as [|k IH]; intro H; cbn zeta.
  - simpl. repeat split. lia.
  - destruct IH as [Ht [Ha [Hw Hm]]]; [lia|].
    change (Nat.iter (S k) update_cooldowns p)
      with (update_cooldowns (Nat.iter k update_cooldowns p)).
    destruct (update_cooldowns_pending (Nat.iter k update_cooldowns p))
      as [Ht' [Ha' [Hw' Hm']]]; [lia|].
    rewrite Ht', Ha', Hw', Hm', Ht, Ha, Hw, Hm. repeat split. lia.
Qed.

(** The tick on which a running reload ends. *)
Lemma reload_completes (n : nat) (p : Player) :
  (0 < n)%nat ->
  reload_time p = Z.of_nat n ->
  let p' := Nat.iter n update_cooldowns p in
  reload_time p' = 0 /\
  ammo p' = pw_set (ammo p) (weapon p) (pw_get (mag p) (weapon p)) /\
  weapon p' = weapon p /\ mag p' = mag p.
Proof.
  intros Hn Ht. destruct n as [|k]; [lia|]. cbn zeta.
  destruct (reload_in_progress k p) as [Ht1 [Ha1 [Hw1 Hm1]]]; [lia|].
  change (Nat.iter (S k) update_cooldowns p)
    with (update_cooldowns (Nat.iter k update_cooldowns p)).
  destruct (update_cooldowns_refill (Nat.iter k update_cooldowns p))
    as [Ht2 [Ha2 [Hw2 Hm2]]]; [lia|].
  rewrite Ht2, Ha2, Hw2, Hm2, Ha1, Hw1, Hm1. auto.
Qed.

Section ReloadTimer.
Context {M : MathLib} {R : Type} {RS : RandomSource R}.

(** C10.  There is one reload timer.  While it is positive [shoot] does
    nothing, whichever weapon is active.  The tick on which it reaches 0
    refills the magazine of the weapon active on that tick: if the player
    switches weapons [k] ticks into a reload, the other weapon's magazine
    is the one filled to capacity when the timer runs out, and the
    magazine of the weapon the reload was started with keeps its count. *)
Theorem reload_timer_is_global (g : Game R) (world_mouse : Vector2) (k n : nat) :
  0 < reload_time (player g) ->
  reload_time (player g) = Z.of_nat (k + n) ->
  (0 < n)%nat ->
  let p := player g in
  let w := weapon p in
  let p' := Nat.iter n update_cooldowns (switch_weapon (Nat.iter k update_cooldowns p)) in
  shoot g world_mouse = g /\
  shoot (with_player g (switch_weapon p)) world_mouse
    = with_player g (switch_weapon p) /\
  reload_time p' = 0 /\
  weapon p' = other_weapon w /\
  pw_get (ammo p') (other_weapon w) = pw_get (mag p) (other_weapon w) /\
  pw_get (ammo p') w = pw_get (ammo p) w.
Proof.
  intros Hpos Ht Hn p w p'.
  split; [apply shoot_rejected; auto|].
  split; [apply shoot_rejected; right; left; exact Hpos|].
  destruct (reload_in_progress k p) as [Ht1 [Ha1 [Hw1 Hm1]]].
  { fold p in Ht. lia. }
  set (q := switch_weapon (Nat.iter k update_cooldowns p)).
  assert (Hq : reload_time q = Z.of_nat n /\ ammo q = ammo p /\
               weapon q = other_weapon w /\ mag q = mag p).
  { unfold q, switch_weapon. simpl. rewrite Ht1, Ha1, Hw1, Hm1.
    fold p in Ht. split; [lia|]. split; [reflexivity|]. split; [|reflexivity].
    unfold w. destruct (weapon p); reflexivity. }
  destruct Hq as [Hqt [Hqa [Hqw Hqm]]].
  destruct (reload_completes n q Hn Hqt) as [Ht2 [Ha2 [Hw2 Hm2]]].
  fold q in p'. fold p' in Ht2, Ha2, Hw2, Hm2.
  rewrite Ha2, Hw2, Hqw, Hqa, Hqm.
  repeat split; auto.
  - apply pw_get_set_same.
  - destruct w; reflexivity.
Qed.
End ReloadTimer.

Lemma reload_timer_is_global_witness :
  let g := idle_game (reload low_rifle_player) 7 in
  let p' :=
    Nat.iter 28 update_cooldowns
      (switch_weapon (Nat.iter 20 update_cooldowns (player g))) in
  reload_time (player g) = 48 /\
  shoot g (mkVec 300 100) = g /\
  weapon p' = Shotgun /\
  pw_get (ammo p') Shotgun = 8 /\ pw_get (ammo p') Rifle = 10.
Proof.
  destruct (reload_timer_is_global (M := coarse_math)
              (idle_game (reload low_rifle_player) 7) (mkVec 300 100) 20 28)
    as [Hs [_ [_ [Hw [Ho Hk]]]]].
  - reflexivity.
  - reflexivity.
  - lia.
  - split; [reflexivity|]. split; [exact Hs|]. split; [exact Hw|].
    split; [exact Ho|exact Hk].
Defined.

(* ------------------------------------------------------------------ *)
(** ** Movement and collision *)

Lemma Qltb_sign (v : Q) :
  ~ (v == 0)%Q -> Qltb 0 v = true \/ (Qltb 0 v = false /\ Qltb v 0 = true).
Proof.
  intro Hv. destruct (Qltb 0 v) eqn:E; [now left|right].
  split; [reflexivity|]. apply Qltb_lt.
  unfold Qltb in E. apply negb_false_iff in E. apply Qle_bool_iff in E.
  apply Qle_lteq in E. destruct E as [E | E]; [exact E|contradiction].
Qed.

Lemma colliderect_flush_x (a b : Rect) :
  0 <= rw a -> 0 <= rw b ->
  right a = left b \/ left a = right b ->
  colliderect a b = false.
Proof.
  unfold colliderect, right, left. intros Ha Hb H.
  destruct (_ || _); [reflexivity|].
  rewrite !andb_false_iff, !Z.gtb_ltb, !Z.ltb_ge.
  destruct H as [H | H]; [left; right|left; left; left]; lia.
Qed.

Lemma colliderect_flush_y (a b : Rect) :
  0 <= rh a -> 0 <= rh b ->
  bottom a = top b \/ top a = bottom b ->
  colliderect a b = false.
Proof.
  unfold colliderect, bottom, top. intros Ha Hb H.
  destruct (_ || _); [reflexivity|].
  rewrite !andb_false_iff, !Z.gtb_ltb, !Z.ltb_ge.
  destruct H as [H | H]; [right|left; left; right]; lia.
Qed.

Lemma clamp_x_frame (v : Q) (st : Rect * Q) (w : Rect) :
  ry (fst (clamp_x v st w)) = ry (fst st) /\
  rw (fst (clamp_x v st w)) = rw (fst st) /\
  rh (fst (clamp_x v st w)) = rh (fst st).
Proof.
  unfold clamp_x. simpl.
  destruct (Qltb 0 v); [|destruct (Qltb v 0)]; simpl; auto.
Qed.

Lemma clamp_y_frame (v : Q) (st : Rect * Q) (w : Rect) :
  rx (fst (clamp_y v st w)) = rx (fst st) /\
  rw (fst (clamp_y v st w)) = rw (fst st) /\
  rh (fst (clamp_y v st w)) = rh (fst st).
Proof.
  unfold clamp_y. simpl.
  destruct (Qltb 0 v); [|destruct (Qltb v 0)]; simpl; auto.
Qed.

Lemma fold_clamp_x_frame (v : Q) (l : list Rect) (st : Rect * Q) :
  ry (fst (fold_left (clamp_x v) l st)) = ry (fst st) /\
  rw (fst (fold_left (clamp_x v) l st)) = rw (fst st) /\
  rh (fst (fold_left (clamp_x v) l st)) = rh (fst st).
Proof.
  revert st. induction l as [|w l IH]; intro st; simpl; [auto|].
  destruct (IH (clamp_x v st w)) as [H1 [H2 H3]].
  destruct (clamp_x_frame v st w) as [K1 [K2 K3]].
  rewrite H1, H2, H3. auto.
Qed.

Lemma fold_clamp_y_frame (v : Q) (l : list Rect) (st : Rect * Q) :
  rx (fst (fold_left (clamp_y v) l st)) = rx (fst st) /\
  rw (fst (fold_left (clamp_y v) l st)) = rw (fst st) /\
  rh (fst (fold_left (clamp_y v) l st)) = rh (fst st).
Proof.
  revert st. induction l as [|w l IH]; intro st; simpl; [auto|].
  destruct (IH (clamp_y v st w)) as [H1 [H2 H3]].
  destruct (clamp_y_frame v st w) as [K1 [K2 K3]].
  rewrite H1, H2, H3. auto.
Qed.

Lemma clamp_x_flush (v : Q) (st : Rect * Q) (w : Rect) :
  ~ (v == 0)%Q ->
  leading_x v (fst (clamp_x v st w)) = facing_x v w /\
  snd (clamp_x v st w) = inject_Z (centerx (fst (clamp_x v st w))).
Proof.
  intro Hv. unfold clamp_x, leading_x, facing_x.
  destruct (Qltb_sign v Hv) as [E | [E1 E2]].
  - rewrite E. simpl. split; [unfold right, set_right; simpl; lia|reflexivity].
  - rewrite E1, E2. simpl. split; reflexivity.
Qed.

Lemma clamp_y_flush (v : Q) (st : Rect * Q) (w : Rect) :
  ~ (v == 0)%Q ->
  leading_y v (fst (clamp_y v st w)) = facing_y v w /\
  snd (clamp_y v st w) = inject_Z (centery (fst (clamp_y v st w))).
Proof.
  intro Hv. unfold clamp_y, leading_y, facing_y.
  destruct (Qltb_sign v Hv) as [E | [E1 E2]].
  - rewrite E. simpl. split; [unfold bottom, set_bottom; simpl; lia|reflexivity].
  - rewrite E1, E2. simpl. split; reflexivity.
Qed.

Lemma flush_x_no_overlap (v : Q) (r w : Rect) :
  0 <= rw r -> 0 <= rw w ->
  leading_x v r = facing_x v w -> colliderect r w = false.
Proof.
  unfold leading_x, facing_x. intros Hr Hw H.
  apply colliderect_flush_x; auto. destruct (Qltb 0 v); auto.
Qed.

Lemma flush_y_no_overlap (v : Q) (r w : Rect) :
  0 <= rh r -> 0 <= rh w ->
  leading_y v r = facing_y v w -> colliderect r w = false.
Proof.
  unfold leading_y, facing_y. intros Hr Hw H.
  apply colliderect_flush_y; auto. destruct (Qltb 0 v); auto.
Qed.

(** [collide_move] is the X half followed by the Y half. *)
Lemma collide_move_split (dt : Q) (tm : TileMap) (e : Entity) :
  collide_move dt tm e = resolve_y dt tm (resolve_x dt tm e).
Proof.
  unfold collide_move, resolve_y, resolve_x.
  destruct (fold_left (clamp_x (vx (vel e))) _ _) as [r2 px2]. simpl.
  destruct (fold_left (clamp_y (vy (vel e))) _ _) as [r4 py4]. reflexivity.
Qed.

Lemma resolve_x_frame (dt : Q) (tm : TileMap) (e : Entity) :
  vel (resolve_x dt tm e) = vel e /\
  vy (pos (resolve_x dt tm e)) = vy (pos e) /\
  rw (rect (resolve_x dt tm e)) = rw (rect e) /\
  rh (rect (resolve_x dt tm e)) = rh (rect e) /\
  ry (rect (resolve_x dt tm e)) = ry (rect e).
Proof.
  unfold resolve_x.
  pose proof (fold_clamp_x_frame (vx (vel e))
    (rect_collide tm (set_centerx (rect e) (py_int (vx (pos e) + vx (vel e) * dt)%Q)))
    (set_centerx (rect e) (py_int (vx (pos e) + vx (vel e) * dt)%Q),
     (vx (pos e) + vx (vel e) * dt)%Q)) as [H1 [H2 H3]].
  destruct (fold_left _ _ _) as [r2 px2]. simpl in *. auto.
Qed.

Lemma resolve_y_frame (dt : Q) (tm : TileMap) (e : Entity) :
  vel (resolve_y dt tm e) = vel e /\
  vx (pos (resolve_y dt tm e)) = vx (pos e) /\
  rw (rect (resolve_y dt tm e)) = rw (rect e) /\
  rh (rect (resolve_y dt tm e)) = rh (rect e) /\
  rx (rect (resolve_y dt tm e)) = rx (rect e).
Proof.
  unfold resolve_y.
  pose proof (fold_clamp_y_frame (vy (vel e))
    (rect_collide tm (set_centery (rect e) (py_int (vy (pos e) + vy (vel e) * dt)%Q)))
    (set_centery (rect e) (py_int (vy (pos e) + vy (vel e) * dt)%Q),
     (vy (pos e) + vy (vel e) * dt)%Q)) as [H1 [H2 H3]].
  destruct (fold_left _ _ _) as [r4 py4]. simpl in *. auto.
Qed.

Lemma resolve_x_flush (dt : Q) (tm : TileMap) (e : Entity) (ws : list Rect) (w : Rect) :
  ~ (vx (vel e) == 0)%Q ->
  x_overlaps dt tm e = ws ++ [w] ->
  leading_x (vx (vel e)) (rect (resolve_x dt tm e)) = facing_x (vx (vel e)) w /\
  vx (pos (resolve_x dt tm e)) = inject_Z (centerx (rect (resolve_x dt tm e))).
Proof.
  intros Hv Hov. unfold resolve_x. unfold x_overlaps in Hov. rewrite Hov.
  rewrite fold_left_app. cbn [fold_left].
  set (st := fold_left (clamp_x (vx (vel e))) ws _).
  destruct (clamp_x_flush (vx (vel e)) st w Hv) as [H1 H2].
  destruct (clamp_x (vx (vel e)) st w) as [r2 px2]. simpl in *. auto.
Qed.

Lemma resolve_y_flush (dt : Q) (tm : TileMap) (e : Entity) (ws : list Rect) (w : Rect) :
  ~ (vy (vel e) == 0)%Q ->
  rect_collide tm (set_centery (rect e) (py_int (vy (pos e) + vy (vel e) * dt)%Q))
    = ws ++ [w] ->
  leading_y (vy (vel e)) (rect (resolve_y dt tm e)) = facing_y (vy (vel e)) w /\
  vy (pos (resolve_y dt tm e)) = inject_Z (centery (rect (resolve_y dt tm e))).
Proof.
  intros Hv Hov. unfold resolve_y. rewrite Hov.
  rewrite fold_left_app. cbn [fold_left].
  set (st := fold_left (clamp_y (vy (vel e))) ws _).
  destruct (clamp_y_flush (vy (vel e)) st w Hv) as [H1 H2].
  destruct (clamp_y (vy (vel e)) st w) as [r2 px2]. simpl in *. auto.
Qed.

Lemma leading_x_frame (v : Q) (r r' : Rect) :
  rx r' = rx r -> rw r' = rw r -> leading_x v r' = leading_x v r.
Proof.
  unfold leading_x, right, left. intros -> ->. reflexivity.
Qed.

(** Every rectangle [rebuild_wall_rects] produces has positive width and
    height, so the size conditions below hold for the walls of an arena. *)
Lemma row_runs_ordered (cells : list Z) (x : Z) (start : option Z) :
  (forall s, start = Some s -> s < x) ->
  Forall (fun se => fst se < snd se) (row_runs cells x start).
Proof.
  revert x start. induction cells as [|c rest IH]; intros x start Hs; simpl.
  - destruct start as [s|]; constructor; [simpl; auto|constructor].
  - destruct (c =? 1).
    + apply IH. intros s E. inversion E; subst. destruct start as [s0|].
      * specialize (Hs s0 eq_refl). lia.
      * lia.
    + destruct start as [s|].
      * constructor; [simpl; auto|]. apply IH. discriminate.
      * apply IH. discriminate.
Qed.

Lemma rows_rects_positive (rows : list (list Z)) (y : Z) :
  Forall (fun w => 0 < rw w /\ 0 < rh w) (rows_rects y rows).
Proof.
  revert y. induction rows as [|row rest IH]; intro y; simpl; [constructor|].
  apply Forall_app. split; [|apply IH].
  unfold row_rects. apply Forall_map.
  eapply Forall_impl; [|apply (row_runs_ordered row 0 None); discriminate].
  intros [s e] H. simpl in *. unfold TILE. lia.
Qed.

Lemma rebuild_wall_rects_positive (tm : TileMap) :
  Forall (fun w => 0 < rw w /\ 0 < rh w) (wall_rects (rebuild_wall_rects tm)).
Proof. apply rows_rects_positive. Qed.

(** C1 as stated fails when one overlap query returns walls with different
    facing edges: the clamps are applied one after the other and the last
    one stands.  An entity clear of every wall moves right, along X only,
    into the walls of the two rows it spans; it ends flush with the second
    wall and 44 units deep inside the first. *)
Lemma collide_move_staggered_walls_counterexample :
  let e := mover (mkVec 120 96) (mkVec 320 0) in
  let e' := collide_move (1 # 5) staircase_map e in
  let w1 := mkRect 144 48 48 48 in
  rect_collide staircase_map (rect e) = [] /\
  (0 < vx (vel e))%Q /\ (vy (vel e) == 0)%Q /\
  In w1 (x_overlaps (1 # 5) staircase_map e) /\
  right (rect e') <> left w1 /\
  colliderect (rect e') w1 = true /\
  Z.min (right (rect e')) (right w1) - Z.max (left (rect e')) (left w1) = 44.
Proof.
  vm_compute. repeat split; try reflexivity; try discriminate.
  left. reflexivity.
Qed.

(** C1 (amended).  [collide_move] is the X pass followed by the Y pass, the
    Y pass working on the rectangle and position the X pass left and not
    touching the X extent again.  On each axis a moving entity ends with its
    leading edge on the facing edge of the last rectangle of that axis's
    overlap query, hence on the rectangle's when only one is hit, and does
    not overlap that rectangle.  The velocity is never changed, and an axis
    whose query is empty receives its full displacement: this is the
    sliding along a wall met on the other axis. *)
Theorem collide_move_axis_separated (dt : Q) (tm : TileMap) (e : Entity) :
  let ex := resolve_x dt tm e in
  let e' := collide_move dt tm e in
  (e' = resolve_y dt tm ex /\
   rx (rect e') = rx (rect ex) /\ rw (rect e') = rw (rect ex) /\
   vx (pos e') = vx (pos ex) /\ vel e' = vel e) /\
  (forall ws w,
     ~ (vx (vel e) == 0)%Q -> x_overlaps dt tm e = ws ++ [w] ->
     0 <= rw (rect e) -> 0 <= rw w ->
     leading_x (vx (vel e)) (rect e') = facing_x (vx (vel e)) w /\
     colliderect (rect e') w = false) /\
  (forall ws w,
     ~ (vy (vel e) == 0)%Q -> y_overlaps dt tm e = ws ++ [w] ->
     0 <= rh (rect e) -> 0 <= rh w ->
     leading_y (vy (vel e)) (rect e') = facing_y (vy (vel e)) w /\
     colliderect (rect e') w = false) /\
  (x_overlaps dt tm e = [] -> vx (pos e') = (vx (pos e) + vx (vel e) * dt)%Q) /\
  (y_overlaps dt tm e = [] -> vy (pos e') = (vy (pos e) + vy (vel e) * dt)%Q).
Proof.
  intros ex e'.
  assert (Hsplit : e' = resolve_y dt tm ex) by apply collide_move_split.
  destruct (resolve_x_frame dt tm e) as [Xv [Xpy [Xw [Xh Xy]]]].
  destruct (resolve_y_frame dt tm ex) as [Yv [Ypx [Yw [Yh Yx]]]].
  fold ex in Xv, Xpy, Xw, Xh, Xy.
  split; [|split; [|split; [|split]]].
  - rewrite Hsplit. repeat split; auto. congruence.
  - intros ws w Hv Hov Hre Hrw.
    destruct (resolve_x_flush dt tm e ws w Hv Hov) as [Hflush _]. fold ex in Hflush.
    assert (Hlead : leading_x (vx (vel e)) (rect e') = facing_x (vx (vel e)) w).
    { rewrite Hsplit, <- Hflush. apply leading_x_frame; assumption. }
    split; [exact Hlead|].
    apply (flush_x_no_overlap (vx (vel e))); auto.
    rewrite Hsplit, Yw, Xw. exact Hre.
  - intros ws w Hv Hov Hre Hrw.
    rewrite <- Xv in Hv. unfold y_overlaps in Hov. fold ex in Hov.
    destruct (resolve_y_flush dt tm ex ws w Hv Hov) as [Hflush _].
    rewrite Xv in Hflush. rewrite <- Hsplit in Hflush.
    split; [exact Hflush|].
    apply (flush_y_no_overlap (vy (vel e))); auto.
    rewrite Hsplit, Yh, Xh. exact Hre.
  - intro Hov. rewrite Hsplit, Ypx. unfold ex, resolve_x.
    unfold x_overlaps in Hov. rewrite Hov. reflexivity.
  - intro Hov. rewrite Hsplit. unfold y_overlaps in Hov. fold ex in Hov.
    unfold resolve_y. rewrite Hov. simpl. rewrite Xpy, Xv. reflexivity.
Qed.

Lemma collide_move_axis_separated_witness :
  let e1 := mover (mkVec 1512 744) (mkVec 226 226) in
  let e2 := mover (mkVec 1000 982) (mkVec 0 (-320)) in
  let e3 := mover (mkVec 1000 982) (mkVec 0 320) in
  (right (rect (collide_move (16 # 1000) walled_arena e1)) = 1536 /\
   vy (pos (collide_move (16 # 1000) walled_arena e1)) = (744 + 226 * (16 # 1000))%Q) /\
  vx (pos (collide_move (16 # 1000) walled_arena e2)) = (1000 + 0 * (16 # 1000))%Q /\
  bottom (rect (collide_move (16 # 1000) walled_arena e3)) = 1008.
Proof.
  intros e1 e2 e3.
  destruct (collide_move_axis_separated (16 # 1000) walled_arena e1)
    as [_ [Hx [_ [_ Hfree]]]].
  destruct (collide_move_axis_separated (16 # 1000) walled_arena e2)
    as [_ [_ [_ [Hfree2 _]]]].
  destruct (collide_move_axis_separated (16 # 1000) walled_arena e3)
    as [_ [_ [Hy _]]].
  split; [split|split].
  - destruct (Hx [] (mkRect 1536 720 768 48)) as [H _].
    + intro H. vm_compute in H. discriminate H.
    + vm_compute. reflexivity.
    + vm_compute. discriminate.
    + vm_compute. discriminate.
    + exact H.
  - apply Hfree. vm_compute. reflexivity.
  - apply Hfree2. vm_compute. reflexivity.
  - destruct (Hy [] (mkRect 0 1008 2304 48)) as [H _].
    + intro H. vm_compute in H. discriminate H.
    + vm_compute. reflexivity.
    + vm_compute. discriminate.
    + vm_compute. discriminate.
    + exact H.
Defined.

(** The order of the two passes is observable: an entity heading up and to
    the right past the lower left corner of a wall is stopped on Y when X
    is resolved first, and would be stopped on X were Y resolved first. *)
Example axis_order_matters :
  let e := mover (mkVec 120 120) (mkVec 320 (-320)) in
  rect (collide_move (16 # 1000) staircase_map e) = mkRect 103 96 44 44 /\
  rect (resolve_x (16 # 1000) staircase_map (resolve_y (16 # 1000) staircase_map e))
    = mkRect 100 92 44 44.
Proof.
  vm_compute. split; reflexivity.
Qed.

(* ------------------------------------------------------------------ *)
(** ** Bullets against enemies *)

Lemma filter_filter {A : Type} (f g : A -> bool) (l : list A) :
  filter f (filter g l) = filter (fun x => g x && f x) l.
Proof.
  induction l as [|a l IH]; simpl; [reflexivity|].
  destruct (g a); simpl; [destruct (f a)|]; rewrite IH; reflexivity.
Qed.

Lemma is_target_head (e : Enemy) (rest : list Enemy) (b : Bullet) :
  is_target (e :: rest) 0 b = overlaps e b.
Proof.
  unfold is_target. simpl. destruct (overlaps e b); [reflexivity|].
  destruct (first_hit rest b); reflexivity.
Qed.

Lemma is_target_tail (e : Enemy) (rest : list Enemy) (j : nat) (b : Bullet) :
  is_target (e :: rest) (S j) b = negb (overlaps e b) && is_target rest j b.
Proof.
  unfold is_target. simpl. destruct (overlaps e b); [reflexivity|].
  destruct (first_hit rest b); reflexivity.
Qed.

Lemma first_hit_none (es : list Enemy) (b : Bullet) :
  first_hit es b = None <-> existsb (fun e => overlaps e b) es = false.
Proof.
  induction es as [|e rest IH]; simpl; [tauto|].
  destruct (overlaps e b); simpl.
  - split; discriminate.
  - rewrite <- IH. destruct (first_hit rest b); simpl; split; congruence.
Qed.

Section BulletPhase.
Context {R : Type} {RS : RandomSource R}.

(** The inner loop for one enemy: every bullet of the snapshot that
    overlaps the enemy is removed and costs it 20 hit points. *)
Lemma enemy_vs_bullets_spec (bs : list Bullet) :
  forall (e : Enemy) (killed : bool) (parts : list Particle) (sc : Z) (r : R),
  let h := enemy_vs_bullets bs e killed parts sc r in
  h_bullets h = filter (fun b => negb (overlaps e b)) bs /\
  e_ent (h_enemy h) = e_ent e /\
  tier (h_enemy h) = tier e /\
  e_hp (h_enemy h) = e_hp e - 20 * Z.of_nat (length (filter (overlaps e) bs)).
Proof.
  induction bs as [|b rest IH]; intros e killed parts sc r; cbn zeta.
  - simpl. repeat split. lia.
  - cbn [enemy_vs_bullets filter]. fold (overlaps e b).
    destruct (overlaps e b) eqn:Eo.
    + destruct (burst 10 _ _ _ _ parts r) as [parts1 r1].
      set (e1 := mkEnemy (e_ent e) (e_speed e) (e_hp e - 20) (tier e)).
      assert (Hsame : forall x, overlaps e1 x = overlaps e x) by reflexivity.
      destruct (e_hp e1 <=? 0).
      * destruct (burst 18 _ _ _ _ parts1 r1) as [parts2 r2].
        destruct (IH e1 true parts2 (sc + 10 * tier e1) r2) as [H1 [H2 [H3 H4]]].
        rewrite H1, H2, H3, H4. cbn [negb length]. repeat split.
        unfold e1 at 1. cbn [e_hp].
        rewrite (filter_ext _ _ Hsame). lia.
      * destruct (IH e1 killed parts1 sc r1) as [H1 [H2 [H3 H4]]].
        rewrite H1, H2, H3, H4. cbn [negb length]. repeat split.
        unfold e1 at 1. cbn [e_hp].
        rewrite (filter_ext _ _ Hsame). lia.
    + destruct (IH e killed parts sc r) as [H1 [H2 [H3 H4]]].
      cbn [h_bullets h_enemy negb]. rewrite H1, H2, H3, H4. repeat split.
Qed.

Lemma enemies_vs_bullets_bullets (es : list Enemy) :
  forall (bs : list Bullet) (parts : list Particle) (sc : Z) (r : R),
  ph_bullets (enemies_vs_bullets es bs parts sc r)
    = filter (fun b => negb (existsb (fun e => overlaps e b) es)) bs.
Proof.
  induction es as [|e rest IH]; intros bs parts sc r.
  - simpl. induction bs as [|b bs IHb]; simpl; [reflexivity|now rewrite <- IHb].
  - cbn [enemies_vs_bullets ph_bullets]. rewrite IH.
    destruct (enemy_vs_bullets_spec bs e false parts sc r) as [H1 _].
    rewrite H1, filter_filter. apply filter_ext. intro b. simpl.
    now rewrite negb_orb.
Qed.

Lemma enemies_vs_bullets_hp (es : list Enemy) :
  forall (bs : list Bullet) (parts : list Particle) (sc : Z) (r : R) (i : nat) (e : Enemy),
  nth_error es i = Some e ->
  exists e' k,
    nth_error (ph_enemies (enemies_vs_bullets es bs parts sc r)) i = Some (e', k) /\
    e_ent e' = e_ent e /\ tier e' = tier e /\
    e_hp e' = e_hp e - 20 * hits_on es bs i.
Proof.
  induction es as [|e0 rest IH]; intros bs parts sc r i e Hi.
  - destruct i; discriminate.
  - cbn [enemies_vs_bullets ph_enemies].
    destruct (enemy_vs_bullets_spec bs e0 false parts sc r) as [H1 [H2 [H3 H4]]].
    destruct i as [|j].
    + simpl in Hi. inversion Hi; subst e0.
      eexists. eexists. split; [reflexivity|].
      split; [exact H2|]. split; [exact H3|].
      rewrite H4. unfold hits_on.
      rewrite (filter_ext _ _ (is_target_head e rest)). reflexivity.
    + simpl in Hi.
      destruct (IH (h_bullets (enemy_vs_bullets bs e0 false parts sc r))
                   (h_particles (enemy_vs_bullets bs e0 false parts sc r))
                   (h_score (enemy_vs_bullets bs e0 false parts sc r))
                   (h_rng (enemy_vs_bullets bs e0 false parts sc r)) j e Hi)
        as [e' [k [G1 [G2 [G3 G4]]]]].
      exists e', k. split; [exact G1|]. split; [exact G2|]. split; [exact G3|].
      rewrite G4, H1. unfold hits_on. rewrite filter_filter.
      rewrite (filter_ext _ _ (is_target_tail e0 rest j)). reflexivity.
Qed.
(** Once a hit is lethal every bullet of the snapshot that overlaps the
    enemy adds [10 * tier] to the score: the loop does not stop at
    [e.kill()]. *)
Lemma score_per_hit_once_lethal (bs : list Bullet) :
  forall (e : Enemy) (killed : bool) (parts : list Particle) (sc : Z) (r : R),
  e_hp e <= 20 ->
  h_score (enemy_vs_bullets bs e killed parts sc r)
    = sc + 10 * tier e * Z.of_nat (length (filter (overlaps e) bs)).
Proof.
  induction bs as [|b rest IH]; intros e killed parts sc r Hhp.
  - simpl. lia.
  - cbn [enemy_vs_bullets filter]. fold (overlaps e b).
    destruct (overlaps e b) eqn:Eo.
    + destruct (burst 10 _ _ _ _ parts r) as [parts1 r1].
      set (e1 := mkEnemy (e_ent e) (e_speed e) (e_hp e - 20) (tier e)).
      assert (Hsame : forall x, overlaps e1 x = overlaps e x) by reflexivity.
      assert (Hdead : (e_hp e1 <=? 0) = true) by (apply Z.leb_le; simpl; lia).
      rewrite Hdead.
      destruct (burst 18 _ _ _ _ parts1 r1) as [parts2 r2].
      rewrite IH by (simpl; lia).
      rewrite (filter_ext _ _ Hsame). cbn [length tier e1]. lia.
    + cbn [h_score]. apply IH. exact Hhp.
Qed.
End BulletPhase.

Section BulletTargets.
Context {R : Type} {RS : RandomSource R}.

(** C4.  In the bullet-versus-enemy pass of a tick every bullet has at most
    one target, the first enemy of the group that it overlaps.  A bullet is
    removed exactly when it overlaps some enemy; each enemy loses 20 hit
    points for every bullet whose target it is and nothing else about it
    changes; so a bullet that overlaps two or more enemies is removed, costs
    exactly one of them 20 hit points and leaves the others as they were. *)
Theorem each_bullet_hits_one_enemy
  (es : list Enemy) (bs : list Bullet) (parts : list Particle) (sc : Z) (r : R) :
  let ph := enemies_vs_bullets es bs parts sc r in
  ph_bullets ph = filter (fun b => negb (existsb (fun e => overlaps e b) es)) bs /\
  (forall i e, nth_error es i = Some e ->
     exists e' k,
       nth_error (ph_enemies ph) i = Some (e', k) /\
       e_ent e' = e_ent e /\ tier e' = tier e /\
       e_hp e' = e_hp e - 20 * hits_on es bs i) /\
  (forall b, existsb (fun e => overlaps e b) es = true ->
     exists i, is_target es i b = true /\
               forall j, is_target es j b = true -> j = i) /\
  (forall b, bs = [b] -> existsb (fun e => overlaps e b) es = true ->
     ph_bullets ph = [] /\
     exists i, hits_on es bs i = 1 /\ forall j, j <> i -> hits_on es bs j = 0).
Proof.
  intro ph.
  assert (HA : ph_bullets ph
               = filter (fun b => negb (existsb (fun e => overlaps e b) es)) bs)
    by apply enemies_vs_bullets_bullets.
  assert (HC : forall b, existsb (fun e => overlaps e b) es = true ->
     exists i, is_target es i b = true /\
               forall j, is_target es j b = true -> j = i).
  { intros b Hb. unfold is_target.
    destruct (first_hit es b) as [i|] eqn:E.
    - exists i. split; [apply Nat.eqb_refl|]. intros j Hj. now apply Nat.eqb_eq.
    - apply first_hit_none in E. congruence. }
  split; [exact HA|]. split; [|split; [exact HC|]].
  - intros i e Hi. apply enemies_vs_bullets_hp. exact Hi.
  - intros b Hbs Hb. rewrite HA. subst bs. simpl. rewrite Hb. simpl.
    split; [reflexivity|].
    destruct (HC b Hb) as [i [Hi Huniq]]. exists i. unfold hits_on. simpl.
    rewrite Hi. split; [reflexivity|].
    intros j Hj. destruct (is_target es j b) eqn:E; [|reflexivity].
    elim Hj. now apply Huniq.
Qed.
End BulletTargets.

Lemma each_bullet_hits_one_enemy_witness :
  let ph := enemies_vs_bullets twin_enemies [lone_bullet] [] 0 7 in
  forallb (fun e => overlaps e lone_bullet) twin_enemies = true /\
  ph_bullets ph = [] /\
  (exists e' k, nth_error (ph_enemies ph) 0 = Some (e', k) /\ e_hp e' = 20) /\
  (exists e' k, nth_error (ph_enemies ph) 1 = Some (e', k) /\ e_hp e' = 40).
Proof.
  destruct (each_bullet_hits_one_enemy twin_enemies [lone_bullet] [] 0 7)
    as [_ [HB [_ HD]]].
  split; [reflexivity|]. split; [|split].
  - apply (HD lone_bullet); reflexivity.
  - destruct (HB 0%nat (Enemy_init (mkVec 1000 1000) 1) eq_refl)
      as [e' [k [H1 [_ [_ H4]]]]].
    exists e', k. split; [exact H1|exact H4].
  - destruct (HB 1%nat (Enemy_init (mkVec 1010 1000) 1) eq_refl)
      as [e' [k [H1 [_ [_ H4]]]]].
    exists e', k. split; [exact H1|exact H4].
Defined.

(** C5 at its failing input.  The inner loop over the bullets goes on after
    [e.kill()]: every further bullet that overlaps the dead enemy finds
    [e.hp <= 0] again and adds [10 * e.tier] once more.  One tier-1 enemy
    with 40 hit points and three bullets inside it: the enemy is removed
    once, the score rises by 20 and not by 10. *)
Theorem overkill_scores_kill_twice :
  let g' := bullet_vs_enemy overkill_game in
  map tier (enemies overkill_game) = [1] /\
  map e_hp (enemies overkill_game) = [40] /\
  length (bullets overkill_game) = 3%nat /\
  enemies g' = [] /\ bullets g' = [] /\
  score g' - score overkill_game = 20.
Proof.
  vm_compute. repeat split.
Qed.

(* ------------------------------------------------------------------ *)
(** ** The wave director *)

#[export] Instance lcg_range : RandomRange Z.
Proof.
  split.
  - intro r. simpl. unfold Qle, Qlt. simpl.
    pose proof (Z.mod_pos_bound r 1000 ltac:(lia)). lia.
  - intros a b r Hab. simpl.
    pose proof (Z.mod_pos_bound r (b - a + 1) ltac:(lia)). lia.
Qed.

#[export] Instance lowest_range : RandomRange unit.
Proof.
  split.
  - intro r. simpl. split; [apply Qle_refl|reflexivity].
  - intros a b r Hab. simpl. lia.
Qed.

Section WaveDirector.
Context {M : MathLib} {R : Type} {RS : RandomSource R}.

Lemma pick_tier_cases (wv : Z) (r : R) :
  (wv < 3 -> pick_tier wv r = (1, r)) /\
  (3 <= wv ->
     pick_tier wv r
       = (if Qltb (fst (random r)) (6 # 10) then 2 else 3, snd (random r))).
Proof.
  unfold pick_tier. split; intro H.
  - apply Z.ltb_lt in H. now rewrite H.
  - apply Z.ltb_ge in H. rewrite H. destruct (random r). reflexivity.
Qed.

Lemma sample_pos_spec {RR : RandomRange R} (fuel : nat) (tm : TileMap) (ppos : Vector2) :
  forall (r : R) (p : Vector2) (r' : R),
  sample_pos fuel tm ppos r = Done (p, r') ->
  exists x y,
    1 <= x <= tm_w tm - 2 /\ 1 <= y <= tm_h tm - 2 /\
    grid_get (grid tm) x y = Some 0 /\
    p = cell_centre x y /\
    (380 < vlength (vsub p ppos))%Q.
Proof.
  induction fuel as [|k IH]; intros r p r' H; simpl in H; [discriminate|].
  destruct (tm_w tm - 2 <? 1) eqn:Ew; [discriminate|].
  pose proof (randint_range 1 (tm_w tm - 2) r) as Hx.
  destruct (randint 1 (tm_w tm - 2) r) as [x r1].
  destruct (tm_h tm - 2 <? 1) eqn:Eh; [discriminate|].
  pose proof (randint_range 1 (tm_h tm - 2) r1) as Hy.
  destruct (randint 1 (tm_h tm - 2) r1) as [y r2].
  apply Z.ltb_ge in Ew. apply Z.ltb_ge in Eh. simpl in Hx, Hy.
  destruct (grid_get (grid tm) x y) as [c|] eqn:Eg; [|discriminate].
  destruct (c =? 0) eqn:Ec; [|eapply IH; eassumption].
  destruct (Qltb 380 (vlength (vsub (cell_centre x y) ppos))) eqn:Ed;
    [|eapply IH; eassumption].
  inversion H; subst. apply Z.eqb_eq in Ec. subst c.
  exists x, y. apply Qltb_lt in Ed. repeat split; try lia; assumption.
Qed.

Lemma sample_pos_mono (k : nat) (tm : TileMap) (ppos : Vector2) :
  forall (r : R) (res : Vector2 * R) (k' : nat),
  sample_pos k tm ppos r = Done res -> (k <= k')%nat ->
  sample_pos k' tm ppos r = Done res.
Proof.
  induction k as [|k IH]; intros r res k' H Hle; simpl in H; [discriminate|].
  destruct k' as [|k']; [lia|]. simpl.
  destruct (tm_w tm - 2 <? 1); [discriminate|].
  destruct (randint 1 (tm_w tm - 2) r) as [x r1].
  destruct (tm_h tm - 2 <? 1); [discriminate|].
  destruct (randint 1 (tm_h tm - 2) r1) as [y r2].
  destruct (grid_get (grid tm) x y) as [c|]; [|discriminate].
  destruct (c =? 0); [|apply IH; [assumption|lia]].
  destruct (Qltb 380 _); [assumption|apply IH; [assumption|lia]].
Qed.

Lemma spawn_loop_mono (k : nat) (n : nat) (wv : Z) (tm : TileMap) (ppos : Vector2) :
  forall (es : list Enemy) (r : R) (res : list Enemy * R) (k' : nat),
  spawn_loop k n wv tm ppos es r = Done res -> (k <= k')%nat ->
  spawn_loop k' n wv tm ppos es r = Done res.
Proof.
  induction n as [|n IH]; intros es r res k' H Hle; simpl in *; [assumption|].
  destruct (pick_tier wv r) as [t r1].
  destruct (sample_pos k tm ppos r1) as [[p r2]| |] eqn:Es; try discriminate.
  rewrite (sample_pos_mono k tm ppos r1 (p, r2) k' Es Hle).
  apply IH; assumption.
Qed.

Lemma spawn_loop_spec {RR : RandomRange R} (fuel : nat) (g : Game R) (wv : Z) (n : nat) :
  forall (es : list Enemy) (r : R) (es' : list Enemy) (r' : R),
  spawn_loop fuel n wv (the_map g) (pos (p_ent (player g))) es r = Done (es', r') ->
  exists new,
    es' = es ++ new /\ length new = n /\ Forall (well_spawned g wv) new.
Proof.
  induction n as [|n IH]; intros es r es' r' H; simpl in H.
  - inversion H; subst. exists []. rewrite app_nil_r. repeat split. constructor.
  - destruct (pick_tier wv r) as [t r1] eqn:Et.
    destruct (sample_pos fuel _ _ r1) as [[p r2]| |] eqn:Es; try discriminate.
    destruct (IH _ _ _ _ H) as [new [E [L F]]].
    exists (Enemy_init p t :: new). split; [|split].
    + rewrite E, <- app_assoc. reflexivity.
    + simpl. now rewrite L.
    + constructor; [|exact F]. split.
      * exists r. rewrite Et. reflexivity.
      * destruct (sample_pos_spec _ _ _ _ _ _ Es) as [x [y [Hx [Hy [Hg [Hp Hd]]]]]].
        exists x, y. simpl. unfold Entity_init. simpl. subst p. auto.
Qed.

(** Nothing before the next-wave check changes the wave counter. *)
Lemma shoot_wave (g : Game R) (wm : Vector2) : wave (shoot g wm) = wave g.
Proof.
  unfold shoot.
  destruct (_ || _); [reflexivity|].
  destruct (_ <=? 0); [reflexivity|].
  destruct (weapon (player g)).
  - destruct (uniform _ _ _) as [s r1]. destruct (burst _ _ _ _ _ _ _). reflexivity.
  - destruct (repeat_gen _ _ _) as [l r1]. destruct (burst _ _ _ _ _ _ _). reflexivity.
Qed.

Lemma simulate_wave (inp : Input) (g : Game R) : wave (simulate inp g) = wave g.
Proof.
  unfold simulate.
  set (g1 := with_player g _).
  set (g2 := if mouse_held inp then _ else g1).
  assert (H2 : wave g2 = wave g).
  { unfold g2. destruct (mouse_held inp); [rewrite shoot_wave|]; reflexivity. }
  destruct (fold_left _ _ _) as [[[[p3 c3] parts3] r3] es3].
  simpl. exact H2.
Qed.
(** The loops of [spawn_wave] against the draws they consume. *)
Lemma Qltb_ge (a b : Q) : Qltb a b = false <-> (b <= a)%Q.
Proof.
  unfold Qltb. rewrite negb_false_iff. apply Qle_bool_iff.
Qed.

Lemma cell_centre_middle (x y : Z) : cell_centre x y = middle x y.
Proof. reflexivity. Qed.

Lemma pick_tier_drawn (wv : Z) (r : R) (t : Z) (r' : R) :
  pick_tier wv r = (t, r') <-> tier_drawn wv r t r'.
Proof.
  unfold pick_tier, tier_drawn. destruct (wv <? 3) eqn:E.
  - apply Z.ltb_lt in E. split.
    + intro H. inversion H; subst. left. auto.
    + intros [[_ [-> ->]]|[H _]]; [reflexivity|lia].
  - apply Z.ltb_ge in E. destruct (random r) as [u r1]. cbn [fst snd].
    destruct (Qltb u (6 # 10)) eqn:Eu.
    + apply Qltb_lt in Eu. split.
      * intro H. inversion H; subst. right. auto.
      * intros [[H _]|[_ [-> [[_ ->]|[Hu _]]]]]; [lia|reflexivity|].
        exfalso. exact (Qlt_not_le _ _ Eu Hu).
    + apply Qltb_ge in Eu. split.
      * intro H. inversion H; subst. right. auto.
      * intros [[H _]|[_ [-> [[Hu _]|[_ ->]]]]]; [lia| |reflexivity].
        exfalso. exact (Qlt_not_le _ _ Hu Eu).
Qed.

Lemma sample_pos_placed (fuel : nat) (tm : TileMap) (ppos : Vector2) :
  forall (r : R) (p : Vector2) (r' : R),
  sample_pos fuel tm ppos r = Done (p, r') ->
  exists k x y, (k < fuel)%nat /\ placed tm ppos k r x y r' /\ p = middle x y.
Proof.
  induction fuel as [|n IH]; intros r p r' H; cbn [sample_pos] in H;
    [discriminate|].
  destruct (tm_w tm - 2 <? 1); [discriminate|].
  destruct (randint 1 (tm_w tm - 2) r) as [x r1] eqn:Ex.
  destruct (tm_h tm - 2 <? 1); [discriminate|].
  destruct (randint 1 (tm_h tm - 2) r1) as [y r2] eqn:Ey.
  assert (Ed : draw_cell tm r = (x, y, r2)).
  { unfold draw_cell. rewrite Ex, Ey. reflexivity. }
  destruct (grid_get (grid tm) x y) as [c|] eqn:Eg; [|discriminate].
  assert (Hretry : turned_down tm ppos x y ->
                   sample_pos n tm ppos r2 = Done (p, r') ->
                   exists k x' y', (k < S n)%nat /\ placed tm ppos k r x' y' r' /\
                                   p = middle x' y').
  { intros Ht Hs. destruct (IH _ _ _ Hs) as [k [x' [y' [Hk [Hp He]]]]].
    exists (S k), x', y'. split; [lia|]. split; [|exact He].
    eapply placed_retry; eassumption. }
  destruct (c =? 0) eqn:Ec.
  - apply Z.eqb_eq in Ec. subst c. rewrite cell_centre_middle in H.
    destruct (Qltb 380 (vlength (vsub (middle x y) ppos))) eqn:Eq.
    + inversion H; subst. exists O, x, y. split; [lia|]. split; [|reflexivity].
      apply placed_now; [exact Ed|]. split; [exact Eg|]. now apply Qltb_lt.
    + apply Hretry; [|exact H]. exists 0. split; [exact Eg|]. right.
      now apply Qltb_ge.
  - apply Hretry; [|exact H]. exists c. split; [exact Eg|]. left.
    now apply Z.eqb_neq.
Qed.

Lemma placed_sample_pos (tm : TileMap) (ppos : Vector2) :
  1 <= tm_w tm - 2 -> 1 <= tm_h tm - 2 ->
  forall (k : nat) (r : R) (x y : Z) (r' : R),
  placed tm ppos k r x y r' ->
  forall fuel, (k < fuel)%nat ->
  sample_pos fuel tm ppos r = Done (middle x y, r').
Proof.
  intros Hw Hh k r x y r' Hp.
  induction Hp as [r x y r' Ed [Eg Ha]|k r x0 y0 r0 x y r' Ed [c [Eg Hc]] Hp IH];
    intros fuel Hk; (destruct fuel as [|n]; [lia|]); cbn [sample_pos];
    (replace (tm_w tm - 2 <? 1) with false by (symmetry; apply Z.ltb_ge; lia));
    (replace (tm_h tm - 2 <? 1) with false by (symmetry; apply Z.ltb_ge; lia));
    unfold draw_cell in Ed;
    destruct (randint 1 (tm_w tm - 2) r) as [x1 r1];
    destruct (randint 1 (tm_h tm - 2) r1) as [y1 r2];
    inversion Ed; subst; rewrite Eg, cell_centre_middle.
  - cbn [Z.eqb]. now rewrite (proj2 (Qltb_lt _ _) Ha).
  - destruct (c =? 0) eqn:Ec; [|apply IH; lia].
    destruct Hc as [Hc|Hc]; [apply Z.eqb_eq in Ec; contradiction|].
    rewrite (proj2 (Qltb_ge _ _) Hc). apply IH. lia.
Qed.

Lemma spawn_loop_spawned (fuel : nat) (wv : Z) (tm : TileMap) (ppos : Vector2) (n : nat) :
  forall (es : list Enemy) (r : R) (es' : list Enemy) (r' : R),
  spawn_loop fuel n wv tm ppos es r = Done (es', r') ->
  exists new, es' = es ++ new /\ spawned wv tm ppos fuel n r new r'.
Proof.
  induction n as [|n IH]; intros es r es' r' H; cbn [spawn_loop] in H.
  - inversion H; subst. exists []. split; [now rewrite app_nil_r|constructor].
  - destruct (pick_tier wv r) as [t ra] eqn:Et.
    destruct (sample_pos fuel tm ppos ra) as [[p rb]| |] eqn:Es; try discriminate.
    destruct (sample_pos_placed _ _ _ _ _ _ Es) as [k [x [y [Hk [Hp ->]]]]].
    destruct (IH _ _ _ _ H) as [new [-> Hn]].
    exists (Enemy_init (middle x y) t :: new). split.
    + rewrite <- app_assoc. reflexivity.
    + eapply spawned_next; try eassumption. now apply pick_tier_drawn.
Qed.

Lemma spawned_spawn_loop (fuel : nat) (wv : Z) (tm : TileMap) (ppos : Vector2) :
  1 <= tm_w tm - 2 -> 1 <= tm_h tm - 2 ->
  forall (n : nat) (r : R) (new : list Enemy) (r' : R),
  spawned wv tm ppos fuel n r new r' ->
  forall es, spawn_loop fuel n wv tm ppos es r = Done (es ++ new, r').
Proof.
  intros Hw Hh n r new r' Hs.
  induction Hs as [r|n r t ra k x y rb new r' Ht Hk Hp Hs IH]; intro es;
    cbn [spawn_loop].
  - now rewrite app_nil_r.
  - apply pick_tier_drawn in Ht. rewrite Ht.
    rewrite (placed_sample_pos tm ppos Hw Hh k ra x y rb Hp fuel Hk).
    rewrite IH, <- app_assoc. reflexivity.
Qed.

Lemma placed_cell {RR : RandomRange R} (tm : TileMap) (ppos : Vector2) :
  1 <= tm_w tm - 2 -> 1 <= tm_h tm - 2 ->
  forall (k : nat) (r : R) (x y : Z) (r' : R),
  placed tm ppos k r x y r' ->
  1 <= x <= tm_w tm - 2 /\ 1 <= y <= tm_h tm - 2 /\ acceptable tm ppos x y.
Proof.
  intros Hw Hh k r x y r' Hp.
  induction Hp as [r x y r' Ed Ha|]; [|assumption].
  unfold draw_cell in Ed.
  pose proof (randint_range 1 (tm_w tm - 2) r Hw) as Hx.
  destruct (randint 1 (tm_w tm - 2) r) as [x1 r1].
  pose proof (randint_range 1 (tm_h tm - 2) r1 Hh) as Hy.
  destruct (randint 1 (tm_h tm - 2) r1) as [y1 r2].
  inversion Ed; subst. cbn [fst] in Hx, Hy. auto.
Qed.

Lemma spawned_facts {RR : RandomRange R} (wv : Z) (tm : TileMap) (ppos : Vector2)
  (budget : nat) :
  1 <= tm_w tm - 2 -> 1 <= tm_h tm - 2 ->
  forall (n : nat) (r : R) (new : list Enemy) (r' : R),
  spawned wv tm ppos budget n r new r' ->
  length new = n /\
  Forall (fun e =>
            (wv < 3 -> tier e = 1) /\
            (3 <= wv -> tier e = 2 \/ tier e = 3) /\
            exists x y,
              1 <= x <= tm_w tm - 2 /\ 1 <= y <= tm_h tm - 2 /\
              grid_get (grid tm) x y = Some 0 /\
              pos (e_ent e) = mkVec (inject_Z (x * 48 + 24)) (inject_Z (y * 48 + 24)) /\
              (380 < vlength (vsub (pos (e_ent e)) ppos))%Q) new.
Proof.
  intros Hw Hh n r new r' Hs.
  induction Hs as [r|n r t ra k x y rb new r' Ht Hk Hp Hs [IHl IHf]].
  - split; [reflexivity|constructor].
  - split; [cbn [length]; now rewrite IHl|]. constructor; [|exact IHf].
    destruct (placed_cell tm ppos Hw Hh _ _ _ _ _ Hp) as [Hx [Hy [Hg Hd]]].
    cbn [Enemy_init tier e_ent Entity_init pos].
    split; [|split].
    + intro H3. destruct Ht as [[_ [-> _]]|[H _]]; [reflexivity|lia].
    + intro H3. destruct Ht as [[H _]|[_ [_ [[_ ->]|[_ ->]]]]]; [lia|auto|auto].
    + exists x, y. auto 10.
Qed.

End WaveDirector.

Section WaveResults.
Context {M : MathLib} {R : Type} {RS : RandomSource R} {RR : RandomRange R}.

End WaveResults.

Ltac turn_down :=
  eexists; split;
  [vm_compute; reflexivity
  |first [left; discriminate | right; vm_compute; discriminate]].

Ltac place_cell :=
  first
    [ eapply placed_now;
      [vm_compute; reflexivity
      |split; [vm_compute; reflexivity|vm_compute; reflexivity]]
    | eapply placed_retry; [vm_compute; reflexivity|turn_down|place_cell] ].

Ltac draw_tier :=
  right; split; [vm_compute; discriminate|];
  split; [vm_compute; reflexivity|];
  first [left; split; [vm_compute; reflexivity|reflexivity]
        |right; split; [vm_compute; discriminate|reflexivity]].

Ltac spawn_one :=
  eapply spawned_next; [draw_tier| |place_cell|]; [lia|].


Example spawn_wave_short_budget : spawn_wave 2 third_wave_game = OutOfFuel.
Proof. vm_compute. reflexivity. Qed.

(* ------------------------------------------------------------------ *)
(** ** Lists, ranges and grids *)

Lemma list_set_length {A : Type} (l : list A) (i : nat) (v : A) :
  length (list_set l i v) = length l.
Proof.
  revert i. induction l as [|a l IH]; intros [|i]; simpl; auto.
Qed.

Lemma nth_error_list_set_eq {A : Type} (l : list A) (i : nat) (v : A) :
  (i < length l)%nat -> nth_error (list_set l i v) i = Some v.
Proof.
  revert i. induction l as [|a l IH]; intros [|i] H; simpl in *; try lia.
  - reflexivity.
  - apply IH. lia.
Qed.

Lemma nth_error_list_set_neq {A : Type} (l : list A) (i j : nat) (v : A) :
  i <> j -> nth_error (list_set l i v) j = nth_error l j.
Proof.
  revert i j. induction l as [|a l IH]; intros [|i] [|j] H; simpl; auto.
  - congruence.
Qed.

Lemma py_nth_nonneg {A : Type} (l : list A) (i : Z) :
  0 <= i -> py_nth l i = nth_error l (Z.to_nat i).
Proof.
  intro H. unfold py_nth. destruct (i <? 0) eqn:E; [|reflexivity].
  apply Z.ltb_lt in E. lia.
Qed.

Lemma grid_set_dims (g : list (list Z)) (w h x y v : Z) :
  grid_dims g w h -> grid_dims (grid_set g x y v) w h.
Proof.
  intros [Hl Hr]. unfold grid_set.
  destruct (nth_error g (Z.to_nat y)) as [row|] eqn:E; [|split; assumption].
  split; [now rewrite list_set_length|].
  assert (Hrow : length (list_set row (Z.to_nat x) v) = Z.to_nat w).
  { rewrite list_set_length.
    rewrite Forall_forall in Hr. apply Hr. eapply nth_error_In; eassumption. }
  clear E. revert Hr Hrow. generalize (list_set row (Z.to_nat x) v) as row'.
  generalize (Z.to_nat y) as n. clear.
  induction g as [|a g IH]; intros [|n] row' Hr Hrow; simpl; auto.
  - inversion Hr; subst. constructor; assumption.
  - inversion Hr; subst. constructor; [assumption|]. apply IH; assumption.
Qed.

Lemma grid_get_set_eq (g : list (list Z)) (w h x y v : Z) :
  grid_dims g w h -> 0 <= x < w -> 0 <= y < h ->
  grid_get (grid_set g x y v) x y = Some v.
Proof.
  intros [Hl Hr] Hx Hy. unfold grid_get, grid_set.
  destruct (nth_error g (Z.to_nat y)) as [row|] eqn:E.
  - rewrite py_nth_nonneg by lia.
    rewrite nth_error_list_set_eq by lia.
    rewrite py_nth_nonneg by lia.
    apply nth_error_list_set_eq.
    rewrite Forall_forall in Hr.
    rewrite (Hr row) by (eapply nth_error_In; eassumption). lia.
  - apply nth_error_None in E. lia.
Qed.

Lemma grid_get_set_neq (g : list (list Z)) (x y x' y' v : Z) :
  0 <= x -> 0 <= y -> 0 <= x' -> 0 <= y' -> (x <> x' \/ y <> y') ->
  grid_get (grid_set g x' y' v) x y = grid_get g x y.
Proof.
  intros Hx Hy Hx' Hy' Hne. unfold grid_get, grid_set.
  destruct (nth_error g (Z.to_nat y')) as [row|] eqn:E; [|reflexivity].
  rewrite !(py_nth_nonneg _ y) by lia.
  destruct (Z.eq_dec y y') as [->|Hyy].
  - rewrite nth_error_list_set_eq by (apply nth_error_Some; congruence).
    rewrite E. rewrite !py_nth_nonneg by lia.
    apply nth_error_list_set_neq. intro K. apply Z2Nat.inj in K; lia.
  - rewrite nth_error_list_set_neq; [reflexivity|].
    intro K. apply Z2Nat.inj in K; lia.
Qed.

Lemma blank_grid_dims (w h : Z) :
  grid_dims (repeat (repeat 0 (Z.to_nat w)) (Z.to_nat h)) w h.
Proof.
  split; [apply repeat_length|].
  apply Forall_forall. intros row Hin. apply repeat_spec in Hin. subst row.
  apply repeat_length.
Qed.

Lemma range_cons (a b : Z) : a < b -> range a b = a :: range (a + 1) b.
Proof.
  intro H. unfold range.
  replace (Z.to_nat (b - a)) with (S (Z.to_nat (b - (a + 1)))) by lia.
  cbn [seq map]. f_equal; [lia|].
  rewrite <- seq_shift, map_map. apply map_ext. intro i. lia.
Qed.

Lemma range_nil (a b : Z) : b <= a -> range a b = [].
Proof.
  intro H. unfold range. replace (Z.to_nat (b - a)) with O by lia. reflexivity.
Qed.

(** The invariant rule for [for i in range(a, b)]. *)
Lemma for_each_range_inv {S : Type} (P : Z -> S -> Prop) (body : Z -> S -> S) (b : Z) :
  forall (a : Z) (s : S),
  a <= b -> P a s ->
  (forall i s, a <= i < b -> P i s -> P (i + 1) (body i s)) ->
  P b (for_each (range a b) body s).
Proof.
  intros a s Hab. remember (Z.to_nat (b - a)) as n eqn:Hn.
  revert a s Hab Hn. induction n as [|n IH]; intros a s Hab Hn H0 Hstep.
  - assert (a = b) by lia. subst a. rewrite range_nil by lia. exact H0.
  - rewrite range_cons by lia. unfold for_each. cbn [fold_left].
    apply (IH (a + 1)); try lia.
    + apply Hstep; [lia|exact H0].
    + intros i s' Hi. apply Hstep. lia.
Qed.

Lemma in_plazab_true (w h x y : Z) : in_plazab w h x y = true <-> in_plaza w h x y.
Proof.
  unfold in_plazab, in_plaza.
  rewrite !andb_true_iff, !Z.leb_le, !Z.ltb_lt. tauto.
Qed.

Lemma in_plazab_false (w h x y : Z) : in_plazab w h x y = false <-> ~ in_plaza w h x y.
Proof.
  rewrite <- in_plazab_true. destruct (in_plazab w h x y); split; congruence.
Qed.

(* ------------------------------------------------------------------ *)
(** ** Arena generation: the first pass *)

Lemma draws_before_row_nonneg (w h i : Z) : 0 <= draws_before_row w h i.
Proof. unfold draws_before_row. apply Z.mul_nonneg_nonneg; lia. Qed.

Lemma draws_in_row_nonneg (w h y j : Z) : 0 <= draws_in_row w h y j.
Proof. unfold draws_in_row. destruct (_ && _); lia. Qed.

Lemma draws_in_row_start (w h y : Z) : draws_in_row w h y 0 = 0.
Proof. unfold draws_in_row. destruct (_ && _); lia. Qed.

Lemma draws_before_row_start (w h : Z) : draws_before_row w h 0 = 0.
Proof.
  unfold draws_before_row.
  replace (Z.max 0 (Z.min (0 - 1) (h - 2))) with 0 by lia. apply Z.mul_0_r.
Qed.

Lemma draws_before_row_next (w h i : Z) :
  draws_before_row w h (i + 1) = draws_before_row w h i + draws_in_row w h i w.
Proof.
  unfold draws_before_row, draws_in_row.
  destruct ((0 <? i) && (i <? h - 1)) eqn:E.
  - apply andb_true_iff in E. destruct E as [E1 E2].
    apply Z.ltb_lt in E1. apply Z.ltb_lt in E2.
    replace (Z.max 0 (Z.min (i + 1 - 1) (h - 2)))
      with (Z.max 0 (Z.min (i - 1) (h - 2)) + 1) by lia.
    replace (Z.max 0 (Z.min (w - 1) (w - 2))) with (Z.max 0 (w - 2)) by lia.
    ring.
  - apply andb_false_iff in E. rewrite !Z.ltb_ge in E.
    replace (Z.max 0 (Z.min (i + 1 - 1) (h - 2)))
      with (Z.max 0 (Z.min (i - 1) (h - 2))) by lia.
    ring.
Qed.

Lemma draws_at_interior (w h x y : Z) :
  0 < x < w - 1 -> 0 < y < h - 1 ->
  Z.to_nat (draws_before_row w h y + draws_in_row w h y x) = draw_index w x y.
Proof.
  intros Hx Hy. unfold draws_before_row, draws_in_row, draw_index.
  replace ((0 <? y) && (y <? h - 1)) with true
    by (symmetry; apply andb_true_iff; split; apply Z.ltb_lt; lia).
  replace (Z.max 0 (w - 2)) with (w - 2) by lia.
  replace (Z.max 0 (Z.min (y - 1) (h - 2))) with (y - 1) by lia.
  replace (Z.max 0 (Z.min (x - 1) (w - 2))) with (x - 1) by lia.
  f_equal. ring.
Qed.

Lemma draws_in_row_border (w h y j : Z) :
  0 <= j < w -> on_border w h j y ->
  draws_in_row w h y (j + 1) = draws_in_row w h y j.
Proof.
  intros Hj Hb. unfold draws_in_row, on_border in *.
  destruct ((0 <? y) && (y <? h - 1)) eqn:E; [|reflexivity].
  apply andb_true_iff in E. destruct E as [E1 E2].
  apply Z.ltb_lt in E1. apply Z.ltb_lt in E2. lia.
Qed.

Lemma draws_in_row_interior (w h y j : Z) :
  0 <= j < w -> ~ on_border w h j y -> 0 <= y < h ->
  draws_in_row w h y (j + 1) = draws_in_row w h y j + 1.
Proof.
  intros Hj Hb Hy. unfold draws_in_row, on_border in *.
  replace ((0 <? y) && (y <? h - 1)) with true
    by (symmetry; apply andb_true_iff; split; apply Z.ltb_lt; lia).
  lia.
Qed.

Lemma border_test (w h x y : Z) :
  (x =? 0) || (x =? w - 1) || (y =? 0) || (y =? h - 1) = true <-> on_border w h x y.
Proof.
  unfold on_border. rewrite !orb_true_iff, !Z.eqb_eq. tauto.
Qed.

Section FillPass.
Context {R : Type} {RS : RandomSource R}.
Variables (w h : Z) (r0 : R).

Lemma fill_cell_step (y j : Z) (st : list (list Z) * R) :
  0 <= y < h -> 0 <= j < w ->
  fill_row_inv w h r0 y j st ->
  fill_row_inv w h r0 y (j + 1) (fill_cell w h y j st).
Proof.
  intros Hy Hj [Hd [Hr [Hprev Hrow]]]. destruct st as [g r]. simpl in *.
  unfold fill_cell.
  destruct ((j =? 0) || (j =? w - 1) || (y =? 0) || (y =? h - 1)) eqn:Eb.
  - pose proof (proj1 (border_test w h j y) Eb) as Hb.
    split; [apply grid_set_dims; exact Hd|]. simpl.
    split; [rewrite (draws_in_row_border w h y j Hj Hb); exact Hr|].
    split.
    + intros x y' Hx Hy'. rewrite grid_get_set_neq by lia. apply Hprev; lia.
    + intros x Hx. destruct (Z.eq_dec x j) as [->|Hne].
      * rewrite (grid_get_set_eq g w h) by (assumption || lia).
        unfold fill_value. rewrite Eb. reflexivity.
      * rewrite grid_get_set_neq by lia. apply Hrow. lia.
  - assert (Hb : ~ on_border w h j y).
    { intro K. apply border_test in K. congruence. }
    assert (Hin : 0 < j < w - 1 /\ 0 < y < h - 1) by (unfold on_border in Hb; lia).
    pose proof (draws_at_interior w h j y (proj1 Hin) (proj2 Hin)) as Hidx.
    pose proof (draws_before_row_nonneg w h y) as Hn1.
    pose proof (draws_in_row_nonneg w h y j) as Hn2.
    destruct (random r) as [u r'] eqn:Er.
    split; [apply grid_set_dims; exact Hd|]. simpl.
    split.
    + rewrite (draws_in_row_interior w h y j Hj Hb Hy).
      replace (Z.to_nat (draws_before_row w h y + (draws_in_row w h y j + 1)))
        with (S (Z.to_nat (draws_before_row w h y + draws_in_row w h y j))) by lia.
      rewrite skip_succ, <- Hr, Er. reflexivity.
    + split.
      * intros x y' Hx Hy'. rewrite grid_get_set_neq by lia. apply Hprev; lia.
      * intros x Hx. destruct (Z.eq_dec x j) as [->|Hne].
        -- rewrite (grid_get_set_eq g w h) by (assumption || lia).
           unfold fill_value. rewrite Eb, <- Hidx, <- Hr, Er. reflexivity.
        -- rewrite grid_get_set_neq by lia. apply Hrow. lia.
Qed.

Lemma fill_row_step (i : Z) (st : list (list Z) * R) :
  0 <= w -> 0 <= i < h ->
  fill_inv w h r0 i st -> fill_inv w h r0 (i + 1) (fill_row w h i st).
Proof.
  intros Hw Hi [Hd [Hr Hprev]].
  assert (Hfin : fill_row_inv w h r0 i w (fill_row w h i st)).
  { unfold fill_row. apply for_each_range_inv with (P := fill_row_inv w h r0 i).
    - exact Hw.
    - split; [exact Hd|]. split; [|split].
      + rewrite draws_in_row_start, Z.add_0_r. exact Hr.
      + exact Hprev.
      + intros x Hx. lia.
    - intros j s Hj Hs. apply fill_cell_step; assumption. }
  destruct Hfin as [Hd' [Hr' [Hprev' Hrow']]].
  split; [exact Hd'|]. split.
  - rewrite draws_before_row_next. exact Hr'.
  - intros x y Hx Hy. destruct (Z.eq_dec y i) as [->|Hne].
    + apply Hrow'. exact Hx.
    + apply Hprev'; lia.
Qed.

Lemma fill_spec (g0 : list (list Z)) :
  0 <= w -> 0 <= h -> grid_dims g0 w h ->
  fill_inv w h r0 h (fill w h (g0, r0)).
Proof.
  intros Hw Hh Hd. unfold fill.
  apply for_each_range_inv with (P := fill_inv w h r0).
  - exact Hh.
  - split; [exact Hd|]. split.
    + rewrite draws_before_row_start. reflexivity.
    + intros x y Hx Hy. lia.
  - intros i s Hi Hs. apply fill_row_step; assumption.
Qed.
End FillPass.

(* ------------------------------------------------------------------ *)
(** ** Arena generation: the carving and the result *)

Ltac zbool :=
  repeat match goal with
  | |- context [?a <? ?b] => destruct (Z.ltb_spec a b)
  | |- context [?a =? ?b] => destruct (Z.eqb_spec a b)
  end; simpl; try reflexivity; try lia.

Lemma carved_step (w h i j x y : Z) :
  x <> j \/ y <> i \/ in_plazab w h x y = false ->
  carved_before w h i (j + 1) x y = carved_before w h i j x y.
Proof.
  intro H. unfold carved_before.
  destruct (in_plazab w h x y) eqn:E; [|reflexivity].
  cbn [andb]. destruct H as [H | [H | H]]; [| |discriminate]; zbool.
Qed.

Lemma carved_here (w h i j : Z) :
  in_plaza w h j i -> carved_before w h i (j + 1) j i = true.
Proof.
  intro H. unfold carved_before. rewrite (proj2 (in_plazab_true w h j i) H).
  cbn [andb]. zbool.
Qed.

Lemma carved_next_row (w h i x y : Z) :
  carved_before w h i (w / 2 + 8) x y = carved_before w h (i + 1) (w / 2 - 7) x y.
Proof.
  unfold carved_before.
  destruct (in_plazab w h x y) eqn:E; [|reflexivity].
  apply in_plazab_true in E. unfold in_plaza in E. cbn [andb]. zbool.
Qed.

Lemma carved_none (w h x y : Z) :
  carved_before w h (h / 2 - 5) (w / 2 - 7) x y = false.
Proof.
  unfold carved_before.
  destruct (in_plazab w h x y) eqn:E; [|reflexivity].
  apply in_plazab_true in E. unfold in_plaza in E. cbn [andb]. zbool.
Qed.

Lemma carved_all (w h x y : Z) :
  carved_before w h (h / 2 + 6) (w / 2 - 7) x y = in_plazab w h x y.
Proof.
  unfold carved_before.
  destruct (in_plazab w h x y) eqn:E; [|reflexivity].
  apply in_plazab_true in E. unfold in_plaza in E. cbn [andb]. zbool.
Qed.

Lemma carve_cell_step (w h : Z) (g0 : list (list Z)) (i j : Z) (g : list (list Z)) :
  h / 2 - 5 <= i < h / 2 + 6 -> w / 2 - 7 <= j < w / 2 + 8 ->
  carve_inv w h g0 i j g -> carve_inv w h g0 i (j + 1) (carve_cell w h i j g).
Proof.
  intros Hi Hj [Hd Hcells]. unfold carve_cell.
  destruct ((0 <? j) && (j <? w - 1) && (0 <? i) && (i <? h - 1)) eqn:Eg.
  - rewrite !andb_true_iff, !Z.ltb_lt in Eg.
    assert (Hp : in_plaza w h j i) by (unfold in_plaza; lia).
    split; [apply grid_set_dims; exact Hd|].
    intros x y Hx Hy.
    destruct (Z.eq_dec x j) as [->|Hxj]; [destruct (Z.eq_dec y i) as [->|Hyi]|].
    + rewrite (grid_get_set_eq g w h) by (assumption || lia).
      now rewrite carved_here.
    + rewrite grid_get_set_neq by lia. rewrite carved_step by auto. now apply Hcells.
    + rewrite grid_get_set_neq by lia. rewrite carved_step by auto. now apply Hcells.
  - split; [exact Hd|]. intros x y Hx Hy.
    rewrite carved_step; [now apply Hcells|].
    destruct (in_plazab w h x y) eqn:E; [|auto].
    apply in_plazab_true in E. unfold in_plaza in E.
    rewrite !andb_false_iff, !Z.ltb_ge in Eg. lia.
Qed.

Lemma carve_spec (w h : Z) (g0 : list (list Z)) :
  grid_dims g0 w h ->
  grid_dims (carve w h g0) w h /\
  forall x y, 0 <= x < w -> 0 <= y < h ->
    grid_get (carve w h g0) x y
      = if in_plazab w h x y then Some 0 else grid_get g0 x y.
Proof.
  intro Hd. unfold carve.
  assert (H : carve_inv w h g0 (h / 2 + 6) (w / 2 - 7)
                (for_each (range (h / 2 - 5) (h / 2 + 6))
                   (fun y => for_each (range (w / 2 - 7) (w / 2 + 8)) (carve_cell w h y))
                   g0)).
  { apply for_each_range_inv with (P := fun i g => carve_inv w h g0 i (w / 2 - 7) g).
    - lia.
    - split; [exact Hd|]. intros x y Hx Hy. now rewrite carved_none.
    - intros i g Hi Hg.
      assert (Hrow : carve_inv w h g0 i (w / 2 + 8)
                (for_each (range (w / 2 - 7) (w / 2 + 8)) (carve_cell w h i) g)).
      { apply for_each_range_inv with (P := fun j g => carve_inv w h g0 i j g).
        - lia.
        - exact Hg.
        - intros j g' Hj Hg'. apply carve_cell_step; assumption. }
      destruct Hrow as [Hd' Hc']. split; [exact Hd'|].
      intros x y Hx Hy. rewrite <- carved_next_row. now apply Hc'. }
  destruct H as [Hd' Hc']. split; [exact Hd'|].
  intros x y Hx Hy. rewrite <- carved_all. now apply Hc'.
Qed.

Section GenerateResult.
Context {R : Type} {RS : RandomSource R}.

(** Every cell of the generated grid. *)
Lemma generate_grid (w h tile : Z) (r : R) (x y : Z) :
  0 <= x < w -> 0 <= y < h ->
  grid_get (grid (fst (TileMap_init w h tile r))) x y
    = if in_plazab w h x y then Some 0 else Some (fill_value w h r x y).
Proof.
  intros Hx Hy. unfold TileMap_init, generate. cbn [tm_w tm_h tm_tile grid wall_rects].
  pose proof (fill_spec w h r (repeat (repeat 0 (Z.to_nat w)) (Z.to_nat h))
                ltac:(lia) ltac:(lia) (blank_grid_dims w h)) as [Hd [_ Hcells]].
  destruct (fill w h _) as [g1 r1]. cbn [fst snd] in *.
  cbn [rebuild_wall_rects grid fst].
  destruct (carve_spec w h g1 Hd) as [_ Hc].
  rewrite Hc by assumption. rewrite Hcells by assumption. reflexivity.
Qed.
End GenerateResult.

Section GeneratedArena.
Context {R : Type} {RS : RandomSource R}.

(** C2 (amended).  In the grid [TileMap(w, h, tile)] generates, for every
    generator state: every cell of the outer ring is Solid; every cell of
    the plaza (the interior cells among columns [w/2 - 7 .. w/2 + 7] and rows
    [h/2 - 5 .. h/2 + 5]) is Open; every other interior cell is Solid exactly
    when its own draw, the one numbered by its rank among the interior
    cells in row-major order, is below 0.06.  For the 48 x 30 arena of the
    game the plaza is columns 17..31 by rows 10..20: 15 x 11 cells. *)
Theorem generate_border_fill_plaza (w h tile : Z) (r : R) (x y : Z) :
  0 <= x < w -> 0 <= y < h ->
  let g := grid (fst (TileMap_init w h tile r)) in
  (on_border w h x y -> grid_get g x y = Some 1) /\
  (in_plaza w h x y -> grid_get g x y = Some 0) /\
  (~ on_border w h x y -> ~ in_plaza w h x y ->
     grid_get g x y
       = Some (if Qltb (fst (random (skip (draw_index w x y) r))) (6 # 100)
               then 1 else 0)) /\
  (forall x' y', in_plaza MAP_W MAP_H x' y' <-> 17 <= x' <= 31 /\ 10 <= y' <= 20).
Proof.
  intros Hx Hy g. unfold g.
  split; [|split; [|split]].
  - intro Hb. rewrite generate_grid by assumption.
    replace (in_plazab w h x y) with false.
    + unfold fill_value. now rewrite (proj2 (border_test w h x y) Hb).
    + symmetry. apply in_plazab_false. unfold in_plaza, on_border in *. lia.
  - intro Hp. rewrite generate_grid by assumption.
    now rewrite (proj2 (in_plazab_true w h x y) Hp).
  - intros Hb Hp. rewrite generate_grid by assumption.
    rewrite (proj2 (in_plazab_false w h x y) Hp).
    unfold fill_value.
    destruct ((x =? 0) || (x =? w - 1) || (y =? 0) || (y =? h - 1)) eqn:E;
      [|reflexivity].
    apply border_test in E. contradiction.
  - intros x' y'. unfold in_plaza, MAP_W, MAP_H.
    change (48 / 2) with 24. change (30 / 2) with 15. lia.
Qed.
End GeneratedArena.

Lemma generate_border_fill_plaza_witness :
  grid_get (grid lcg_arena) 0 7 = Some 1 /\
  grid_get (grid lcg_arena) 24 15 = Some 0 /\
  grid_get (grid lcg_arena) 3 2
    = Some (if Qltb (fst (random (skip 48 (1 : Z)))) (6 # 100) then 1 else 0).
Proof.
  split; [|split].
  - apply (generate_border_fill_plaza MAP_W MAP_H TILE (1 : Z) 0 7);
      [vm_compute; split; congruence | vm_compute; split; congruence |].
    left. reflexivity.
  - apply (generate_border_fill_plaza MAP_W MAP_H TILE (1 : Z) 24 15);
      [vm_compute; split; congruence | vm_compute; split; congruence |].
    vm_compute. repeat split; congruence.
  - apply (generate_border_fill_plaza MAP_W MAP_H TILE (1 : Z) 3 2);
      [vm_compute; split; congruence | vm_compute; split; congruence | |].
    + unfold on_border, MAP_W, MAP_H. lia.
    + unfold in_plaza, MAP_W, MAP_H. change (48 / 2) with 24. change (30 / 2) with 15. lia.
Defined.

(** C2 as stated fails on the size of the plaza: the carving spans 11
    rows, not 13.  In the arena generated from the linear congruential
    source with seed 1 the centred 15 x 13 region (columns 17..31, rows
    9..21) holds a Solid cell, no 15 x 13 block anywhere in the grid is
    fully Open, and the 15 x 11 region (rows 10..20) is. *)
Lemma generate_plaza_15x13_counterexample :
  block_open (grid lcg_arena) 17 9 15 13 = false /\
  grid_get (grid lcg_arena) 29 9 = Some 1 /\
  has_open_block (grid lcg_arena) MAP_W MAP_H 15 13 = false /\
  block_open (grid lcg_arena) 17 10 15 11 = true.
Proof.
  vm_compute. repeat split.
Qed.

(* ================================================================== *)
(** * Further properties of the simulation *)

(* ------------------------------------------------------------------ *)
(** ** The helper [clamp] *)

(** X1.  [clamp(v, a, b)] with [a <= b] lies in [[a, b]], returns [v] when
    [v] is already there, and the nearer bound otherwise. *)
Theorem clamp_bounds (v a b : Z) :
  a <= b ->
  a <= clamp v a b <= b /\
  (a <= v <= b -> clamp v a b = v) /\
  (v < a -> clamp v a b = a) /\
  (b < v -> clamp v a b = b).
Proof.
  unfold clamp. intro H. repeat split; lia.
Qed.

Lemma clamp_bounds_witness :
  clamp 200 0 150 = 150 /\ clamp (-3) 0 150 = 0 /\ clamp 42 0 150 = 42.
Proof.
  destruct (clamp_bounds 200 0 150) as [_ [_ [_ H1]]]; [lia|].
  destruct (clamp_bounds (-3) 0 150) as [_ [_ [H2 _]]]; [lia|].
  destruct (clamp_bounds 42 0 150) as [_ [H3 _]]; [lia|].
  split; [apply H1; lia|]. split; [apply H2; lia|apply H3; lia].
Defined.

(* ------------------------------------------------------------------ *)
(** ** Camera *)

Lemma Camera_update_offset (c : Camera) (t : Vector2) :
  offset (Camera_update c t)
    = vadd (offset c) (vscale (vsub (desired_offset t) (offset c)) (15 # 100)).
Proof. reflexivity. Qed.

Lemma Camera_update_error (c : Camera) (t : Vector2) :
  veq (vsub (offset (Camera_update c t)) (desired_offset t))
      (vscale (vsub (offset c) (desired_offset t)) (85 # 100)).
Proof.
  rewrite Camera_update_offset. generalize (desired_offset t) as d. intro d.
  unfold veq, vsub, vadd, vscale. simpl. split; ring.
Qed.

(** X2.  Following a fixed target, every [Camera.update] shrinks the
    distance between the offset and the offset that centres the target by
    the factor 0.85 on each axis: after [n] updates the error is the
    initial error times [0.85 ^ n].  The camera lags and never
    overshoots. *)
Theorem Camera_follow_error (c : Camera) (t : Vector2) (n : nat) :
  veq (vsub (offset (Nat.iter n (fun c' => Camera_update c' t) c)) (desired_offset t))
      (vscale (vsub (offset c) (desired_offset t)) (qpow (85 # 100) n)).
Proof.
  induction n as [|n IH].
  - unfold veq, vscale, vsub. simpl. split; ring.
  - change (Nat.iter (S n) (fun c' => Camera_update c' t) c)
      with (Camera_update (Nat.iter n (fun c' => Camera_update c' t) c) t).
    destruct (Camera_update_error (Nat.iter n (fun c' => Camera_update c' t) c) t)
      as [Ex Ey].
    destruct IH as [Hx Hy].
    unfold veq in *. cbn [vx vy vscale qpow] in *.
    split.
    + rewrite Ex, Hx. ring.
    + rewrite Ey, Hy. ring.
Qed.

Section CameraShake.
Context {R : Type} {RS : RandomSource R} {RR : RandomRange R}.

Lemma uniform_range (a b : Q) (r : R) :
  (a <= b)%Q -> (a <= fst (uniform a b r))%Q /\ (fst (uniform a b r) <= b)%Q.
Proof.
  intro Hab. unfold uniform.
  destruct (random_range r) as [H0 H1].
  destruct (random r) as [u r']. simpl in *. split; nra.
Qed.

(** X3.  The point [Camera.apply] returns is never further than the shake
    magnitude from the unshaken point [pos - offset], on either axis,
    whether a shake is armed or not. *)
Theorem Camera_apply_within_magnitude (c : Camera) (p : Vector2) (r : R) :
  0 <= shake_mag c ->
  let q := fst (Camera_apply c p r) in
  let m := inject_Z (shake_mag c) in
  (- m <= vx q - (vx p - vx (offset c)) /\ vx q - (vx p - vx (offset c)) <= m)%Q /\
  (- m <= vy q - (vy p - vy (offset c)) /\ vy q - (vy p - vy (offset c)) <= m)%Q.
Proof.
  intros Hm q m.
  assert (Hm0 : (0 <= m)%Q).
  { unfold m. rewrite <- (Zle_Qle 0). exact Hm. }
  unfold q, Camera_apply, Camera_jitter.
  destruct (0 <? shake_frames c).
  - fold m.
    assert (Hab : (- m <= m)%Q) by lra.
    pose proof (uniform_range (- m) m r Hab) as [X1 X2].
    destruct (uniform (- m) m r) as [jx r1].
    pose proof (uniform_range (- m) m r1 Hab) as [Y1 Y2].
    destruct (uniform (- m) m r1) as [jy r2].
    unfold apply_jitter, vadd, vsub. simpl in *. repeat split; lra.
  - unfold apply_jitter, vadd, vsub. simpl. repeat split; lra.
Qed.
End CameraShake.

Lemma Camera_apply_within_magnitude_witness :
  let q := fst (Camera_apply shaking_camera (mkVec 1000 500) (7 : Z)) in
  (- 6 <= vx q - (1000 - (1024 # 3)))%Q /\ (vx q - (1000 - (1024 # 3)) <= 6)%Q.
Proof.
  destruct (Camera_apply_within_magnitude shaking_camera (mkVec 1000 500) (7 : Z))
    as [Hx _]; [vm_compute; discriminate|].
  exact Hx.
Defined.

Lemma Camera_updates_shake (ts : list Vector2) :
  forall c : Camera,
  shake_frames (fold_left Camera_update ts c)
    = run_down (shake_frames c) (length ts) /\
  shake_mag (fold_left Camera_update ts c) = shake_mag c.
Proof.
  induction ts as [|t ts IH]; intro c.
  - unfold run_down. simpl. split; [lia|reflexivity].
  - cbn [fold_left length]. destruct (IH (Camera_update c t)) as [H1 H2].
    rewrite H1, H2. unfold Camera_update, run_down. cbn [shake_frames shake_mag].
    split; [|reflexivity].
    destruct (0 <? shake_frames c) eqn:E;
      [apply Z.ltb_lt in E|apply Z.ltb_ge in E]; lia.
Qed.

Section ShakeExpires.
Context {R : Type} {RS : RandomSource R}.

(** X4.  A shake armed for [n] frames is over after [n] camera updates,
    whatever the camera follows: the counter is 0, and from then on
    [Camera.apply] is the plain translation by the offset and draws
    nothing from the generator. *)
Theorem shake_expires (c : Camera) (frames mag : Z) (ts : list Vector2) :
  0 <= frames <= Z.of_nat (length ts) ->
  let c' := fold_left Camera_update ts (Camera_shake c frames mag) in
  shake_frames c' = 0 /\
  forall (p : Vector2) (r : R),
    snd (Camera_apply c' p r) = r /\
    veq (fst (Camera_apply c' p r)) (vsub p (offset c')).
Proof.
  intros H c'.
  assert (H0 : shake_frames c' = 0).
  { unfold c'. rewrite (proj1 (Camera_updates_shake ts _)).
    unfold run_down, Camera_shake. cbn [shake_frames]. lia. }
  split; [exact H0|]. intros p r.
  unfold Camera_apply, Camera_jitter. rewrite H0. cbn [Z.ltb Z.compare fst snd].
  split; [reflexivity|].
  unfold veq, apply_jitter, vadd, vsub. simpl. split; ring.
Qed.
End ShakeExpires.

Lemma shake_expires_witness :
  let c' :=
    fold_left Camera_update
      [mkVec 1000 500; mkVec 1004 500; mkVec 1008 500]
      (Camera_shake still_camera 3 9) in
  shake_frames c' = 0 /\
  snd (Camera_apply c' (mkVec 1000 500) (7 : Z)) = 7.
Proof.
  destruct (shake_expires (R := Z) still_camera 3 9
              [mkVec 1000 500; mkVec 1004 500; mkVec 1008 500]) as [H0 H];
    [simpl; lia|].
  split; [exact H0|]. apply (H (mkVec 1000 500) 7).
Defined.

(* ------------------------------------------------------------------ *)
(** ** The player's timers *)

Lemma run_down_step (x : Z) (k : nat) :
  (if 0 <? run_down x k then run_down x k - 1 else run_down x k)
    = run_down x (S k).
Proof.
  unfold run_down.
  destruct (0 <? Z.min x (Z.max 0 (x - Z.of_nat k))) eqn:E;
    [apply Z.ltb_lt in E|apply Z.ltb_ge in E]; lia.
Qed.

(** [k] calls of [update_cooldowns]: the three plain timers run down, and
    nothing but the timers and the magazines can have changed. *)
Lemma cooldowns_after (k : nat) (p : Player) :
  let p' := Nat.iter k update_cooldowns p in
  invuln p' = run_down (invuln p) k /\
  dash_cd p' = run_down (dash_cd p) k /\
  fire_cd p' = run_down (fire_cd p) k /\
  hp p' = hp p /\ p_ent p' = p_ent p /\ weapon p' = weapon p /\
  mag p' = mag p /\ rpm p' = rpm p /\ max_hp p' = max_hp p /\ p_speed p' = p_speed p.
Proof.
  induction k as [|k IH]; cbn zeta.
  - unfold run_down. simpl. repeat split; lia.
  - change (Nat.iter (S k) update_cooldowns p)
      with (update_cooldowns (Nat.iter k update_cooldowns p)).
    destruct IH as [H1 [H2 [H3 [H4 [H5 [H6 [H7 [H8 [H9 H10]]]]]]]]].
    set (q := Nat.iter k update_cooldowns p) in *.
    unfold update_cooldowns.
    destruct (if 0 <? reload_time q then _ else _) as [t a].
    cbn [invuln dash_cd fire_cd hp p_ent weapon mag rpm max_hp p_speed].
    rewrite H1, H2, H3, !run_down_step. auto 10.
Qed.

(** X5.  After a hit that lands, the next 24 ticks of [update_cooldowns]
    leave the player invulnerable: [damage] changes nothing and the hit
    points stay where the hit left them.  On the 25th tick the timer is 0
    and damage lands again. *)
Theorem invulnerability_window (p : Player) (amt amt' : Z) (k : nat) :
  invuln p <= 0 ->
  (k < 25)%nat ->
  let hit := damage p amt in
  let later := Nat.iter k update_cooldowns hit in
  let after := Nat.iter 25 update_cooldowns hit in
  damage later amt' = later /\ hp later = hp p - amt /\
  invuln after = 0 /\ hp (damage after amt') = hp p - amt - amt'.
Proof.
  intros Hi Hk hit later after.
  assert (Hhit : invuln hit = 25 /\ hp hit = hp p - amt).
  { unfold hit, damage. destruct (0 <? invuln p) eqn:E; [apply Z.ltb_lt in E; lia|].
    split; reflexivity. }
  destruct Hhit as [Hinv Hhp].
  destruct (cooldowns_after k hit) as [K1 [_ [_ [K4 _]]]]. fold later in K1, K4.
  destruct (cooldowns_after 25 hit) as [A1 [_ [_ [A4 _]]]]. fold after in A1, A4.
  rewrite Hinv in K1, A1. unfold run_down in K1, A1.
  split; [|split; [|split]].
  - unfold damage. destruct (0 <? invuln later) eqn:E; [reflexivity|].
    apply Z.ltb_ge in E. lia.
  - lia.
  - lia.
  - unfold damage. destruct (0 <? invuln after) eqn:E; [apply Z.ltb_lt in E; lia|].
    cbn [hp]. lia.
Qed.

Lemma invulnerability_window_witness :
  let hit := damage (Player_init (mkVec 100 100)) 12 in
  hp (damage (Nat.iter 10 update_cooldowns hit) 12) = 138 /\
  hp (damage (Nat.iter 25 update_cooldowns hit) 12) = 126.
Proof.
  destruct (invulnerability_window (Player_init (mkVec 100 100)) 12 12 10)
    as [H1 [H2 [_ H4]]]; [simpl; lia|lia|].
  split; [rewrite H1; exact H2|exact H4].
Defined.

(* ------------------------------------------------------------------ *)
(** ** Dash, fire rate and reload as timed actions *)

Section TimedActions.
Context {M : MathLib} {R : Type} {RS : RandomSource R}.

Lemma burst_appends (n : nat) (p : Vector2) (m : Q) (life : Z) (c : Color)
  (parts : list Particle) (r : R) :
  exists new, fst (burst n p m life c parts r) = parts ++ new /\ length new = n.
Proof.
  unfold burst.
  pose proof (repeat_gen_length n (gen_particle p m life c) r) as H.
  destruct (repeat_gen n (gen_particle p m life c) r) as [l r'].
  exists l. split; [reflexivity|exact H].
Qed.

(** X6.  An accepted dash (cooldown run out, nonzero velocity) moves the
    player by 140 units along its velocity without consulting the arena,
    re-centres its rectangle on the new position rounded to the nearest
    integers, keeps velocity, hit points and magazines, sets the cooldown
    to 50, arms the shake (6, 5) and adds 16 particles.  During the next
    49 ticks a further dash request is a no-op; after 50 ticks the
    cooldown is 0 again. *)
Theorem dash_then_cooldown (p : Player) (c : Camera) (parts : list Particle) (r : R) :
  dash_cd p <= 0 ->
  (0 < length_squared (vel (p_ent p)))%Q ->
  let '(p', c', parts', r') := try_dash p c parts r in
  pos (p_ent p') = vadd (pos (p_ent p)) (vscale (normalize (vel (p_ent p))) 140) /\
  rect (p_ent p')
    = mkRect (round_half_away (vx (pos (p_ent p'))) - Z.quot (rw (rect (p_ent p))) 2)
             (round_half_away (vy (pos (p_ent p'))) - Z.quot (rh (rect (p_ent p))) 2)
             (rw (rect (p_ent p))) (rh (rect (p_ent p))) /\
  vel (p_ent p') = vel (p_ent p) /\ hp p' = hp p /\ ammo p' = ammo p /\
  dash_cd p' = 50 /\ c' = Camera_shake c 6 5 /\
  (exists new, parts' = parts ++ new /\ length new = 16%nat) /\
  (forall (k : nat) c2 parts2 (r2 : R), (k < 50)%nat ->
     try_dash (Nat.iter k update_cooldowns p') c2 parts2 r2
       = (Nat.iter k update_cooldowns p', c2, parts2, r2)) /\
  dash_cd (Nat.iter 50 update_cooldowns p') = 0.
Proof.
  intros Hcd Hv. unfold try_dash.
  replace (dash_cd p <=? 0) with true by (symmetry; apply Z.leb_le; exact Hcd).
  rewrite (proj2 (Qltb_lt _ _) Hv). cbn [andb].
  destruct (burst_appends 16
              (vadd (pos (p_ent p)) (vscale (normalize (vel (p_ent p))) 140))
              4 18 ColWall parts r) as [new [Hn Hl]].
  destruct (burst 16 _ 4 18 ColWall parts r) as [parts' r']. cbn [fst] in Hn.
  set (p' := mkPlayer _ _ _ _ _ 50 _ _ _ _ _ _).
  repeat split.
  - exists new. split; assumption.
  - intros k c2 parts2 r2 Hk.
    destruct (cooldowns_after k p') as [_ [K2 _]].
    unfold try_dash.
    replace (dash_cd (Nat.iter k update_cooldowns p') <=? 0) with false;
      [reflexivity|].
    symmetry. apply Z.leb_gt. rewrite K2. unfold run_down, p'. cbn [dash_cd]. lia.
  - destruct (cooldowns_after 50 p') as [_ [K2 _]]. rewrite K2.
    unfold run_down, p'. cbn [dash_cd]. lia.
Qed.

Lemma shoot_fires (g : Game R) (wm : Vector2) :
  reload_time (player g) <= 0 -> fire_cd (player g) <= 0 ->
  0 < pw_get (ammo (player g)) (weapon (player g)) ->
  player (shoot g wm) = fired (player g).
Proof.
  intros Hr Hf Ha. unfold shoot.
  replace (0 <? reload_time (player g)) with false by (symmetry; apply Z.ltb_ge; lia).
  replace (0 <? fire_cd (player g)) with false by (symmetry; apply Z.ltb_ge; lia).
  replace (pw_get (ammo (player g)) (weapon (player g)) <=? 0) with false
    by (symmetry; apply Z.leb_gt; lia).
  cbn [orb]. unfold fired, fire_interval.
  destruct (weapon (player g)).
  - destruct (uniform _ _ _) as [s r1]. destruct (burst _ _ _ _ _ _ _). reflexivity.
  - destruct (repeat_gen _ _ _) as [l r1]. destruct (burst _ _ _ _ _ _ _). reflexivity.
Qed.

Lemma shoot_player_cases (g : Game R) (wm : Vector2) :
  player (shoot g wm) = player g \/
  (0 < pw_get (ammo (player g)) (weapon (player g)) /\
   player (shoot g wm) = fired (player g)).
Proof.
  destruct (Z.lt_ge_cases 0 (reload_time (player g))) as [Hr | Hr].
  { left. rewrite shoot_rejected; auto. }
  destruct (Z.lt_ge_cases 0 (fire_cd (player g))) as [Hf | Hf].
  { left. rewrite shoot_rejected; auto. }
  destruct (Z.lt_ge_cases 0 (pw_get (ammo (player g)) (weapon (player g)))) as [Ha | Ha].
  - right. split; [exact Ha|]. apply shoot_fires; assumption.
  - left. unfold shoot.
    replace (0 <? reload_time (player g)) with false by (symmetry; apply Z.ltb_ge; lia).
    replace (0 <? fire_cd (player g)) with false by (symmetry; apply Z.ltb_ge; lia).
    replace (pw_get (ammo (player g)) (weapon (player g)) <=? 0) with true
      by (symmetry; apply Z.leb_le; lia).
    reflexivity.
Qed.

(** X7.  After an accepted shot the fire cooldown is [n >= 1] ticks: 7 for
    a weapon of 480 rounds per minute and 40 for one of 90.  For the next
    [n - 1] ticks of [update_cooldowns] every [shoot] is a no-op on the
    whole game; after [n] ticks the cooldown is 0. *)
Theorem fire_rate_limit (g : Game R) (wm : Vector2) :
  reload_time (player g) <= 0 -> fire_cd (player g) <= 0 ->
  0 < pw_get (ammo (player g)) (weapon (player g)) ->
  let g' := shoot g wm in
  let n := fire_cd (player g') in
  1 <= n /\
  (pw_get (rpm (player g)) (weapon (player g)) = 480 -> n = 7) /\
  (pw_get (rpm (player g)) (weapon (player g)) = 90 -> n = 40) /\
  (forall (k : nat) (wm' : Vector2), Z.of_nat k < n ->
     let gk := with_player g' (Nat.iter k update_cooldowns (player g')) in
     shoot gk wm' = gk) /\
  fire_cd (Nat.iter (Z.to_nat n) update_cooldowns (player g')) = 0.
Proof.
  intros Hr Hf Ha g' n.
  assert (Hp : player g' = fired (player g)) by (apply shoot_fires; assumption).
  assert (Hn : n = Z.max 1 (py_int (60 / (inject_Z (pw_get (rpm (player g))
                  (weapon (player g))) / 60)))).
  { unfold n. rewrite Hp. reflexivity. }
  split; [lia|]. split; [|split; [|split]].
  - intro E. rewrite Hn, E. reflexivity.
  - intro E. rewrite Hn, E. reflexivity.
  - intros k wm' Hk gk. apply shoot_rejected. right. right.
    unfold gk. cbn [with_player player].
    destruct (cooldowns_after k (player g')) as [_ [_ [K3 _]]].
    rewrite K3. fold n. unfold run_down. lia.
  - destruct (cooldowns_after (Z.to_nat n) (player g')) as [_ [_ [K3 _]]].
    rewrite K3. fold n. unfold run_down. lia.
Qed.
End TimedActions.

Lemma dash_then_cooldown_witness :
  let '(p', c', parts', r') := try_dash running_player Camera_init [] (7 : Z) in
  rect (p_ent p') = mkRect 79 (-61) 44 44 /\
  dash_cd p' = 50 /\ c' = Camera_shake Camera_init 6 5 /\
  dash_cd (Nat.iter 50 update_cooldowns p') = 0.
Proof.
  pose proof (dash_then_cooldown running_player Camera_init [] (7 : Z)) as H.
  destruct (try_dash running_player Camera_init [] (7 : Z)) as [[[p' c'] parts'] r'].
  destruct H as [H1 [H2 [_ [_ [_ [H6 [H7 [_ [_ H10]]]]]]]]].
  - vm_compute. discriminate.
  - vm_compute. reflexivity.
  - split; [|split; [exact H6|split; [exact H7|exact H10]]].
    rewrite H2, H1. vm_compute. reflexivity.
Defined.

Lemma fire_rate_limit_witness :
  let g' := shoot (idle_game (Player_init (mkVec 100 100)) 7) (mkVec 300 100) in
  fire_cd (player g') = 7 /\
  shoot (with_player g' (Nat.iter 6 update_cooldowns (player g'))) (mkVec 300 100)
    = with_player g' (Nat.iter 6 update_cooldowns (player g')).
Proof.
  destruct (fire_rate_limit (idle_game (Player_init (mkVec 100 100)) 7) (mkVec 300 100))
    as [_ [H7 [_ [Hk _]]]]; [simpl; lia|simpl; lia|simpl; lia|].
  assert (E : fire_cd (player (shoot (idle_game (Player_init (mkVec 100 100)) 7)
                                 (mkVec 300 100))) = 7) by (apply H7; reflexivity).
  split; [exact E|]. apply (Hk 6%nat). rewrite E. reflexivity.
Defined.

(* ------------------------------------------------------------------ *)
(** ** A full reload *)

(** X8.  [reload], called with no reload running and a magazine that is not
    full, starts a timer of 48 ticks for the rifle and 72 for the shotgun.
    While it runs the magazines keep their counts; on the tick it reaches 0
    the active magazine is filled to capacity and the other one is left
    as it was. *)
Theorem reload_cycle (p : Player) :
  reload_time p <= 0 ->
  pw_get (ammo p) (weapon p) < pw_get (mag p) (weapon p) ->
  let p1 := reload p in
  let T := reload_time p1 in
  T = match weapon p with Rifle => 48 | Shotgun => 72 end /\
  (forall k : nat, Z.of_nat k < T ->
     ammo (Nat.iter k update_cooldowns p1) = ammo p /\
     reload_time (Nat.iter k update_cooldowns p1) = T - Z.of_nat k) /\
  let p2 := Nat.iter (Z.to_nat T) update_cooldowns p1 in
  reload_time p2 = 0 /\
  pw_get (ammo p2) (weapon p) = pw_get (mag p) (weapon p) /\
  pw_get (ammo p2) (other_weapon (weapon p))
    = pw_get (ammo p) (other_weapon (weapon p)).
Proof.
  intros Hr Ha p1 T.
  assert (H1 : p1 = mkPlayer (p_ent p) (p_speed p) (hp p) (max_hp p) (invuln p)
                     (dash_cd p) (match weapon p with Rifle => 48 | Shotgun => 72 end)
                     (weapon p) (ammo p) (mag p) (fire_cd p) (rpm p)).
  { unfold p1, reload.
    replace (reload_time p <=? 0) with true by (symmetry; apply Z.leb_le; lia).
    replace (pw_get (ammo p) (weapon p) <? pw_get (mag p) (weapon p)) with true
      by (symmetry; apply Z.ltb_lt; lia).
    cbn [andb]. destruct (weapon p); reflexivity. }
  assert (HT : T = match weapon p with Rifle => 48 | Shotgun => 72 end).
  { unfold T. rewrite H1. reflexivity. }
  assert (Hw : weapon p1 = weapon p) by (rewrite H1; reflexivity).
  assert (Hm : mag p1 = mag p) by (rewrite H1; reflexivity).
  assert (Hammo : ammo p1 = ammo p) by (rewrite H1; reflexivity).
  split; [exact HT|]. split.
  - intros k Hk. destruct (reload_in_progress k p1) as [K1 [K2 _]]; [exact Hk|].
    rewrite K2, K1, Hammo. auto.
  - destruct (reload_completes (Z.to_nat T) p1) as [C1 [C2 _]].
    + destruct (weapon p); lia.
    + fold T. destruct (weapon p); lia.
    + cbn zeta. rewrite C1, C2, Hw, Hm, Hammo.
      split; [reflexivity|]. split; [apply pw_get_set_same|apply pw_get_set_other].
Qed.

Lemma reload_cycle_witness :
  let p1 := reload low_rifle_player in
  reload_time p1 = 48 /\
  pw_get (ammo (Nat.iter 48 update_cooldowns p1)) Rifle = 30 /\
  pw_get (ammo (Nat.iter 48 update_cooldowns p1)) Shotgun = 3.
Proof.
  destruct (reload_cycle low_rifle_player) as [HT [_ [_ [H2 H3]]]];
    [simpl; lia|simpl; lia|].
  split; [exact HT|]. split; [exact H2|exact H3].
Defined.

(* ------------------------------------------------------------------ *)
(** ** Wall rectangles against the grid *)

Ltac zb :=
  repeat match goal with
  | |- context [?a <=? ?b] =>
      first [ replace (a <=? b) with true by (symmetry; apply Z.leb_le; lia)
            | replace (a <=? b) with false by (symmetry; apply Z.leb_gt; lia) ]
  | |- context [?a <? ?b] =>
      first [ replace (a <? b) with true by (symmetry; apply Z.ltb_lt; lia)
            | replace (a <? b) with false by (symmetry; apply Z.ltb_ge; lia) ]
  | |- context [?a =? ?b] =>
      first [ replace (a =? b) with true by (symmetry; apply Z.eqb_eq; lia)
            | replace (a =? b) with false by (symmetry; apply Z.eqb_neq; lia) ]
  end.

Lemma solid_at_before (v : Z) (rest : list Z) (x c : Z) :
  c < x -> solid_at (v :: rest) x c = false.
Proof. intro H. unfold solid_at. zb. reflexivity. Qed.

Lemma solid_at_head (v : Z) (rest : list Z) (x : Z) :
  solid_at (v :: rest) x x = (v =? 1).
Proof.
  unfold solid_at. zb. replace (x - x) with 0 by lia. reflexivity.
Qed.

Lemma solid_at_tail (v : Z) (rest : list Z) (x c : Z) :
  x < c -> solid_at (v :: rest) x c = solid_at rest (x + 1) c.
Proof.
  intro H. unfold solid_at. zb.
  replace (Z.to_nat (c - x)) with (S (Z.to_nat (c - (x + 1)))) by lia.
  reflexivity.
Qed.

Lemma solid_at_shift_before (rest : list Z) (x c : Z) :
  c <= x -> solid_at rest (x + 1) c = false.
Proof. intro H. unfold solid_at. zb. reflexivity. Qed.

Lemma row_runs_covered (cells : list Z) :
  forall (x : Z) (start : option Z) (c : Z),
  (forall s, start = Some s -> s <= x) ->
  covered (row_runs cells x start) c
    = (match start with
       | Some s => (s <=? c) && (c <? x)
       | None => false
       end) || solid_at cells x c.
Proof.
  induction cells as [|v rest IH]; intros x start c Hs.
  - unfold solid_at. destruct (Z.to_nat (c - x)); simpl;
      rewrite andb_false_r; destruct start; simpl; rewrite ?orb_false_r; reflexivity.
  - cbn [row_runs]. destruct (v =? 1) eqn:Ev.
    + rewrite IH.
      2:{ intros s E. inversion E; subst. destruct start as [s0|];
          [specialize (Hs s0 eq_refl); lia|lia]. }
      destruct (Z.lt_trichotomy c x) as [H | [H | H]].
      * rewrite solid_at_before by lia. rewrite solid_at_shift_before by lia.
        destruct start as [s0|]; zb; reflexivity.
      * subst c. rewrite solid_at_head, Ev. rewrite solid_at_shift_before by lia.
        destruct start as [s0|]; [specialize (Hs s0 eq_refl)|]; zb;
          rewrite ?orb_true_r; reflexivity.
      * rewrite solid_at_tail by lia.
        destruct start as [s0|]; zb; rewrite ?andb_false_r; reflexivity.
    + destruct start as [s0|].
      * change (covered ((s0, x) :: row_runs rest (x + 1) None) c)
          with (((s0 <=? c) && (c <? x)) || covered (row_runs rest (x + 1) None) c).
        rewrite IH by discriminate.
        destruct (Z.lt_trichotomy c x) as [H | [H | H]].
        -- rewrite solid_at_before by lia. rewrite solid_at_shift_before by lia.
           reflexivity.
        -- subst c. rewrite solid_at_head, Ev. rewrite solid_at_shift_before by lia.
           reflexivity.
        -- rewrite solid_at_tail by lia. reflexivity.
      * rewrite IH by discriminate.
        destruct (Z.lt_trichotomy c x) as [H | [H | H]].
        -- rewrite solid_at_before by lia. rewrite solid_at_shift_before by lia.
           reflexivity.
        -- subst c. rewrite solid_at_head, Ev. rewrite solid_at_shift_before by lia.
           reflexivity.
        -- rewrite solid_at_tail by lia. reflexivity.
Qed.

Lemma colliderect_run (r : Rect) (x y y' : Z) (se : Z * Z) :
  inside_cell r x y -> fst se < snd se ->
  colliderect r (run_rect y' se)
    = (y' =? y) && ((fst se <=? x) && (x <? snd se)).
Proof.
  intros [Hw [Hh [Hx1 [Hx2 [Hy1 Hy2]]]]] Hse. destruct se as [s e]. simpl in Hse.
  unfold colliderect, run_rect, TILE in *. cbn [rx ry rw rh fst snd].
  replace (rw r =? 0) with false by (symmetry; apply Z.eqb_neq; lia).
  replace (rh r =? 0) with false by (symmetry; apply Z.eqb_neq; lia).
  replace ((e - s) * 48 =? 0) with false by (symmetry; apply Z.eqb_neq; lia).
  cbn [orb Z.eqb].
  apply Bool.eq_iff_eq_true.
  rewrite !andb_true_iff, !Z.gtb_ltb, !Z.ltb_lt, Z.eqb_eq, Z.leb_le. lia.
Qed.

Lemma row_rects_runs (y : Z) (cells : list Z) :
  row_rects y cells = map (run_rect y) (row_runs cells 0 None).
Proof.
  unfold row_rects. apply map_ext. intros [s e]. reflexivity.
Qed.

Lemma existsb_runs (r : Rect) (x y y' : Z) (runs : list (Z * Z)) :
  inside_cell r x y ->
  Forall (fun se => fst se < snd se) runs ->
  existsb (colliderect r) (map (run_rect y') runs) = (y' =? y) && covered runs x.
Proof.
  intros Hin Hall. induction Hall as [|se runs Hse Hall IH].
  - simpl. now rewrite andb_false_r.
  - unfold covered in *. cbn [map existsb]. rewrite IH, (colliderect_run r x y y' se Hin Hse).
    destruct (y' =? y); reflexivity.
Qed.

Lemma existsb_rows (r : Rect) (x y : Z) (rows : list (list Z)) :
  inside_cell r x y ->
  forall y0 : Z,
  existsb (colliderect r) (rows_rects y0 rows)
    = (y0 <=? y) &&
      match nth_error rows (Z.to_nat (y - y0)) with
      | Some cells => covered (row_runs cells 0 None) x
      | None => false
      end.
Proof.
  intro Hin. induction rows as [|row rest IH]; intro y0.
  - simpl. destruct (Z.to_nat (y - y0)); simpl; now rewrite andb_false_r.
  - cbn [rows_rects]. rewrite existsb_app, row_rects_runs.
    rewrite (existsb_runs r x y y0) by
      (try exact Hin; apply row_runs_ordered; discriminate).
    rewrite IH.
    destruct (Z.lt_trichotomy y y0) as [H | [H | H]].
    + zb. reflexivity.
    + subst y0. zb. replace (y - y) with 0 by lia. cbn [Z.to_nat nth_error].
      cbn [andb]. now rewrite orb_false_r.
    + zb. replace (Z.to_nat (y - y0)) with (S (Z.to_nat (y - (y0 + 1)))) by lia.
      reflexivity.
Qed.

Lemma filter_nil_existsb {A : Type} (f : A -> bool) (l : list A) :
  filter f l = [] <-> existsb f l = false.
Proof.
  induction l as [|a l IH]; simpl; [tauto|].
  destruct (f a); simpl; [split; discriminate|exact IH].
Qed.

(** A rectangle within the tile of a cell overlaps a wall exactly when the
    cell is solid. *)
Lemma walls_against_cell (tm : TileMap) (r : Rect) (x y c : Z) :
  0 <= x -> 0 <= y -> inside_cell r x y ->
  grid_get (grid tm) x y = Some c ->
  existsb (colliderect r) (wall_rects (rebuild_wall_rects tm)) = (c =? 1).
Proof.
  intros Hx Hy Hin Hg. cbn [rebuild_wall_rects wall_rects].
  rewrite (existsb_rows r x y (grid tm) Hin 0).
  unfold grid_get in Hg. rewrite py_nth_nonneg in Hg by lia.
  replace (y - 0) with y by lia.
  destruct (nth_error (grid tm) (Z.to_nat y)) as [row|]; [|discriminate].
  rewrite py_nth_nonneg in Hg by lia.
  rewrite row_runs_covered by discriminate.
  unfold solid_at. replace (x - 0) with x by lia. rewrite Hg. zb. reflexivity.
Qed.

(** X9.  The wall rectangles say what the grid says: for a cell of the
    grid, a rectangle of positive size lying within the cell's tile (the
    tile itself, say) gets an empty answer from [rect_collide] exactly when
    the cell is not solid. *)
Theorem walls_cover_solid_cells (tm : TileMap) (r : Rect) (x y c : Z) :
  0 <= x -> 0 <= y -> inside_cell r x y ->
  grid_get (grid tm) x y = Some c ->
  (rect_collide (rebuild_wall_rects tm) r = [] <-> c <> 1).
Proof.
  intros Hx Hy Hin Hg. unfold rect_collide.
  rewrite filter_nil_existsb.
  change (existsb (colliderect r) (wall_rects (rebuild_wall_rects tm)) = false
          <-> c <> 1).
  rewrite (walls_against_cell tm r x y c Hx Hy Hin Hg).
  rewrite Z.eqb_neq. tauto.
Qed.

Lemma walls_cover_solid_cells_witness :
  rect_collide (rebuild_wall_rects staircase_map) (cell_rect 2 1) = [] /\
  rect_collide (rebuild_wall_rects staircase_map) (cell_rect 3 1) <> [].
Proof.
  split.
  - apply (walls_cover_solid_cells staircase_map (cell_rect 2 1) 2 1 0);
      try lia; [vm_compute; repeat split; congruence|reflexivity].
  - intro H.
    apply (walls_cover_solid_cells staircase_map (cell_rect 3 1) 3 1 1) in H;
      try lia; [vm_compute; repeat split; congruence|reflexivity].
Defined.

Lemma in_rows_rects (r : Rect) (rows : list (list Z)) :
  forall y0 : Z,
  In r (rows_rects y0 rows) ->
  exists (k : nat) (row : list Z) (se : Z * Z),
    nth_error rows k = Some row /\ In se (row_runs row 0 None) /\
    r = run_rect (y0 + Z.of_nat k) se.
Proof.
  induction rows as [|row rest IH]; intros y0 H; simpl in H; [contradiction|].
  apply in_app_or in H. destruct H as [H | H].
  - rewrite row_rects_runs in H. apply in_map_iff in H. destruct H as [se [E Hin]].
    exists O, row, se. split; [reflexivity|]. split; [exact Hin|].
    rewrite <- E. f_equal. simpl. lia.
  - destruct (IH (y0 + 1) H) as [k [row' [se [Hk [Hin E]]]]].
    exists (S k), row', se. split; [exact Hk|]. split; [exact Hin|].
    rewrite E. f_equal. lia.
Qed.

Lemma run_in_row (cells : list Z) (s e : Z) :
  In (s, e) (row_runs cells 0 None) ->
  0 <= s < e /\
  forall x, s <= x < e -> nth_error cells (Z.to_nat x) = Some 1.
Proof.
  intro Hin.
  assert (Hord : s < e).
  { pose proof (row_runs_ordered cells 0 None ltac:(discriminate)) as F.
    rewrite Forall_forall in F. exact (F (s, e) Hin). }
  assert (Hcov : forall x, s <= x < e -> solid_at cells 0 x = true).
  { intros x Hx. rewrite <- (orb_false_l (solid_at cells 0 x)).
    rewrite <- (row_runs_covered cells 0 None x) by discriminate.
    unfold covered. apply existsb_exists. exists (s, e).
    split; [exact Hin|]. cbn [fst snd]. zb. reflexivity. }
  assert (Hcell : forall x, s <= x < e -> 0 <= x /\ nth_error cells (Z.to_nat x) = Some 1).
  { intros x Hx. specialize (Hcov x Hx). unfold solid_at in Hcov.
    apply andb_true_iff in Hcov. destruct Hcov as [H0 H1].
    apply Z.leb_le in H0. replace (x - 0) with x in H1 by lia.
    split; [exact H0|].
    destruct (nth_error cells (Z.to_nat x)) as [v|]; [|discriminate].
    apply Z.eqb_eq in H1. now subst v. }
  split.
  - destruct (Hcell s ltac:(lia)) as [H0 _]. lia.
  - intros x Hx. apply Hcell. exact Hx.
Qed.

(** X10.  Every rectangle [rebuild_wall_rects] produces is a strip one
    tile high over a run of solid cells of one grid row: it starts and ends
    on tile boundaries, is at least one tile long, and every cell under it
    is solid. *)
Theorem wall_rects_are_solid_runs (tm : TileMap) (r : Rect) :
  In r (wall_rects (rebuild_wall_rects tm)) ->
  exists s e y,
    r = mkRect (s * TILE) (y * TILE) ((e - s) * TILE) TILE /\
    0 <= s < e /\ 0 <= y /\
    forall x, s <= x < e -> grid_get (grid tm) x y = Some 1.
Proof.
  intro H. cbn [rebuild_wall_rects wall_rects] in H.
  destruct (in_rows_rects r (grid tm) 0 H) as [k [row [[s e] [Hk [Hin E]]]]].
  destruct (run_in_row row s e Hin) as [Hse Hcells].
  exists s, e, (Z.of_nat k). split; [exact E|]. split; [exact Hse|]. split; [lia|].
  intros x Hx. unfold grid_get. rewrite py_nth_nonneg by lia.
  rewrite Nat2Z.id, Hk. rewrite py_nth_nonneg by lia. apply Hcells. exact Hx.
Qed.

Lemma wall_rects_are_solid_runs_witness :
  exists s e y,
    mkRect 192 96 96 48 = mkRect (s * TILE) (y * TILE) ((e - s) * TILE) TILE /\
    0 <= s < e /\ 0 <= y /\
    forall x, s <= x < e -> grid_get (grid staircase_map) x y = Some 1.
Proof.
  apply (wall_rects_are_solid_runs staircase_map (mkRect 192 96 96 48)).
  vm_compute. tauto.
Defined.

Section GeneratedShape.
Context {R : Type} {RS : RandomSource R}.

(** X11.  [TileMap(w, h, tile)] returns a grid of [h] rows of [w] cells
    whose wall rectangles are those of that grid, and has drawn from the
    generator exactly once for every interior cell: the generator is left
    [(w - 2) * (h - 2)] draws on. *)
Theorem generate_shape_and_draws (w h tile : Z) (r : R) :
  0 <= w -> 0 <= h ->
  let res := TileMap_init w h tile r in
  grid_dims (grid (fst res)) w h /\
  tm_w (fst res) = w /\ tm_h (fst res) = h /\
  wall_rects (fst res) = wall_rects (rebuild_wall_rects (fst res)) /\
  snd res = skip (Z.to_nat (Z.max 0 (w - 2) * Z.max 0 (h - 2))) r.
Proof.
  intros Hw Hh. unfold TileMap_init, generate. cbn [tm_w tm_h tm_tile grid wall_rects].
  pose proof (fill_spec w h r (repeat (repeat 0 (Z.to_nat w)) (Z.to_nat h))
                Hw Hh (blank_grid_dims w h)) as [Hd [Hr _]].
  destruct (fill w h _) as [g1 r1]. cbn [fst snd] in *.
  destruct (carve_spec w h g1 Hd) as [Hd' _].
  cbn [rebuild_wall_rects grid tm_w tm_h wall_rects].
  split; [exact Hd'|]. split; [reflexivity|]. split; [reflexivity|].
  split; [reflexivity|].
  rewrite Hr. unfold draws_before_row.
  replace (Z.max 0 (Z.min (h - 1) (h - 2))) with (Z.max 0 (h - 2)) by lia.
  reflexivity.
Qed.
End GeneratedShape.

Lemma generate_shape_and_draws_witness :
  length (grid lcg_arena) = 30%nat /\
  snd (TileMap_init MAP_W MAP_H TILE (1 : Z)) = skip 1288 (1 : Z).
Proof.
  destruct (generate_shape_and_draws MAP_W MAP_H TILE (1 : Z))
    as [[Hl _] [_ [_ [_ Hs]]]]; [vm_compute; discriminate|vm_compute; discriminate|].
  split; [exact Hl|exact Hs].
Defined.

(* ------------------------------------------------------------------ *)
(** ** Where enemies appear *)

Lemma py_int_inject (n : Z) : py_int (inject_Z n) = n.
Proof. unfold py_int, inject_Z. simpl. apply Z.quot_1_r. Qed.

Lemma round_half_away_inject (n : Z) : round_half_away (inject_Z n) = n.
Proof.
  unfold round_half_away, inject_Z. cbn [Qnum Qden].
  change (2 * Z.pos 1) with 2.
  replace (2 * Z.abs n + Z.pos 1) with (Z.abs n * 2 + 1) by lia.
  rewrite Z.div_add_l by lia. change (1 / 2) with 0.
  destruct n; cbn; lia.
Qed.

Lemma Enemy_init_rect (x y t : Z) :
  rect (e_ent (Enemy_init (cell_centre x y) t))
    = mkRect (x * TILE + TILE / 2 - (20 + 3 * (t - 1)))
             (y * TILE + TILE / 2 - (20 + 3 * (t - 1)))
             ((20 + 3 * (t - 1)) * 2) ((20 + 3 * (t - 1)) * 2).
Proof.
  unfold Enemy_init, Entity_init, rect_centered, set_center, set_centerx, set_centery,
    cell_centre.
  cbn [e_ent rect rx ry rw rh vx vy]. rewrite !round_half_away_inject, !Z.quot_mul by lia.
  reflexivity.
Qed.

Lemma small_enemy_inside_cell (x y t : Z) :
  t = 1 \/ t = 2 ->
  inside_cell (rect (e_ent (Enemy_init (cell_centre x y) t))) x y.
Proof.
  intro Ht. rewrite Enemy_init_rect. unfold inside_cell, TILE.
  cbn [rx ry rw rh]. change (48 / 2) with 24. lia.
Qed.

Section SpawnPlaces.
Context {M : MathLib} {R : Type} {RS : RandomSource R} {RR : RandomRange R}.

Lemma spawn_loop_inits (fuel : nat) (tm : TileMap) (ppos : Vector2) (wv : Z) (n : nat) :
  forall (es : list Enemy) (r : R) (es' : list Enemy) (r' : R),
  spawn_loop fuel n wv tm ppos es r = Done (es', r') ->
  exists new,
    es' = es ++ new /\
    Forall (fun e => exists x y t,
              e = Enemy_init (cell_centre x y) t /\ 1 <= x /\ 1 <= y /\
              grid_get (grid tm) x y = Some 0) new.
Proof.
  induction n as [|n IH]; intros es r es' r' H; simpl in H.
  - inversion H; subst. exists []. rewrite app_nil_r. split; [reflexivity|constructor].
  - destruct (pick_tier wv r) as [t r1].
    destruct (sample_pos fuel tm ppos r1) as [[p r2]| |] eqn:Es; try discriminate.
    destruct (IH _ _ _ _ H) as [new [E F]].
    exists (Enemy_init p t :: new). split.
    + rewrite E, <- app_assoc. reflexivity.
    + constructor; [|exact F].
      destruct (sample_pos_spec _ _ _ _ _ _ Es) as [x [y [Hx [Hy [Hg [Hp _]]]]]].
      exists x, y, t. subst p. repeat split; try assumption; lia.
Qed.

(** X12.  In an arena whose wall rectangles are those of its grid, every
    enemy of tier 1 or 2 that [spawn_wave] adds appears clear of all walls:
    its rectangle lies within the open cell it is centred on.  (A tier-3
    enemy is 52 units wide, wider than a tile.) *)
Theorem spawned_clear_of_walls (fuel : nat) (g g' : Game R) :
  wall_rects (the_map g) = wall_rects (rebuild_wall_rects (the_map g)) ->
  spawn_wave fuel g = Done g' ->
  exists new,
    enemies g' = enemies g ++ new /\
    Forall (fun e => tier e = 1 \/ tier e = 2 ->
                     rect_collide (the_map g) (rect (e_ent e)) = []) new.
Proof.
  intros Hwalls H. unfold spawn_wave in H.
  destruct (spawn_loop _ _ _ _ _ _ _) as [[es r]| |] eqn:El; try discriminate.
  inversion H; subst g'; clear H. cbn [enemies].
  destruct (spawn_loop_inits _ _ _ _ _ _ _ _ _ El) as [new [E F]].
  exists new. split; [exact E|].
  eapply Forall_impl; [|exact F].
  intros e [x [y [t [He [Hx [Hy Hg]]]]]] Ht. subst e.
  unfold Enemy_init in Ht. cbn [tier] in Ht.
  unfold rect_collide. rewrite Hwalls. apply filter_nil_existsb.
  change (existsb (colliderect (rect (e_ent (Enemy_init (cell_centre x y) t))))
            (wall_rects (rebuild_wall_rects (the_map g))) = false).
  rewrite (walls_against_cell (the_map g) _ x y 0); try lia; try assumption.
  apply small_enemy_inside_cell. exact Ht.
Qed.
End SpawnPlaces.

Lemma spawned_clear_of_walls_witness :
  Forall (fun e => rect_collide lcg_arena (rect (e_ent e)) = [])
    (enemies first_wave_game).
Proof.
  destruct (spawned_clear_of_walls 200 opening_game first_wave_game)
    as [new [E F]].
  - vm_compute. reflexivity.
  - vm_compute. reflexivity.
  - change (enemies opening_game) with (@nil Enemy) in E. cbn [app] in E.
    rewrite E.
    assert (T : Forall (fun e => tier e = 1) new).
    { rewrite <- E. vm_compute. repeat constructor. }
    rewrite Forall_forall in *. intros e He. apply (F e He). left. exact (T e He).
Defined.

(** A tier-3 enemy centred on an open cell beside a wall starts inside
    that wall. *)
Example tier3_spawn_touches_wall :
  grid_get (grid staircase_map) 1 1 = Some 0 /\
  rect_collide staircase_map (rect (e_ent (Enemy_init (cell_centre 1 1) 3))) <> [].
Proof.
  vm_compute. split; [reflexivity|discriminate].
Qed.

(* ------------------------------------------------------------------ *)
(** ** The shape of one simulation step *)

Lemma damage_again (p : Player) (a b : Z) : damage (damage p a) b = damage p a.
Proof.
  unfold damage. destruct (0 <? invuln p) eqn:E.
  - now rewrite E.
  - reflexivity.
Qed.

Section StepShape.
Context {M : MathLib} {R : Type} {RS : RandomSource R}.

Lemma shoot_frame (g : Game R) (wm : Vector2) :
  the_map (shoot g wm) = the_map g /\ enemies (shoot g wm) = enemies g /\
  score (shoot g wm) = score g /\ paused (shoot g wm) = paused g /\
  game_over (shoot g wm) = game_over g.
Proof.
  unfold shoot.
  destruct (_ || _); [auto|].
  destruct (_ <=? 0); [auto|].
  destruct (weapon (player g)).
  - destruct (uniform _ _ _) as [s r1]. destruct (burst _ _ _ _ _ _ _). auto.
  - destruct (repeat_gen _ _ _) as [l r1]. destruct (burst _ _ _ _ _ _ _). auto.
Qed.

(** The enemy loop of a tick: the player comes out as it went in or with
    one hit of 12 taken, and every enemy is still there with its tier and
    hit points. *)
Lemma enemy_loop_spec (dt_ms : Z) (tm : TileMap) (es : list Enemy) :
  forall (p : Player) (c : Camera) (parts : list Particle) (r : R) (done : list Enemy),
  let res := fold_left (enemy_step dt_ms tm) es (p, c, parts, r, done) in
  (fst (fst (fst (fst res))) = p \/ fst (fst (fst (fst res))) = damage p 12) /\
  exists moved,
    snd res = done ++ moved /\
    map tier moved = map tier es /\ map e_hp moved = map e_hp es.
Proof.
  induction es as [|e rest IH]; intros p c parts r done; cbn zeta.
  - simpl. split; [now left|]. exists []. now rewrite app_nil_r.
  - cbn [fold_left].
    set (e2 := mkEnemy (collide_move (inject_Z dt_ms / 1000) tm
                          (e_ent (ai e (pos (p_ent p)) tm)))
                 (e_speed (ai e (pos (p_ent p)) tm))
                 (e_hp (ai e (pos (p_ent p)) tm)) (tier (ai e (pos (p_ent p)) tm))).
    assert (Hstep : exists p1 c1 parts1 r1,
               enemy_step dt_ms tm (p, c, parts, r, done) e
                 = (p1, c1, parts1, r1, done ++ [e2]) /\
               (p1 = p \/ p1 = damage p 12)).
    { unfold enemy_step. fold e2.
      destruct (colliderect (rect (e_ent e2)) (rect (p_ent p))).
      - destruct (burst 12 _ _ _ _ parts r) as [parts1 r1].
        exists (damage p 12), (Camera_shake c 8 7), parts1, r1. auto.
      - exists p, c, parts, r. auto. }
    destruct Hstep as [p1 [c1 [parts1 [r1 [Es Hp1]]]]]. rewrite Es.
    destruct (IH p1 c1 parts1 r1 (done ++ [e2])) as [Hp [moved [Hd [Ht Hh]]]].
    split.
    + destruct Hp as [Hp | Hp]; rewrite Hp; destruct Hp1 as [Hp1 | Hp1]; subst p1; auto.
      right. apply damage_again.
    + exists (e2 :: moved). split; [rewrite Hd, <- app_assoc; reflexivity|].
      cbn [map]. rewrite Ht, Hh. split; reflexivity.
Qed.

(** What [simulate] does to the player, and where its score and its
    enemies come from. *)
Lemma simulate_structure (inp : Input) (g : Game R) :
  let p1 :=
    update_cooldowns
      (Player_input (player g) (key_d inp) (key_a inp) (key_s inp) (key_w inp)) in
  exists (a b : bool) (e : Entity) (es3 : list Enemy) (bs : list Bullet)
         (parts3 : list Particle) (r3 : R),
    (a = true -> 0 < pw_get (ammo p1) (weapon p1)) /\
    player (simulate inp g)
      = (if b then fun q => damage q 12 else fun q => q)
          (with_ent ((if a then fired else fun q => q) p1) e) /\
    map tier es3 = map tier (enemies g) /\
    map e_hp es3 = map e_hp (enemies g) /\
    score (simulate inp g)
      = ph_score (enemies_vs_bullets es3 bs parts3 (score g) r3) /\
    enemies (simulate inp g)
      = survivors (ph_enemies (enemies_vs_bullets es3 bs parts3 (score g) r3)) /\
    paused (simulate inp g) = paused g /\
    game_over (simulate inp g) = game_over g /\
    the_map (simulate inp g) = the_map g.
Proof.
  intro p1. unfold simulate. fold p1.
  set (g1 := with_player g p1).
  set (g2 := if mouse_held inp then shoot g1 _ else g1).
  assert (H2 : the_map g2 = the_map g /\ enemies g2 = enemies g /\
               score g2 = score g /\ paused g2 = paused g /\
               game_over g2 = game_over g).
  { unfold g2. destruct (mouse_held inp); [|unfold g1; simpl; auto].
    destruct (shoot_frame g1 (screen_to_world (camera g1) (mouse_pos inp)))
      as [A1 [A2 [A3 [A4 A5]]]].
    rewrite A1, A2, A3, A4, A5. unfold g1. simpl. auto. }
  destruct H2 as [Hm [He [Hs [Hpa Hgo]]]].
  assert (Hpl : exists a, (a = true -> 0 < pw_get (ammo p1) (weapon p1)) /\
                          player g2 = (if a then fired else fun q => q) p1).
  { unfold g2. destruct (mouse_held inp).
    - destruct (shoot_player_cases g1 (screen_to_world (camera g1) (mouse_pos inp)))
        as [E | [Ha E]].
      + exists false. split; [discriminate|]. rewrite E. reflexivity.
      + exists true. split; [intros _; exact Ha|]. rewrite E. reflexivity.
    - exists false. split; [discriminate|reflexivity]. }
  destruct Hpl as [a [Ha Hpl]].
  set (p2 := with_ent (player g2) _).
  pose proof (enemy_loop_spec (dt inp) (the_map g2) (enemies g2) p2 (camera g2)
                (particles g2) (rng g2) []) as Hloop. cbn zeta in Hloop.
  destruct (fold_left _ (enemies g2) _) as [[[[p3 c3] parts3] r3] es3].
  cbn [fst snd] in Hloop. destruct Hloop as [Hp3 [moved [Hd [Ht Hh]]]].
  cbn [app] in Hd. subst es3.
  assert (Hrest :
    map tier moved = map tier (enemies g) /\
    map e_hp moved = map e_hp (enemies g)) by (rewrite Ht, Hh, He; auto).
  destruct Hrest as [Ht' Hh'].
  cbn [bullet_vs_enemy player score enemies paused game_over the_map wave
       camera bullets particles rng].
  destruct Hp3 as [Hp3 | Hp3]; subst p3.
  - exists a, false.
    exists (collide_move (inject_Z (dt inp) / 1000) (the_map g2) (p_ent (player g2))).
    exists moved. eexists. exists parts3, r3.
    split; [exact Ha|]. split; [rewrite <- Hpl; reflexivity|].
    split; [exact Ht'|]. split; [exact Hh'|].
    rewrite Hs, Hpa, Hgo, Hm. repeat split; reflexivity.
  - exists a, true.
    exists (collide_move (inject_Z (dt inp) / 1000) (the_map g2) (p_ent (player g2))).
    exists moved. eexists. exists parts3, r3.
    split; [exact Ha|]. split; [rewrite <- Hpl; reflexivity|].
    split; [exact Ht'|]. split; [exact Hh'|].
    rewrite Hs, Hpa, Hgo, Hm. repeat split; reflexivity.
Qed.
End StepShape.

(* ------------------------------------------------------------------ *)
(** ** The player's bookkeeping stays sound *)

Lemma kept_refl (p : Player) : kept p p.
Proof. split; auto. Qed.

Lemma kept_trans (p q s : Player) : kept p q -> kept q s -> kept p s.
Proof. intros [H1 M1] [H2 M2]. split; [auto|congruence]. Qed.

Lemma pw_bounds_set (a m : PerWeapon) (w : Weapon) (v : Z) :
  (forall u, 0 <= pw_get a u <= pw_get m u) ->
  0 <= v <= pw_get m w ->
  forall u, 0 <= pw_get (pw_set a w v) u <= pw_get m u.
Proof.
  intros H Hv u. pose proof (H Rifle). pose proof (H Shotgun).
  destruct w, u; simpl in *; lia.
Qed.

Lemma tick_nonneg (x : Z) : 0 <= x -> 0 <= (if 0 <? x then x - 1 else x).
Proof. intro H. destruct (Z.ltb_spec 0 x); lia. Qed.

Lemma update_cooldowns_kept (p : Player) : kept p (update_cooldowns p).
Proof.
  split.
  - intros [Ha [H1 [H2 [H3 H4]]]].
    pose proof (tick_nonneg _ H1) as T1. pose proof (tick_nonneg _ H2) as T2.
    pose proof (tick_nonneg _ H4) as T4.
    unfold update_cooldowns, player_ok.
    destruct (0 <? reload_time p) eqn:Er.
    + apply Z.ltb_lt in Er. destruct (reload_time p - 1 <=? 0);
        cbn [ammo mag invuln dash_cd reload_time fire_cd].
      * split; [|repeat split; assumption || lia].
        apply pw_bounds_set; [exact Ha|]. specialize (Ha (weapon p)). lia.
      * split; [exact Ha|]. repeat split; assumption || lia.
    + cbn [ammo mag invuln dash_cd reload_time fire_cd].
      split; [exact Ha|]. repeat split; assumption || lia.
  - unfold update_cooldowns. destruct (if 0 <? reload_time p then _ else _).
    reflexivity.
Qed.

Lemma fired_kept (p : Player) :
  0 < pw_get (ammo p) (weapon p) -> kept p (fired p).
Proof.
  intro Hpos. split; [|reflexivity].
  intros [Ha [H1 [H2 [H3 H4]]]]. unfold fired, player_ok.
  cbn [ammo mag invuln dash_cd reload_time fire_cd].
  split; [|repeat split; lia].
  apply pw_bounds_set; [exact Ha|]. specialize (Ha (weapon p)). lia.
Qed.

Lemma with_ent_kept (p : Player) (e : Entity) : kept p (with_ent p e).
Proof. split; [|reflexivity]. intro H. exact H. Qed.

Lemma damage_kept (p : Player) (a : Z) : kept p (damage p a).
Proof.
  unfold damage. destruct (0 <? invuln p); [apply kept_refl|].
  split; [|reflexivity]. intros [Ha [H1 [H2 [H3 H4]]]].
  unfold player_ok. cbn [ammo mag invuln dash_cd reload_time fire_cd].
  split; [exact Ha|]. repeat split; lia.
Qed.

Lemma reload_kept (p : Player) : kept p (reload p).
Proof.
  unfold reload. destruct (_ && _); [|apply kept_refl].
  split; [|reflexivity]. intros [Ha [H1 [H2 [H3 H4]]]].
  unfold player_ok. cbn [ammo mag invuln dash_cd reload_time fire_cd].
  split; [exact Ha|]. repeat split; try lia. destruct (weapon p); vm_compute; discriminate.
Qed.

Lemma switch_weapon_kept (p : Player) : kept p (switch_weapon p).
Proof. split; [|reflexivity]. intro H. exact H. Qed.

Section BookkeepingStep.
Context {M : MathLib} {R : Type} {RS : RandomSource R}.

Lemma Player_input_kept (p : Player) (a b c d : bool) : kept p (Player_input p a b c d).
Proof. apply with_ent_kept. Qed.

Lemma try_dash_kept (p : Player) (c : Camera) (parts : list Particle) (r : R) :
  kept p (fst (fst (fst (try_dash p c parts r)))).
Proof.
  unfold try_dash. destruct (_ && _); [|apply kept_refl].
  destruct (burst _ _ _ _ _ _ _) as [ps r']. cbn [fst].
  split; [|reflexivity]. intros [Ha [H1 [H2 [H3 H4]]]].
  unfold player_ok. cbn [ammo mag invuln dash_cd reload_time fire_cd].
  split; [exact Ha|]. repeat split; lia.
Qed.

Lemma shoot_kept (g : Game R) (wm : Vector2) : kept (player g) (player (shoot g wm)).
Proof.
  destruct (shoot_player_cases g wm) as [E | [Ha E]]; rewrite E.
  - apply kept_refl.
  - apply fired_kept. exact Ha.
Qed.

Lemma handle_event_kept (mouse : Vector2) (g : Game R) (ev : Event) :
  kept (player g) (player (handle_event mouse g ev)).
Proof.
  destruct ev as [k|b|].
  - destruct k; cbn [handle_event].
    + apply kept_refl.
    + destruct (negb (paused g) && negb (game_over g)); [|apply kept_refl].
      pose proof (try_dash_kept (player g) (camera g) (particles g) (rng g)) as H.
      destruct (try_dash _ _ _ _) as [[[p c] ps] r]. exact H.
    + destruct (negb (paused g) && negb (game_over g)); [|apply kept_refl].
      apply reload_kept.
    + destruct (negb (paused g) && negb (game_over g)); [|apply kept_refl].
      apply switch_weapon_kept.
    + apply kept_refl.
    + apply kept_refl.
  - cbn [handle_event].
    destruct ((b =? 1) && (negb (paused g) && negb (game_over g)));
      [apply shoot_kept|apply kept_refl].
  - apply kept_refl.
Qed.

Lemma handle_events_kept (mouse : Vector2) (evs : list Event) :
  forall g : Game R,
  kept (player g) (player (fold_left (handle_event mouse) evs g)).
Proof.
  induction evs as [|ev evs IH]; intro g; [apply kept_refl|].
  cbn [fold_left]. eapply kept_trans; [apply handle_event_kept|apply IH].
Qed.

Lemma simulate_kept (inp : Input) (g : Game R) :
  kept (player g) (player (simulate inp g)).
Proof.
  destruct (simulate_structure inp g)
    as [a [b [e [es3 [bs [parts3 [r3 [Ha [Hp _]]]]]]]]].
  rewrite Hp.
  eapply kept_trans; [apply Player_input_kept|].
  eapply kept_trans; [apply update_cooldowns_kept|].
  destruct a, b; cbn beta iota.
  - eapply kept_trans; [apply fired_kept; apply Ha; reflexivity|].
    eapply kept_trans; [apply with_ent_kept|apply damage_kept].
  - eapply kept_trans; [apply fired_kept; apply Ha; reflexivity|].
    apply with_ent_kept.
  - eapply kept_trans; [apply with_ent_kept|apply damage_kept].
  - apply with_ent_kept.
Qed.

Lemma spawn_wave_frame (fuel : nat) (g g' : Game R) :
  spawn_wave fuel g = Done g' ->
  player g' = player g /\ score g' = score g /\ game_over g' = game_over g /\
  paused g' = paused g /\ the_map g' = the_map g /\ bullets g' = bullets g.
Proof.
  unfold spawn_wave. destruct (spawn_loop _ _ _ _ _ _ _) as [[es r]| |];
    try discriminate.
  intro H. inversion H; subst. simpl. auto 10.
Qed.

Lemma next_wave_frame (fuel : nat) (g g' : Game R) :
  next_wave fuel g = Done g' ->
  player g' = player g /\ score g' = score g /\ game_over g' = game_over g /\
  paused g' = paused g /\ the_map g' = the_map g /\ bullets g' = bullets g.
Proof.
  unfold next_wave. destruct (_ =? 0).
  - apply spawn_wave_frame.
  - intro H. inversion H; subst. auto 10.
Qed.

(** What [update] adds to [simulate] for the player, the score and the
    flags. *)
Lemma update_frame (fuel : nat) (inp : Input) (g g' : Game R) :
  update fuel inp g = Done g' ->
  player g' = player (simulate inp g) /\
  score g' = score (simulate inp g) /\
  paused g' = paused g /\
  game_over g' = (hp (player g') <=? 0) || game_over g.
Proof.
  unfold update. destruct (next_wave fuel (simulate inp g)) as [g6| |] eqn:En;
    try discriminate.
  intro H. inversion H; subst g'; clear H.
  destruct (next_wave_frame _ _ _ En) as [Hp [Hs [Hgo [Hpa _]]]].
  destruct (simulate_structure inp g)
    as [a [b [e [es3 [bs [parts3 [r3 [_ [_ [_ [_ [_ [_ [Spa [Sgo _]]]]]]]]]]]]]]].
  cbn [player score paused game_over].
  rewrite Hp, Hs, Hpa, Hgo, Spa, Sgo.
  repeat split.
Qed.

(** X13.  One iteration of the game loop keeps the player's bookkeeping
    sound, whatever the events and inputs: if every magazine held between
    0 rounds and its capacity and no timer was negative before, the same
    holds after; and the capacities themselves never change. *)
Theorem frame_keeps_player_sound (fuel : nat) (inp : Input) (g g' : Game R) :
  frame fuel inp g = Done g' ->
  player_ok (player g) ->
  player_ok (player g') /\ mag (player g') = mag (player g).
Proof.
  intros H Hok. unfold frame in H.
  pose proof (handle_events_kept (mouse_pos inp) (events inp) g) as K1.
  set (g1 := fold_left (handle_event (mouse_pos inp)) (events inp) g) in *.
  assert (K : kept (player g) (player g')).
  { destruct (negb (paused g1) && negb (game_over g1)).
    - destruct (update_frame _ _ _ _ H) as [Hp _]. rewrite Hp.
      eapply kept_trans; [exact K1|apply simulate_kept].
    - inversion H; subst g'. exact K1. }
  destruct K as [K2 K3]. split; [apply K2; exact Hok|exact K3].
Qed.
End BookkeepingStep.

Lemma Player_init_sound (p : Vector2) : player_ok (Player_init p).
Proof.
  unfold player_ok, Player_init. cbn [ammo mag invuln dash_cd reload_time fire_cd].
  split; [intros []; simpl; lia|]. repeat split; lia.
Qed.

Lemma frame_keeps_player_sound_witness :
  match frame 200 busy_input first_wave_game with
  | Done g' => player_ok (player g')
  | _ => True
  end.
Proof.
  destruct (frame 200 busy_input first_wave_game) as [g'| |] eqn:E; [|exact I|exact I].
  apply (frame_keeps_player_sound 200 busy_input first_wave_game g' E).
  assert (Hp : player first_wave_game = Player_init (mkVec 1152 720))
    by (vm_compute; reflexivity).
  rewrite Hp. apply Player_init_sound.
Defined.

(* ------------------------------------------------------------------ *)
(** ** Contact damage *)

Section ContactDamage.
Context {M : MathLib} {R : Type} {RS : RandomSource R}.

(** X14.  However many enemies touch the player in a tick, the tick costs
    the player either nothing or exactly 12 hit points; when it costs 12
    the invulnerability timer leaves the tick at 25; and a player whose
    timer stood above 1 before the tick loses nothing. *)
Theorem contact_damage_once_per_tick (fuel : nat) (inp : Input) (g g' : Game R) :
  update fuel inp g = Done g' ->
  (hp (player g') = hp (player g) \/ hp (player g') = hp (player g) - 12) /\
  (hp (player g') <> hp (player g) -> invuln (player g') = 25) /\
  (1 < invuln (player g) -> hp (player g') = hp (player g)).
Proof.
  intro H. destruct (update_frame _ _ _ _ H) as [Hp _]. rewrite Hp.
  destruct (simulate_structure inp g)
    as [a [b [e [es3 [bs [parts3 [r3 [_ [Hs _]]]]]]]]].
  rewrite Hs.
  set (p0 := Player_input (player g) (key_d inp) (key_a inp) (key_s inp) (key_w inp)).
  destruct (cooldowns_after 1 p0) as [K1 [_ [_ [K4 _]]]].
  change (Nat.iter 1 update_cooldowns p0) with (update_cooldowns p0) in K1, K4.
  set (q := with_ent ((if a then fired else fun q => q) (update_cooldowns p0)) e).
  assert (Hq : hp q = hp (player g) /\ invuln q = run_down (invuln (player g)) 1).
  { unfold q. destruct a; cbn [with_ent fired hp invuln]; rewrite K4, K1; auto. }
  destruct Hq as [Hq1 Hq2].
  destruct b; cbn beta iota.
  - unfold damage. destruct (0 <? invuln q) eqn:E.
    + rewrite Hq1. split; [now left|]. split; [congruence|auto].
    + cbn [hp invuln]. rewrite Hq1. apply Z.ltb_ge in E. rewrite Hq2 in E.
      unfold run_down in E.
      split; [now right|]. split; [reflexivity|]. intro Hi. lia.
  - rewrite Hq1. split; [now left|]. split; [congruence|auto].
Qed.
End ContactDamage.

Lemma contact_damage_once_per_tick_witness :
  match update 200 quiet_input first_wave_game with
  | Done g' => hp (player g') = 150 \/ hp (player g') = 150 - 12
  | _ => True
  end.
Proof.
  destruct (update 200 quiet_input first_wave_game) as [g'| |] eqn:E;
    [|exact I|exact I].
  destruct (contact_damage_once_per_tick 200 quiet_input first_wave_game g' E)
    as [H _].
  assert (Hp : hp (player first_wave_game) = 150) by (vm_compute; reflexivity).
  rewrite Hp in H. exact H.
Defined.

(* ------------------------------------------------------------------ *)
(** ** Kills and score *)

Section KillsAndScore.
Context {R : Type} {RS : RandomSource R}.

Lemma enemy_vs_bullets_killed (bs : list Bullet) :
  forall (e : Enemy) (killed : bool) (parts : list Particle) (sc : Z) (r : R),
  let n := Z.of_nat (length (filter (overlaps e) bs)) in
  h_killed (enemy_vs_bullets bs e killed parts sc r)
    = killed || ((0 <? n) && (e_hp e - 20 * n <=? 0)).
Proof.
  induction bs as [|b rest IH]; intros e killed parts sc r; cbn zeta.
  - simpl. now rewrite orb_false_r.
  - cbn [enemy_vs_bullets filter]. fold (overlaps e b).
    destruct (overlaps e b) eqn:Eo.
    + destruct (burst 10 _ _ _ _ parts r) as [parts1 r1].
      set (e1 := mkEnemy (e_ent e) (e_speed e) (e_hp e - 20) (tier e)).
      assert (Hsame : forall x, overlaps e1 x = overlaps e x) by reflexivity.
      cbn [length]. set (m := Z.of_nat (length (filter (overlaps e) rest))).
      assert (Hm : 0 <= m) by (unfold m; lia).
      replace (Z.of_nat (S (length (filter (overlaps e) rest)))) with (m + 1)
        by (unfold m; lia).
      destruct (e_hp e1 <=? 0) eqn:Ed.
      * destruct (burst 18 _ _ _ _ parts1 r1) as [parts2 r2].
        rewrite IH. cbn [orb]. apply Z.leb_le in Ed. cbn [e_hp e1] in Ed.
        zb. cbn [andb]. now rewrite orb_true_r.
      * rewrite IH. rewrite (filter_ext _ _ Hsame). fold m.
        apply Z.leb_gt in Ed. cbn [e_hp e1] in *.
        destruct (Z.eq_dec m 0) as [E0 | E0].
        -- rewrite E0. zb. reflexivity.
        -- replace (e_hp e - 20 - 20 * m) with (e_hp e - 20 * (m + 1)) by lia.
           zb. reflexivity.
    + cbn [h_killed]. apply IH.
Qed.

Lemma enemies_vs_bullets_killed (es : list Enemy) :
  forall (bs : list Bullet) (parts : list Particle) (sc : Z) (r : R) (i : nat) (e : Enemy),
  nth_error es i = Some e ->
  exists e',
    nth_error (ph_enemies (enemies_vs_bullets es bs parts sc r)) i
      = Some (e', (0 <? hits_on es bs i) && (e_hp e - 20 * hits_on es bs i <=? 0)).
Proof.
  induction es as [|e0 rest IH]; intros bs parts sc r i e Hi.
  - destruct i; discriminate.
  - cbn [enemies_vs_bullets ph_enemies].
    destruct (enemy_vs_bullets_spec bs e0 false parts sc r) as [H1 _].
    destruct i as [|j].
    + simpl in Hi. inversion Hi; subst e0.
      eexists. cbn [nth_error]. rewrite enemy_vs_bullets_killed. cbn [orb].
      unfold hits_on. rewrite (filter_ext _ _ (is_target_head e rest)). reflexivity.
    + simpl in Hi.
      destruct (IH (h_bullets (enemy_vs_bullets bs e0 false parts sc r))
                   (h_particles (enemy_vs_bullets bs e0 false parts sc r))
                   (h_score (enemy_vs_bullets bs e0 false parts sc r))
                   (h_rng (enemy_vs_bullets bs e0 false parts sc r)) j e Hi)
        as [e' G].
      exists e'. cbn [nth_error]. rewrite G, H1. unfold hits_on.
      rewrite filter_filter.
      rewrite (filter_ext _ _ (is_target_tail e0 rest j)). reflexivity.
Qed.

(** X15.  In the bullet-versus-enemy pass an enemy is removed exactly when
    at least one bullet is charged to it and the hits leave it with no hit
    points: an enemy no bullet reaches stays in the group whatever its hit
    points are. *)
Theorem enemy_removed_iff_shot_dead
  (es : list Enemy) (bs : list Bullet) (parts : list Particle) (sc : Z) (r : R)
  (i : nat) (e : Enemy) :
  nth_error es i = Some e ->
  exists e',
    nth_error (ph_enemies (enemies_vs_bullets es bs parts sc r)) i
      = Some (e', (0 <? hits_on es bs i) && (e_hp e - 20 * hits_on es bs i <=? 0)).
Proof. apply enemies_vs_bullets_killed. Qed.

Lemma enemy_vs_bullets_score (bs : list Bullet) :
  forall (e : Enemy) (killed : bool) (parts : list Particle) (sc : Z) (r : R),
  exists m, 0 <= m /\
    h_score (enemy_vs_bullets bs e killed parts sc r) = sc + 10 * (tier e * m).
Proof.
  induction bs as [|b rest IH]; intros e killed parts sc r.
  - exists 0. cbn [enemy_vs_bullets h_score]. split; [lia|ring].
  - cbn [enemy_vs_bullets]. destruct (colliderect _ _).
    + destruct (burst 10 _ _ _ _ parts r) as [parts1 r1].
      set (e1 := mkEnemy (e_ent e) (e_speed e) (e_hp e - 20) (tier e)).
      destruct (e_hp e1 <=? 0).
      * destruct (burst 18 _ _ _ _ parts1 r1) as [parts2 r2].
        destruct (IH e1 true parts2 (sc + 10 * tier e1) r2) as [m [Hm E]].
        exists (m + 1). split; [lia|]. rewrite E. cbn [tier e1]. ring.
      * destruct (IH e1 killed parts1 sc r1) as [m [Hm E]].
        exists m. split; [lia|]. rewrite E. reflexivity.
    + cbn [h_score]. apply IH.
Qed.

Lemma enemies_vs_bullets_score (es : list Enemy) :
  forall (bs : list Bullet) (parts : list Particle) (sc : Z) (r : R),
  Forall (fun e => 0 <= tier e) es ->
  exists k, 0 <= k /\
    ph_score (enemies_vs_bullets es bs parts sc r) = sc + 10 * k.
Proof.
  induction es as [|e rest IH]; intros bs parts sc r Hall.
  - exists 0. cbn [enemies_vs_bullets ph_score]. split; [lia|ring].
  - inversion Hall as [|? ? He Hrest]; subst.
    cbn [enemies_vs_bullets ph_score].
    destruct (enemy_vs_bullets_score bs e false parts sc r) as [m [Hm E]].
    destruct (IH (h_bullets (enemy_vs_bullets bs e false parts sc r))
                 (h_particles (enemy_vs_bullets bs e false parts sc r))
                 (h_score (enemy_vs_bullets bs e false parts sc r))
                 (h_rng (enemy_vs_bullets bs e false parts sc r)) Hrest)
      as [k [Hk E2]].
    exists (tier e * m + k). split; [nia|]. rewrite E2, E. ring.
Qed.
End KillsAndScore.

Lemma enemy_removed_iff_shot_dead_witness :
  exists e',
    nth_error (ph_enemies (enemies_vs_bullets twin_enemies [lone_bullet] [] 0 (7 : Z))) 1
      = Some (e', false).
Proof.
  apply (enemy_removed_iff_shot_dead twin_enemies [lone_bullet] [] 0 (7 : Z) 1
           (Enemy_init (mkVec 1010 1000) 1)).
  reflexivity.
Defined.

Section ScoreStep.
Context {M : MathLib} {R : Type} {RS : RandomSource R}.

(** X16.  With enemies of nonnegative tier, a tick never lowers the score,
    and whatever it adds is a multiple of 10. *)
Theorem score_only_grows (fuel : nat) (inp : Input) (g g' : Game R) :
  update fuel inp g = Done g' ->
  Forall (fun e => 0 <= tier e) (enemies g) ->
  exists k, 0 <= k /\ score g' = score g + 10 * k.
Proof.
  intros H Hall. destruct (update_frame _ _ _ _ H) as [_ [Hs _]]. rewrite Hs.
  destruct (simulate_structure inp g)
    as [a [b [e [es3 [bs [parts3 [r3 [_ [_ [Ht [_ [Hsc _]]]]]]]]]]]].
  rewrite Hsc. apply enemies_vs_bullets_score.
  apply Forall_forall. intros x Hx.
  assert (Hin : In (tier x) (map tier (enemies g))).
  { rewrite <- Ht. apply in_map. exact Hx. }
  apply in_map_iff in Hin. destruct Hin as [y [Ey Hy]].
  rewrite Forall_forall in Hall. rewrite <- Ey. apply Hall. exact Hy.
Qed.
End ScoreStep.

Lemma score_only_grows_witness :
  match update 200 quiet_input first_wave_game with
  | Done g' => exists k, 0 <= k /\ score g' = 0 + 10 * k
  | _ => True
  end.
Proof.
  destruct (update 200 quiet_input first_wave_game) as [g'| |] eqn:E;
    [|exact I|exact I].
  destruct (score_only_grows 200 quiet_input first_wave_game g' E) as [k [Hk Hs]].
  - vm_compute. repeat constructor; discriminate.
  - exists k. split; [exact Hk|].
    assert (H0 : score first_wave_game = 0) by (vm_compute; reflexivity).
    rewrite Hs, H0. reflexivity.
Defined.

(* ------------------------------------------------------------------ *)
(** ** Bullets in flight *)

Lemma Bullet_update_alive (dt : Z) (tm : TileMap) (b : Bullet) :
  let b' := fst (Bullet_update dt tm b) in
  b_vel b' = b_vel b /\
  (snd (Bullet_update dt tm b) = true <->
     rect_collide tm (b_rect b') = [] /\ 1 < b_life b) /\
  (snd (Bullet_update dt tm b) = true -> b_life b' = b_life b - 1).
Proof.
  unfold Bullet_update. cbn [fst snd b_vel b_rect b_life].
  split; [reflexivity|].
  destruct (rect_collide tm _) as [|w ws].
  - rewrite negb_true_iff, Z.leb_gt. split; [|intros _; reflexivity].
    split; [intro H; split; [reflexivity|lia]|intros [_ H]; lia].
  - cbn [Z.sub Z.add Z.opp Z.leb Z.compare negb]. split.
    + split; [discriminate|intros [H _]; discriminate].
    + discriminate.
Qed.

(** X17.  [Bullet.update] never changes the velocity.  The bullet stays in
    its group exactly when its moved rectangle touches no wall and it had
    more than one tick of life left, and then its life has dropped by
    one; so a bullet with [life] ticks is gone after at most [life]
    updates (and any bullet after one update if [life <= 1]). *)
Theorem bullet_lifetime (n : nat) (dt : Z) (tm : TileMap) (b : Bullet) :
  (0 < n)%nat -> b_life b <= Z.of_nat n ->
  Bullet_updates n dt tm b = None /\
  b_vel (fst (Bullet_update dt tm b)) = b_vel b /\
  (snd (Bullet_update dt tm b) = true <->
     rect_collide tm (b_rect (fst (Bullet_update dt tm b))) = [] /\ 1 < b_life b).
Proof.
  intros Hn Hl.
  destruct (Bullet_update_alive dt tm b) as [Hv [Ha _]].
  split; [|split; [exact Hv|exact Ha]].
  clear Hv Ha. revert b Hn Hl. induction n as [|k IH]; intros b Hn Hl; [lia|].
  cbn [Bullet_updates].
  destruct (Bullet_update_alive dt tm b) as [_ [Ha Hlife]].
  destruct (Bullet_update dt tm b) as [b' alive]. cbn [fst snd] in *.
  destruct alive; [|reflexivity].
  destruct (proj1 Ha eq_refl) as [_ H1]. specialize (Hlife eq_refl).
  apply IH; lia.
Qed.

Lemma bullet_lifetime_witness :
  Bullet_updates 70 16 empty_map lone_bullet = None.
Proof.
  apply (bullet_lifetime 70 16 empty_map lone_bullet); [lia|vm_compute; discriminate].
Defined.

(* ------------------------------------------------------------------ *)
(** ** Input edge cases *)

Section InputEdges.
Context {M : MathLib} {R : Type} {RS : RandomSource R}.

(** X18.  With no direction held, or with opposite keys held together,
    [Player.input] leaves the player with zero velocity, and a dash
    requested then does nothing at all. *)
Theorem no_direction_no_dash
  (p : Player) (kx ky : bool) (c : Camera) (parts : list Particle) (r : R) :
  let p' := Player_input p kx kx ky ky in
  veq (vel (p_ent p')) (mkVec 0 0) /\
  try_dash p' c parts r = (p', c, parts, r).
Proof.
  intro p'.
  assert (Hv : veq (vel (p_ent p')) (mkVec 0 0)).
  { unfold p', Player_input. destruct kx, ky;
      cbn [with_ent p_ent vel]; unfold veq, vscale; cbn [vx vy];
      split; vm_compute; reflexivity || (unfold Qeq; simpl; ring). }
  split; [exact Hv|]. apply try_dash_rejected. left. exact Hv.
Qed.

Lemma repeat_gen_Forall {A : Type} (P : A -> Prop) (gen : R -> A * R) (n : nat) :
  (forall r, P (fst (gen r))) ->
  forall r, Forall P (fst (repeat_gen n gen r)).
Proof.
  intro H. induction n as [|n IH]; intro r; simpl; [constructor|].
  specialize (H r). destruct (gen r) as [a r1]. specialize (IH r1).
  destruct (repeat_gen n gen r1) as [l r2]. simpl in *. constructor; assumption.
Qed.

Lemma aim_dir_on_player (p : Player) (wm : Vector2) :
  veq wm (pos (p_ent p)) -> veq (aim_dir p wm) (mkVec 0 0).
Proof.
  intros [Hx Hy]. unfold aim_dir.
  assert (H0 : veq (vsub wm (pos (p_ent p))) (mkVec 0 0)).
  { unfold veq, vsub. cbn [vx vy]. split; lra. }
  rewrite (Qeq_eq_bool _ _ (length_squared_zero _ H0)). exact H0.
Qed.

Lemma rotate_zero (d : Vector2) (s k : Q) :
  veq d (mkVec 0 0) -> veq (vscale (rotate d s) k) (mkVec 0 0).
Proof.
  intros [Hx Hy]. unfold veq, vscale, rotate in *. cbn [vx vy] in *.
  split; rewrite Hx, Hy; ring.
Qed.

(** X19.  A shot fired with the cursor exactly on the player is still
    accepted, but the aim direction is the zero vector: every bullet it
    creates sits at the player's position with zero velocity. *)
Theorem shot_at_own_position (g : Game R) (wm : Vector2) :
  reload_time (player g) <= 0 -> fire_cd (player g) <= 0 ->
  0 < pw_get (ammo (player g)) (weapon (player g)) ->
  veq wm (pos (p_ent (player g))) ->
  exists new,
    bullets (shoot g wm) = bullets g ++ new /\ new <> [] /\
    Forall (fun b => veq (b_vel b) (mkVec 0 0) /\
                     veq (b_pos b) (pos (p_ent (player g)))) new.
Proof.
  intros Hr Hf Ha Hwm.
  pose proof (aim_dir_on_player (player g) wm Hwm) as Hd.
  assert (Hmz : veq (vadd (pos (p_ent (player g))) (vscale (aim_dir (player g) wm) 30))
                    (pos (p_ent (player g)))).
  { destruct Hd as [Dx Dy]. unfold veq, vadd, vscale in *. cbn [vx vy] in *.
    split; [rewrite Dx|rewrite Dy]; ring. }
  unfold shoot.
  replace (0 <? reload_time (player g)) with false by (symmetry; apply Z.ltb_ge; lia).
  replace (0 <? fire_cd (player g)) with false by (symmetry; apply Z.ltb_ge; lia).
  replace (pw_get (ammo (player g)) (weapon (player g)) <=? 0) with false
    by (symmetry; apply Z.leb_gt; lia).
  cbn [orb].
  destruct (weapon (player g)).
  - destruct (uniform _ _ (rng g)) as [s r1].
    destruct (burst 8 _ _ _ _ _ r1) as [ps r2]. cbn [bullets].
    eexists. split; [reflexivity|]. split; [discriminate|].
    constructor; [|constructor]. cbn [Bullet_init b_vel b_pos].
    split; [apply rotate_zero; exact Hd|exact Hmz].
  - pose proof (repeat_gen_Forall
        (fun b => veq (b_vel b) (mkVec 0 0) /\ veq (b_pos b) (pos (p_ent (player g))))
        (pellet (vadd (pos (p_ent (player g))) (vscale (aim_dir (player g) wm) 30))
                (aim_dir (player g) wm) 750) 6) as HF.
    pose proof (repeat_gen_length 6
        (pellet (vadd (pos (p_ent (player g))) (vscale (aim_dir (player g) wm) 30))
                (aim_dir (player g) wm) 750) (rng g)) as HL.
    specialize (HF ltac:(
      intro r0; unfold pellet; destruct (uniform _ _ r0) as [s r1];
      cbn [fst Bullet_init b_vel b_pos]; split; [|exact Hmz];
      destruct (rotate_zero (aim_dir (player g) wm) s 750 Hd) as [Zx Zy];
      unfold veq, vscale in *; cbn [vx vy] in *; split;
      [rewrite Zx|rewrite Zy]; ring) (rng g)).
    destruct (repeat_gen 6 _ (rng g)) as [l r1].
    destruct (burst 16 _ _ _ _ _ r1) as [ps r2]. cbn [bullets fst] in *.
    exists l. split; [reflexivity|]. split; [|exact HF].
    intro E. rewrite E in HL. discriminate.
Qed.
End InputEdges.

Lemma shot_at_own_position_witness :
  exists new,
    bullets (shoot (idle_game shotgun_player 7) (mkVec 100 100)) = [] ++ new /\
    new <> [] /\
    Forall (fun b => veq (b_vel b) (mkVec 0 0) /\ veq (b_pos b) (mkVec 100 100)) new.
Proof.
  apply (shot_at_own_position (idle_game shotgun_player 7) (mkVec 100 100));
    try (simpl; lia).
  split; reflexivity.
Defined.

(* ------------------------------------------------------------------ *)
(** ** Pause and game over *)

Section Freezes.
Context {M : MathLib} {R : Type} {RS : RandomSource R}.

Lemma handle_event_inactive (mouse : Vector2) (g : Game R) (ev : Event) :
  negb (paused g) && negb (game_over g) = false ->
  ev <> KeyDown K_ESCAPE ->
  handle_event mouse g ev = g.
Proof.
  intros Hin Hev. destruct ev as [k|b|]; [destruct k| |]; cbn [handle_event];
    rewrite ?Hin, ?andb_false_r; try reflexivity.
  congruence.
Qed.

(** X20.  While the game is paused, an iteration of the loop (drawing
    apart) whose events do not include the pause key leaves the game
    exactly as it was: no timer, entity or score changes and the update
    code draws nothing from the generator. *)
Theorem pause_freezes (fuel : nat) (inp : Input) (g : Game R) :
  paused g = true ->
  (forall ev, In ev (events inp) -> ev <> KeyDown K_ESCAPE) ->
  frame fuel inp g = Done g.
Proof.
  intros Hp Hev. unfold frame.
  assert (Hfold : fold_left (handle_event (mouse_pos inp)) (events inp) g = g).
  { induction (events inp) as [|ev evs IH]; [reflexivity|].
    cbn [fold_left]. rewrite handle_event_inactive.
    - apply IH. intros e He. apply Hev. now right.
    - rewrite Hp. reflexivity.
    - apply Hev. now left. }
  rewrite Hfold, Hp. reflexivity.
Qed.

Lemma handle_event_game_over (mouse : Vector2) (g : Game R) (b : bool) (ev : Event) :
  game_over g = true ->
  exists b', handle_event mouse (set_paused g b) ev = set_paused g b'.
Proof.
  intro Hgo.
  assert (Hin : negb (paused (set_paused g b)) && negb (game_over (set_paused g b)) = false).
  { cbn [set_paused paused game_over]. rewrite Hgo. apply andb_false_r. }
  destruct ev as [k|n|].
  - destruct k; try (exists b; apply handle_event_inactive; [exact Hin|discriminate]).
    exists (negb b). reflexivity.
  - exists b. apply handle_event_inactive; [exact Hin|discriminate].
  - exists b. reflexivity.
Qed.

(** X21.  Once the game is over it stays over: an iteration of the loop
    (drawing apart) can flip the pause flag and changes nothing else, so
    no input moves, fires, spawns or scores any more. *)
Theorem game_over_freezes (fuel : nat) (inp : Input) (g : Game R) :
  game_over g = true ->
  exists b, frame fuel inp g = Done (set_paused g b).
Proof.
  intro Hgo. unfold frame.
  assert (Hfold : forall evs b, exists b',
            fold_left (handle_event (mouse_pos inp)) evs (set_paused g b)
              = set_paused g b').
  { induction evs as [|ev evs IH]; intro b; [exists b; reflexivity|].
    cbn [fold_left].
    destruct (handle_event_game_over (mouse_pos inp) g b ev Hgo) as [b1 E].
    rewrite E. apply IH. }
  assert (Hg : g = set_paused g (paused g)) by (destruct g; reflexivity).
  destruct (Hfold (events inp) (paused g)) as [b' E].
  rewrite <- Hg in E. rewrite E.
  exists b'. cbn [set_paused paused game_over]. rewrite Hgo, andb_false_r.
  reflexivity.
Qed.

(** X22.  A tick ends with the game over exactly when the player's hit
    points are then 0 or less, or the game was over already; it never
    touches the pause flag. *)
Theorem death_ends_game (fuel : nat) (inp : Input) (g g' : Game R) :
  update fuel inp g = Done g' ->
  game_over g' = (hp (player g') <=? 0) || game_over g /\
  paused g' = paused g.
Proof.
  intro H. destruct (update_frame _ _ _ _ H) as [_ [_ [Hpa Hgo]]].
  split; assumption.
Qed.
End Freezes.

Lemma pause_freezes_witness :
  frame 200 busy_input paused_game = Done paused_game.
Proof.
  apply (pause_freezes 200 busy_input paused_game); [reflexivity|].
  intros ev [E | [E | [E | []]]]; subst ev; discriminate.
Defined.

Lemma game_over_freezes_witness :
  exists b, frame 200 busy_input finished_game = Done (set_paused finished_game b).
Proof.
  apply (game_over_freezes 200 busy_input finished_game). reflexivity.
Defined.

Lemma death_ends_game_witness :
  match update 200 quiet_input first_wave_game with
  | Done g' => game_over g' = (hp (player g') <=? 0) || false
  | _ => True
  end.
Proof.
  destruct (update 200 quiet_input first_wave_game) as [g'| |] eqn:E;
    [|exact I|exact I].
  destruct (death_ends_game 200 quiet_input first_wave_game g' E) as [H _].
  assert (H0 : game_over first_wave_game = false) by (vm_compute; reflexivity).
  rewrite H0 in H. exact H.
Defined.

(* ------------------------------------------------------------------ *)
(** ** A new session *)

Section NewSession.
Context {M : MathLib} {R : Type} {RS : RandomSource R} {RR : RandomRange R}.

Lemma TileMap_init_size (w h tile : Z) (r : R) :
  tm_w (fst (TileMap_init w h tile r)) = w /\
  tm_h (fst (TileMap_init w h tile r)) = h.
Proof.
  unfold TileMap_init, generate. cbn [tm_w tm_h tm_tile grid wall_rects].
  destruct (fill w h _) as [g1 r1]. split; reflexivity.
Qed.

(** X23.  When [Game()] returns, the session is in wave 1 with score 0,
    not paused and not over, without bullets or particles; the player is a
    fresh one at the middle of the arena, (1152, 720); and there are
    exactly 8 enemies, all of tier 1 with 40 hit points. *)
Theorem Game_init_first_wave (fuel : nat) (r : R) (g : Game R) :
  Game_init fuel r = Done g ->
  wave g = 1 /\ score g = 0 /\ paused g = false /\ game_over g = false /\
  bullets g = [] /\ particles g = [] /\
  player g = Player_init (mkVec 1152 720) /\
  the_map g = fst (TileMap_init MAP_W MAP_H TILE r) /\
  length (enemies g) = 8%nat /\
  Forall (fun e => tier e = 1 /\ e_hp e = 40) (enemies g).
Proof.
  unfold Game_init. intro H.
  pose proof (TileMap_init_size MAP_W MAP_H TILE r) as [Hw Hh].
  destruct (TileMap_init MAP_W MAP_H TILE r) as [tm r1]. cbn [fst] in *.
  rewrite Hw, Hh in H. change (MAP_W * TILE / 2) with 1152 in H.
  change (MAP_H * TILE / 2) with 720 in H.
  unfold spawn_wave in H. cbn [wave enemies the_map player rng] in H.
  destruct (spawn_loop _ _ _ _ _ _ _) as [[es r2]| |] eqn:El; try discriminate.
  inversion H; subst g; clear H.
  cbn [wave score paused game_over bullets particles player the_map enemies].
  repeat (split; [reflexivity|]).
  set (g0 := mkGame tm (Player_init (mkVec (inject_Z 1152) (inject_Z 720)))
               Camera_init [] [] [] 0 0 false false r1).
  destruct (spawn_loop_spec fuel g0 (0 + 1) _ [] r1 es r2 El) as [new [E [L F]]].
  destruct (spawn_loop_inits _ _ _ _ _ _ _ _ _ El) as [new' [E' F']].
  cbn [app] in E, E'. subst es. subst new'.
  split; [exact L|].
  rewrite Forall_forall in *. intros e He.
  destruct (F e He) as [[rr Ht] _].
  destruct (F' e He) as [x [y [t [Ee _]]]].
  assert (Ht1 : tier e = 1) by (rewrite Ht; reflexivity).
  split; [exact Ht1|]. subst e. cbn [Enemy_init tier e_hp] in *. lia.
Qed.
End NewSession.

Lemma Game_init_first_wave_witness :
  wave started_game = 1 /\ length (enemies started_game) = 8%nat /\
  player started_game = Player_init (mkVec 1152 720).
Proof.
  destruct (Game_init_first_wave 200 (1 : Z) started_game)
    as [H1 [_ [_ [_ [_ [_ [H7 [_ [H9 _]]]]]]]]].
  - vm_compute. reflexivity.
  - split; [exact H1|]. split; [exact H9|exact H7].
Defined.

(* ------------------------------------------------------------------ *)
(** ** The rectangle follows the position *)

Lemma centerx_set_centerx (r : Rect) (v : Z) : centerx (set_centerx r v) = v.
Proof. unfold centerx, set_centerx. cbn [rx rw]. lia. Qed.

Lemma centery_set_centery (r : Rect) (v : Z) : centery (set_centery r v) = v.
Proof. unfold centery, set_centery. cbn [ry rh]. lia. Qed.

Lemma fold_clamp_x_sync (v : Q) (l : list Rect) :
  forall st : Rect * Q,
  centerx (fst st) = py_int (snd st) ->
  centerx (fst (fold_left (clamp_x v) l st))
    = py_int (snd (fold_left (clamp_x v) l st)).
Proof.
  induction l as [|w l IH]; intros st H; [exact H|].
  cbn [fold_left]. apply IH. unfold clamp_x. cbn [fst snd].
  now rewrite py_int_inject.
Qed.

Lemma fold_clamp_y_sync (v : Q) (l : list Rect) :
  forall st : Rect * Q,
  centery (fst st) = py_int (snd st) ->
  centery (fst (fold_left (clamp_y v) l st))
    = py_int (snd (fold_left (clamp_y v) l st)).
Proof.
  induction l as [|w l IH]; intros st H; [exact H|].
  cbn [fold_left]. apply IH. unfold clamp_y. cbn [fst snd].
  now rewrite py_int_inject.
Qed.

(** X24.  Whatever state an entity is in, after [collide_move] its
    rectangle is centred on its position truncated to integers, on both
    axes, and has kept its size; the radius is untouched. *)
Theorem collide_move_syncs_rect (dt : Q) (tm : TileMap) (e : Entity) :
  let e' := collide_move dt tm e in
  centerx (rect e') = py_int (vx (pos e')) /\
  centery (rect e') = py_int (vy (pos e')) /\
  rw (rect e') = rw (rect e) /\ rh (rect e') = rh (rect e) /\
  radius e' = radius e.
Proof.
  unfold collide_move.
  set (px := (vx (pos e) + vx (vel e) * dt)%Q).
  set (r1 := set_centerx (rect e) (py_int px)).
  pose proof (fold_clamp_x_sync (vx (vel e)) (rect_collide tm r1) (r1, px)
                (centerx_set_centerx (rect e) (py_int px))) as Sx.
  pose proof (fold_clamp_x_frame (vx (vel e)) (rect_collide tm r1) (r1, px))
    as [_ [Wx Hx]].
  destruct (fold_left (clamp_x (vx (vel e))) (rect_collide tm r1) (r1, px)) as [r2 px2].
  cbn [fst snd] in *.
  set (py := (vy (pos e) + vy (vel e) * dt)%Q).
  set (r3 := set_centery r2 (py_int py)).
  pose proof (fold_clamp_y_sync (vy (vel e)) (rect_collide tm r3) (r3, py)
                (centery_set_centery r2 (py_int py))) as Sy.
  pose proof (fold_clamp_y_frame (vy (vel e)) (rect_collide tm r3) (r3, py))
    as [Xy [Wy Hy]].
  destruct (fold_left (clamp_y (vy (vel e))) (rect_collide tm r3) (r3, py)) as [r4 py4].
  cbn [fst snd rect pos vx vy radius] in *.
  split; [|split; [exact Sy|]].
  - unfold centerx in *. rewrite Xy, Wy. unfold r3, set_centery. cbn [rx rw]. exact Sx.
  - rewrite Wy, Hy. unfold r3, set_centery. cbn [rw rh]. rewrite Wx, Hx.
    unfold r1, set_centerx. cbn [rw rh]. auto.
Qed.

(* ------------------------------------------------------------------ *)
(** ** Bullets that outlive a tick *)

Section LiveBullets.
Context {M : MathLib} {R : Type} {RS : RandomSource R} {RR : RandomRange R}.

Lemma keep_alive_in {A B : Type} (f : A -> B * bool) (l : list A) (y : B) :
  In y (keep_alive (map f l)) -> exists x, In x l /\ f x = (y, true).
Proof.
  unfold keep_alive. rewrite in_map_iff. intros [[y' a] [E H]].
  cbn [fst] in E. subst y'. apply filter_In in H. destruct H as [H Ha].
  cbn [snd] in Ha. subst a. apply in_map_iff in H. destruct H as [x [E H]].
  exists x. split; [exact H|exact E].
Qed.

Lemma simulate_bullets (inp : Input) (g : Game R) (b : Bullet) :
  In b (bullets (simulate inp g)) ->
  exists b0, Bullet_update (dt inp) (the_map g) b0 = (b, true).
Proof.
  unfold simulate.
  set (g1 := with_player g _).
  set (g2 := if mouse_held inp then shoot g1 _ else g1).
  assert (Hm : the_map g2 = the_map g).
  { unfold g2. destruct (mouse_held inp); [|reflexivity].
    destruct (shoot_frame g1 (screen_to_world (camera g1) (mouse_pos inp)))
      as [A1 _]. rewrite A1. reflexivity. }
  destruct (fold_left _ (enemies g2) _) as [[[[p3 c3] parts3] r3] es3].
  cbn [bullet_vs_enemy player score enemies paused game_over the_map wave
       camera bullets particles rng].
  rewrite enemies_vs_bullets_bullets. intro H. apply filter_In in H.
  destruct H as [H _]. apply keep_alive_in in H. destruct H as [b0 [_ E]].
  exists b0. rewrite <- Hm. exact E.
Qed.

(** X25.  After a tick of the running game every bullet still in the
    group overlaps no wall rectangle and has a positive remaining life:
    a bullet that reached a wall, or whose life ran out, is gone within
    the same tick. *)
Theorem surviving_bullets_clear (fuel : nat) (inp : Input) (g g' : Game R) :
  update fuel inp g = Done g' ->
  Forall (fun b => rect_collide (the_map g') (b_rect b) = [] /\ 0 < b_life b)
         (bullets g').
Proof.
  unfold update. destruct (next_wave fuel (simulate inp g)) as [g6| |] eqn:En;
    try discriminate.
  intro H. inversion H; subst g'; clear H. cbn [the_map bullets].
  destruct (next_wave_frame _ _ _ En) as [_ [_ [_ [_ [Hm Hb]]]]].
  destruct (simulate_structure inp g)
    as [a [b [e [es3 [bs [parts3 [r3 [_ [_ [_ [_ [_ [_ [_ [_ Sm]]]]]]]]]]]]]]].
  rewrite Hm, Hb, Sm. apply Forall_forall. intros x Hx.
  apply simulate_bullets in Hx. destruct Hx as [b0 E].
  pose proof (Bullet_update_alive (dt inp) (the_map g) b0) as [_ [Ha Hl]].
  cbn zeta in Ha, Hl. rewrite E in Ha, Hl. cbn [fst snd] in Ha, Hl.
  destruct (proj1 Ha eq_refl) as [Hc Hlife]. split; [exact Hc|].
  rewrite (Hl eq_refl). lia.
Qed.
End LiveBullets.

Lemma surviving_bullets_clear_witness :
  match update 200 busy_input first_wave_game with
  | Done g' =>
      Forall (fun b => rect_collide (the_map g') (b_rect b) = [] /\ 0 < b_life b)
             (bullets g')
  | _ => True
  end.
Proof.
  destruct (update 200 busy_input first_wave_game) as [g'| |] eqn:E;
    [|exact I|exact I].
  exact (surviving_bullets_clear 200 busy_input first_wave_game g' E).
Defined.
